(** * Diaryx backend: note metadata parser, sync merge policy and
      shared-visibility resolution

    A shallow embedding of [src/index.ts] (frontmatter splitter, YAML subset
    parser, visibility resolver, the [/api/notes] and [/api/shared-notes]
    handlers) and of the storage helpers it imports from [./note-storage]
    (the SQL statements), with the properties of the specification stated
    over it.

    Conventions of the model.
    - A JavaScript string is a [string]: a sequence of code units below 256,
      read as U+0000..U+00FF.  [String.prototype.trim], the regexp class [\s]
      and [String.prototype.toLowerCase] are written out for that range.
    - A JavaScript regular expression is a value of [Regex.regex], run by a
      backtracking matcher with the priorities of ECMAScript (greedy and lazy
      quantifiers, capture groups).
    - The Postgres tables are finite maps keyed by their primary key; every
      [pool.query] is recorded in a log of the statements issued.  The store
      rejects a statement whose [last_modified] does not fit the BIGINT
      column; no other failure of the database is modelled.
    - Requests are served one after the other.  Within a request, the two
      list helpers that the handlers start together run concurrently; the
      order in which their statements follow each other is a parameter.
    - Timestamps ([last_modified], [Date.now()]) are integers.
    - What the runtime and Postgres decide is a parameter: the clocks, ILIKE,
      the collation of ORDER BY term, [Number()] on a JSON value that is not
      a number, [localeCompare] and [randomId()]. *)

From Stdlib Require Import ZArith Ascii String Lia.
From stdpp Require Import base option list gmap strings sorting.

Local Open Scope Z_scope.
#[local] Set Warnings "-register-all".

(* ================================================================== *)
(** ** JavaScript strings *)
(* ================================================================== *)

Module Js.

Definition code (c : ascii) : N := N_of_ascii c.

(** WhiteSpace and LineTerminator code points below 256: TAB, LF, VT, FF,
    CR, SP and NBSP.  This is both what [trim] strips and what [\s]
    matches. *)
Definition is_space (c : ascii) : bool :=
  match code c with
  | 9 | 10 | 11 | 12 | 13 | 32 | 160 => true
  | _ => false
  end%N.

(** [toLowerCase] on one code unit: A-Z, and the Latin-1 capitals
    U+00C0..U+00DE except the multiplication sign U+00D7. *)
Definition lower_char (c : ascii) : ascii :=
  let n := code c in
  if ((65 <=? n) && (n <=? 90))%N then ascii_of_N (n + 32)
  else if ((192 <=? n) && (n <=? 222) && negb (n =? 215))%N
       then ascii_of_N (n + 32)
  else c.

Fixpoint toLowerCase (s : string) : string :=
  match s with
  | EmptyString => EmptyString
  | String c s' => String (lower_char c) (toLowerCase s')
  end.

Fixpoint trimStart (s : string) : string :=
  match s with
  | EmptyString => EmptyString
  | String c s' => if is_space c then trimStart s' else s
  end.

Fixpoint trimEnd (s : string) : string :=
  match s with
  | EmptyString => EmptyString
  | String c s' =>
      match trimEnd s' with
      | EmptyString => if is_space c then EmptyString else String c EmptyString
      | t => String c t
      end
  end.

Definition trim (s : string) : string := trimEnd (trimStart s).

(** [s.startsWith(p)], returning what follows the prefix. *)
Fixpoint strip_prefix (p s : string) : option string :=
  match p with
  | EmptyString => Some s
  | String a p' =>
      match s with
      | EmptyString => None
      | String b s' => if Ascii.eqb a b then strip_prefix p' s' else None
      end
  end.

Definition startsWith (s p : string) : bool :=
  match strip_prefix p s with Some _ => true | None => false end.

(** [s.includes(c)] for a one-character needle. *)
Fixpoint includes_char (s : string) (c : ascii) : bool :=
  match s with
  | EmptyString => false
  | String a s' => Ascii.eqb a c || includes_char s' c
  end.

(** Truthiness of a string ([Boolean(s)], [!s]). *)
Definition truthy (s : string) : bool :=
  match s with EmptyString => false | _ => true end.

(** [s.split(sep)] for a one-character separator: always at least one
    piece. *)
Fixpoint split_go (sep : ascii) (cur : string) (s : string) : list string :=
  match s with
  | EmptyString => [String.rev cur]
  | String c s' =>
      if Ascii.eqb c sep then String.rev cur :: split_go sep EmptyString s'
      else split_go sep (String c cur) s'
  end.
Definition split (sep : ascii) (s : string) : list string :=
  split_go sep EmptyString s.

Definition LF : ascii := "010"%char.
Definition CR : ascii := "013"%char.

(** [s.split(/\r?\n/)]: the separator is LF, or CR immediately followed by
    LF; a lone CR stays in the piece. *)
Fixpoint split_lines_go (cur : string) (s : string) : list string :=
  match s with
  | EmptyString => [String.rev cur]
  | String c s' =>
      if Ascii.eqb c LF then String.rev cur :: split_lines_go EmptyString s'
      else if Ascii.eqb c CR then
        match s' with
        | String d s'' =>
            if Ascii.eqb d LF
            then String.rev cur :: split_lines_go EmptyString s''
            else split_lines_go (String c cur) s'
        | EmptyString => split_lines_go (String c cur) s'
        end
      else split_lines_go (String c cur) s'
  end.
Definition split_lines (s : string) : list string :=
  split_lines_go EmptyString s.

(** [repeat(n)] of one space. *)
Fixpoint spaces (n : nat) : string :=
  match n with O => EmptyString | S n' => String " "%char (spaces n') end.

(** All characters of [s] satisfy [p]. *)
Fixpoint all_chars (p : ascii -> bool) (s : string) : bool :=
  match s with
  | EmptyString => true
  | String c s' => p c && all_chars p s'
  end.

End Js.

(* ================================================================== *)
(** ** Regular expressions *)
(* ================================================================== *)

Module Regex.

(** The pieces the regexps of [index.ts] are made of.  Every regexp there
    is anchored with [^], so a [regex] is matched from the start of its
    input. *)
Inductive atom : Type :=
| Lit (l : string)                       (* literal text *)
| Cls (p : ascii -> bool)                (* one character of a class *)
| Star (greedy : bool) (p : ascii -> bool)  (* class* and class*? *)
| Opt (p : ascii -> bool)                (* class?  (greedy) *)
| Open                                   (* ( *)
| Close                                  (* ) *)
| Eos.                                   (* $ without the m flag *)

Definition regex := list atom.

(** [x+] is [xx*]. *)
Definition Plus (p : ascii -> bool) : regex := [Cls p; Star true p].

(** The text of the group being captured, most recent character first. *)
Definition push (c : ascii) (open : option string) : option string :=
  match open with Some g => Some (String c g) | None => None end.

Fixpoint push_lit (l : string) (open : option string) : option string :=
  match l with
  | EmptyString => open
  | String c l' => push_lit l' (push c open)
  end.

Definition close (open : option string) : string :=
  match open with Some g => String.rev g | None => EmptyString end.

Definition or_else {A} (x : option A) (y : unit -> option A) : option A :=
  match x with Some _ => x | None => y tt end.

(** Backtracking matcher.  [run r s open caps] matches [r] at the start of
    [s]; on success it returns the captured groups, in order, and the
    unconsumed rest of [s] (so the matched text [m[0]] is [s] without that
    rest).  A greedy star first tries one more character and falls back to
    stopping; a lazy star first tries to stop. *)
Fixpoint run (r : regex) (s : string) (open : option string)
    (caps : list string) : option (list string * string) :=
  match r with
  | [] => Some (rev caps, s)
  | a :: r' =>
      match a with
      | Lit l =>
          match Js.strip_prefix l s with
          | Some s' => run r' s' (push_lit l open) caps
          | None => None
          end
      | Cls p =>
          match s with
          | String c s' => if p c then run r' s' (push c open) caps else None
          | EmptyString => None
          end
      | Star greedy p =>
          (fix star (s : string) (open : option string) {struct s} :=
             match s with
             | String c s' =>
                 if p c then
                   if greedy
                   then or_else (star s' (push c open))
                                (fun _ => run r' s open caps)
                   else or_else (run r' s open caps)
                                (fun _ => star s' (push c open))
                 else run r' s open caps
             | EmptyString => run r' s open caps
             end) s open
      | Opt p =>
          match s with
          | String c s' =>
              if p c
              then or_else (run r' s' (push c open) caps)
                           (fun _ => run r' s open caps)
              else run r' s open caps
          | EmptyString => run r' s open caps
          end
      | Open => run r' s (Some EmptyString) caps
      | Close => run r' s None (close open :: caps)
      | Eos =>
          match s with
          | EmptyString => run r' s open caps
          | String _ _ => None
          end
      end
  end.

(** [s.match(r)]: the groups and the rest after the matched text. *)
Definition exec (r : regex) (s : string) : option (list string * string) :=
  run r s None [].

(** [r.test(s)] *)
Definition test (r : regex) (s : string) : bool :=
  match exec r s with Some _ => true | None => false end.

(** [m[i]] for [i >= 1]; a group that did not take part is the empty
    string, as after the [??] default of the callers. *)
Definition group (i : nat) (m : list string * string) : string :=
  nth i (EmptyString :: fst m) EmptyString.

(** Character classes. *)
Definition any (_ : ascii) : bool := true.                (* [\s\S] *)
Definition dot (c : ascii) : bool :=                      (* . *)
  negb (Ascii.eqb c Js.LF || Ascii.eqb c Js.CR).
Definition word_dash (c : ascii) : bool :=                (* [A-Za-z0-9_\-] *)
  let n := Js.code c in
  (((65 <=? n) && (n <=? 90)) || ((97 <=? n) && (n <=? 122))
   || ((48 <=? n) && (n <=? 57)) || (n =? 95) || (n =? 45))%N.
Definition not_colon_eol (c : ascii) : bool :=            (* [^:\r\n] *)
  negb (Ascii.eqb c ":"%char || Ascii.eqb c Js.CR || Ascii.eqb c Js.LF).

(** Declarative reading of a regexp: [lang r s rest] when [s] is a text of
    [r] followed by [rest]. *)
Fixpoint lang (r : regex) (s rest : string) : Prop :=
  match r with
  | [] => s = rest
  | Lit l :: r' => exists s', s = (l +:+ s') /\ lang r' s' rest
  | Cls p :: r' => exists c s', s = String c s' /\ p c = true /\ lang r' s' rest
  | Star _ p :: r' =>
      exists w s', s = (w +:+ s') /\ Js.all_chars p w = true /\ lang r' s' rest
  | Opt p :: r' =>
      lang r' s rest \/
      exists c s', s = String c s' /\ p c = true /\ lang r' s' rest
  | Open :: r' => lang r' s rest
  | Close :: r' => lang r' s rest
  | Eos :: r' => s = EmptyString /\ lang r' s rest
  end.

End Regex.

(* ================================================================== *)
(** ** Arrays and objects *)
(* ================================================================== *)

(** A stable sort: [x] is put in front of the first element it does not
    come after, so elements that compare equal keep their order.  For a
    consistent comparator this is the result ECMAScript prescribes for
    [Array.prototype.sort], whatever the algorithm. *)
Fixpoint insert_by {A} (le : A -> A -> bool) (x : A) (l : list A) : list A :=
  match l with
  | [] => [x]
  | y :: l' => if le x y then x :: l else y :: insert_by le x l'
  end.

Definition sort_by {A} (le : A -> A -> bool) (l : list A) : list A :=
  foldr (insert_by le) [] l.

(** [Array.from(new Set(l))]: first occurrences, in order. *)
Fixpoint dedup_first (seen : list string) (l : list string) : list string :=
  match l with
  | [] => []
  | x :: l' =>
      if existsb (String.eqb x) seen then dedup_first seen l'
      else x :: dedup_first (x :: seen) l'
  end.

Module Obj.

(** A [Record<string, string[]>] object.  [own] holds the own properties
    in creation order.  [proto] holds the array that an assignment to the
    key [__proto__] installed as prototype, if any: such an assignment
    creates no own property, and reading [__proto__] then returns that
    array. *)
Record t : Type := mk { own : list (string * list string);
                        proto : option (list string) }.

Definition empty : t := mk [] None.

Fixpoint assoc_set (k : string) (v : list string)
    (l : list (string * list string)) : list (string * list string) :=
  match l with
  | [] => [(k, v)]
  | (k', v') :: l' =>
      if String.eqb k' k then (k', v) :: l' else (k', v') :: assoc_set k v l'
  end.

Fixpoint assoc_get (k : string) (l : list (string * list string))
    : option (list string) :=
  match l with
  | [] => None
  | (k', v') :: l' => if String.eqb k' k then Some v' else assoc_get k l'
  end.

(** Defining an own data property, as [Object.fromEntries] does. *)
Definition define (k : string) (v : list string) (o : t) : t :=
  mk (assoc_set k v (own o)) (proto o).

(** The assignment [o[k] = v]. *)
Definition set (k : string) (v : list string) (o : t) : t :=
  match assoc_get k (own o) with
  | Some _ => define k v o
  | None => if String.eqb k "__proto__" then mk (own o) (Some v)
            else define k v o
  end.

(** [o[k]] when that value is an array, [None] when it is [undefined] or
    anything else (every other property found along the prototype chain is
    a function, a number, a string or a plain object, which the callers
    discard with [Array.isArray]). *)
Definition get (k : string) (o : t) : option (list string) :=
  match assoc_get k (own o) with
  | Some v => Some v
  | None => if String.eqb k "__proto__" then proto o else None
  end.

(** Decimal value of a string of digits. *)
Fixpoint digits (acc : N) (s : string) : option N :=
  match s with
  | EmptyString => Some acc
  | String c s' =>
      let n := Js.code c in
      if ((48 <=? n) && (n <=? 57))%N then digits (acc * 10 + (n - 48))%N s'
      else None
  end.

(** An array index: a canonical numeric string below 2^32 - 1. *)
Definition array_index (k : string) : option N :=
  match k with
  | EmptyString => None
  | String c s' =>
      if (Js.code c =? 48)%N && Js.truthy s' then None
      else match digits 0 k with
           | Some n => if (n <? 4294967295)%N then Some n else None
           | None => None
           end
  end.

Definition index_le (a b : string * list string) : bool :=
  match array_index (fst a), array_index (fst b) with
  | Some m, Some n => (m <=? n)%N
  | _, _ => true
  end.

(** [Object.entries(o)]: array indices in ascending order, then the other
    keys in creation order. *)
Definition entries (o : t) : list (string * list string) :=
  sort_by index_le (filter (fun e => is_Some (array_index (fst e))) (own o))
  ++ filter (fun e => ~ is_Some (array_index (fst e))) (own o).

(** [Object.keys(o).length] *)
Definition size (o : t) : nat := length (own o).

(** [Object.fromEntries(l)]: a later entry overwrites an earlier one with
    the same key. *)
Definition fromEntries (l : list (string * list string)) : t :=
  foldl (fun o e => define (fst e) (snd e) o) empty l.

End Obj.

(* ================================================================== *)
(** ** Frontmatter splitter and YAML subset parser ([index.ts]) *)
(* ================================================================== *)

Definition NL : string := String Js.LF EmptyString.
Definition is_LF (c : ascii) : bool := Ascii.eqb c Js.LF.

(** The pattern of [extractFrontmatter]: [^], three dashes, [\s*], LF, a
    group of a lazy run of any characters, LF, three dashes, [\s*] and an
    optional LF. *)
Definition frontmatter_re : Regex.regex :=
  [Regex.Lit "---"; Regex.Star true Js.is_space; Regex.Lit NL;
   Regex.Open; Regex.Star false Regex.any; Regex.Close;
   Regex.Lit (NL +:+ "---"); Regex.Star true Js.is_space; Regex.Opt is_LF].

Definition extractFrontmatter (markdown : string) : option string * string :=
  if negb (Js.startsWith markdown "---") then (None, markdown)
  else match Regex.exec frontmatter_re markdown with
       | None => (None, markdown)
       | Some m => (Some (Regex.group 1 m), snd m)
       end.

(** [replace] of a leading open bracket and of a final close bracket by
    nothing (the patterns are anchored with [^] and with [$]). *)
Definition strip_open_bracket (s : string) : string :=
  match s with
  | String c s' => if Ascii.eqb c "["%char then s' else s
  | EmptyString => s
  end.
Fixpoint strip_close_bracket (s : string) : string :=
  match s with
  | EmptyString => EmptyString
  | String c s' =>
      match s' with
      | EmptyString => if Ascii.eqb c "]"%char then EmptyString else s
      | String _ _ => String c (strip_close_bracket s')
      end
  end.

Definition parseInlineArray (value : string) : list string :=
  let inner := strip_close_bracket (strip_open_bracket (Js.trim value)) in
  if negb (Js.truthy (Js.trim inner)) then []
  else filter (fun s => Js.truthy s) (map Js.trim (Js.split ","%char inner)).

(** The regexp built in [parseBlockArray]: [^], [indentSpaces] spaces, a
    dash, [\s*], a group [.*] and [$]. *)
Definition block_item_re (indentSpaces : nat) : Regex.regex :=
  [Regex.Lit (Js.spaces indentSpaces +:+ "-"); Regex.Star true Js.is_space;
   Regex.Open; Regex.Star true Regex.dot; Regex.Close; Regex.Eos].

(** The [for] loop of [parseBlockArray], over [lines[i..]]: returns the
    items and the index at which it stopped. *)
Fixpoint parseBlockArray_loop (re : Regex.regex) (rest : list string)
    (i : nat) (items : list string) : list string * nat :=
  match rest with
  | [] => (items, i)
  | line :: rest' =>
      match Regex.exec re line with
      | None => (items, i)
      | Some m =>
          let item := Js.trim (Regex.group 1 m) in
          parseBlockArray_loop re rest' (S i)
            (if Js.truthy item then items ++ [item] else items)
      end
  end.

(** Returns [(items, end)] with [end = i - 1].  Both callers pass a
    [startIndex] of at least 1, so the subtraction stays in range. *)
Definition parseBlockArray (lines : list string) (startIndex indentSpaces : nat)
    : list string * nat :=
  let '(items, i) :=
    parseBlockArray_loop (block_item_re indentSpaces)
                         (drop startIndex lines) startIndex [] in
  (items, (i - 1)%nat).

Inductive Visibility : Type :=
| VUndefined
| VString (s : string)
| VArray (l : list string).

Record ParsedSubset : Type := mkSubset {
  ps_visibility : Visibility;
  ps_visibility_emails : option Obj.t }.

Definition subset_empty : ParsedSubset := mkSubset VUndefined None.
Definition set_visibility (v : Visibility) (r : ParsedSubset) : ParsedSubset :=
  mkSubset v (ps_visibility_emails r).
Definition set_visibility_emails (m : Obj.t) (r : ParsedSubset) : ParsedSubset :=
  mkSubset (ps_visibility r) (Some m).

(** The top-level key pattern of [parseYamlSubset]: [^], a group of one or
    more of [A-Za-z0-9_-], [\s*], a colon, [\s*], a group of any number of
    [.] and [$]. *)
Definition top_key_re : Regex.regex :=
  [Regex.Open] ++ Regex.Plus Regex.word_dash ++
  [Regex.Close; Regex.Star true Js.is_space; Regex.Lit ":";
   Regex.Star true Js.is_space;
   Regex.Open; Regex.Star true Regex.dot; Regex.Close; Regex.Eos].

(** The pattern that stops the nested scan: [^], one or more of
    [A-Za-z0-9_-], [\s*] and a colon. *)
Definition new_key_re : Regex.regex :=
  Regex.Plus Regex.word_dash ++ [Regex.Star true Js.is_space; Regex.Lit ":"].

(** The nested mapping pattern: [^], two [\s], a group of one or more
    characters other than colon, CR and LF, [\s*], a colon, [\s*], a group
    of any number of [.] and [$]. *)
Definition sub_key_re : Regex.regex :=
  [Regex.Cls Js.is_space; Regex.Cls Js.is_space; Regex.Open] ++
  Regex.Plus Regex.not_colon_eol ++
  [Regex.Close; Regex.Star true Js.is_space; Regex.Lit ":";
   Regex.Star true Js.is_space;
   Regex.Open; Regex.Star true Regex.dot; Regex.Close; Regex.Eos].

(** The inner [for (let j = i + 1; ...)] loop of the [visibility_emails]
    branch, from the test [j < lines.length] on.  It carries the outer index
    [i], which the body assigns, and the map; every round moves [j] forward,
    so [length lines] rounds of fuel are never used up. *)
Fixpoint emails_loop (fuel : nat) (lines : list string) (j i : nat)
    (map : Obj.t) : nat * Obj.t :=
  match fuel with
  | O => (i, map)
  | S fuel' =>
      match lines !! j with
      | None => (i, map)
      | Some sub =>
          if Regex.test new_key_re sub || Js.startsWith sub "---"
          then ((j - 1)%nat, map)
          else
            match Regex.exec sub_key_re sub with
            | None => emails_loop fuel' lines (S j) i map
            | Some mm =>
                let term := Js.trim (Regex.group 1 mm) in
                let after := Js.trim (Regex.group 2 mm) in
                if negb (Js.truthy term)
                then emails_loop fuel' lines (S j) i map
                else if Js.startsWith after "["
                then emails_loop fuel' lines (S j) j
                       (Obj.set term (parseInlineArray after) map)
                else if negb (Js.truthy after)
                then
                  let '(items, end_) := parseBlockArray lines (S j) 4 in
                  emails_loop fuel' lines (S end_) end_
                    (Obj.set term items map)
                else emails_loop fuel' lines (S j) j
                       (Obj.set term [after] map)
            end
      end
  end.

(** The outer [for (let i = 0; ...)] loop, from the test [i < lines.length]
    on. *)
Fixpoint yaml_loop (fuel : nat) (lines : list string) (i : nat)
    (result : ParsedSubset) : ParsedSubset :=
  match fuel with
  | O => result
  | S fuel' =>
      match lines !! i with
      | None => result
      | Some line =>
          if negb (Js.truthy (Js.trim line)) || Js.startsWith (Js.trim line) "#"
          then yaml_loop fuel' lines (S i) result
          else
            match Regex.exec top_key_re line with
            | None => yaml_loop fuel' lines (S i) result
            | Some top =>
                let key := Regex.group 1 top in
                let rest := Regex.group 2 top in
                if String.eqb key "visibility" then
                  if negb (Js.truthy rest) then
                    let '(items, end_) := parseBlockArray lines (S i) 2 in
                    yaml_loop fuel' lines (S end_)
                      (match items with
                       | [] => result
                       | _ => set_visibility (VArray items) result
                       end)
                  else if Js.startsWith (Js.trim rest) "[" then
                    yaml_loop fuel' lines (S i)
                      (set_visibility (VArray (parseInlineArray rest)) result)
                  else
                    let value := Js.trim rest in
                    yaml_loop fuel' lines (S i)
                      (if Js.truthy value
                       then set_visibility (VString value) result
                       else result)
                else if String.eqb key "visibility_emails" then
                  let '(i', map) :=
                    emails_loop (length lines) lines (S i) i Obj.empty in
                  yaml_loop fuel' lines (S i')
                    (match Obj.size map with
                     | O => result
                     | _ => set_visibility_emails map result
                     end)
                else yaml_loop fuel' lines (S i) result
            end
      end
  end.

Definition parseYamlSubset (yaml : option string) : ParsedSubset :=
  match yaml with
  | None => subset_empty
  | Some y =>
      if negb (Js.truthy y) then subset_empty
      else let lines := Js.split_lines y in
           yaml_loop (length lines) lines 0 subset_empty
  end.

(* ================================================================== *)
(** ** Note records and the visibility resolver ([index.ts]) *)
(* ================================================================== *)

Record Metadata : Type := mkMetadata {
  visibility : Visibility;
  visibility_emails : option Obj.t }.

Record DiaryxNote : Type := mkNote {
  id : string;
  body : string;
  metadata : Metadata;
  frontmatter : option string;
  sourceName : option string;
  autoUpdateTimestamp : bool;
  lastModified : Z }.

(** [parseDiaryxString(fileContents, {id, sourceName})]; [dateNow] is the
    value of [Date.now()] and [fresh] the value of [randomId()]. *)
Definition parseDiaryxString (dateNow : Z) (fresh : string)
    (fileContents : string) (opt_id opt_sourceName : option string)
    : DiaryxNote :=
  let '(yaml, body) := extractFrontmatter fileContents in
  let subset := parseYamlSubset yaml in
  {| id := default fresh opt_id;
     body := Js.trimStart body;
     metadata := mkMetadata (ps_visibility subset) (ps_visibility_emails subset);
     frontmatter :=
       match yaml with
       | Some y => if Js.truthy (Js.trim y) then Some y else None
       | None => None
       end;
     sourceName := opt_sourceName;
     autoUpdateTimestamp := false;
     lastModified := dateNow |}.

Definition toVisibilityArray (value : Visibility) : list string :=
  match value with
  | VArray l => filter (fun s => Js.truthy s) (map Js.trim l)
  | VString s => let normalized := Js.trim s in
                 if Js.truthy normalized then [normalized] else []
  | VUndefined => []
  end.

(** [list.some((entry) => entry.toLowerCase() === lowerEmail)] *)
Definition lists_email (l : list string) (lowerEmail : string) : bool :=
  existsb (fun entry => String.eqb (Js.toLowerCase entry) lowerEmail) l.

Definition hasSharedAccess (note : DiaryxNote) (email : string) : bool :=
  let terms := toVisibilityArray (visibility (metadata note)) in
  match terms with
  | [] => false
  | _ =>
      let map := default Obj.empty (visibility_emails (metadata note)) in
      let lowerEmail := Js.toLowerCase (Js.trim email) in
      let normalizedMap :=
        foldl (fun nm kv =>
                 Obj.set (Js.toLowerCase (Js.trim (fst kv))) (snd kv) nm)
              Obj.empty (Obj.entries map) in
      existsb
        (fun term =>
           let t := Js.trim term in
           if negb (Js.truthy t) then false
           else
             match Obj.get t map with
             | Some direct => lists_email direct lowerEmail
             | None => false
             end
             ||
             match Obj.get (Js.toLowerCase t) normalizedMap with
             | Some byCase => lists_email byCase lowerEmail
             | None => false
             end)
        terms
  end.

(* ================================================================== *)
(** ** The store (the helpers imported from [./note-storage]) *)
(* ================================================================== *)

(** Rows of [diaryx_note] and [diaryx_visibility_term], without the columns
    of their primary keys [(user_id, id)] and [(user_id, term)]. *)
Record NoteRow : Type := mkNoteRow {
  markdown : string;
  source_name : option string;
  last_modified : Z;
  created_at : Z;
  updated_at : Z }.

Record TermRow : Type := mkTermRow {
  emails : list string;
  term_updated_at : Z }.

(** The statements sent with [pool.query]. *)
Inductive Sql : Type :=
| CreateNoteTable
| CreateNoteIndex
| CreateTermTable
| SelectNotes (user_id : string)
| SelectTerms (user_id : string)
| UpsertNote (user_id note_id md : string) (src : option string) (lm : Z)
| DeleteNotesOf (user_id : string)
| DeleteTermsOf (user_id : string)
| DeleteNote (user_id note_id : string)
| InsertTerm (user_id term : string) (emails : list string)
| SelectShared (email : string).

(** The database, the [ensuredPools] flag of the one pool, and the log of
    the statements issued so far. *)
Record World : Type := mkWorld {
  diaryx_note : gmap (string * string) NoteRow;
  diaryx_visibility_term : gmap (string * string) TermRow;
  ensured : bool;
  issued : list Sql }.

Definition M (A : Type) : Type := World -> A * World.

Definition ret {A} (a : A) : M A := fun w => (a, w).
Definition bind {A B} (m : M A) (f : A -> M B) : M B :=
  fun w => let '(a, w') := m w in f a w'.

Notation "'let*' x ':=' m 'in' k" := (bind m (fun x => k))
  (at level 10, x name, m at level 100, k at level 200).
Notation "m '>>' k" := (bind m (fun _ => k))
  (at level 100, k at level 200, right associativity).

(** [await Promise.all(l.map(f))] over [pool.query]: the statements are
    issued in the order of the list, and the model lets them take effect in
    that order.  Statements on different primary keys commute; the theorems
    below rely on nothing more.  Every statement is sent, whatever becomes
    of the others.  The result of a promise of the store is [true] when it
    is fulfilled and [false] when it is rejected, in which case the [await]
    of the caller throws; the promise of [Promise.all] is fulfilled when
    all of them are. *)
Fixpoint for_each {A} (f : A -> M bool) (l : list A) : M bool :=
  match l with
  | [] => ret true
  | x :: l' =>
      let* ok := f x in
      let* oks := for_each f l' in
      ret (ok && oks)
  end.

(** Rows as the SELECT statements return them. *)
Record DbNote : Type := mkDbNote {
  n_id : string;
  n_markdown : string;
  n_source_name : option string;
  n_last_modified : Z }.

(** [last_modified] of a shared row is read through [Number(.. ?? Date.now())]
    and [Number.isFinite]; [None] stands for a value that is missing or not
    finite. *)
Record DbSharedNote : Type := mkDbSharedNote {
  s_user_id : string;
  s_id : string;
  s_markdown : string;
  s_source_name : option string;
  s_last_modified : option Z }.

(** A JavaScript number: an integer, or NaN and the infinities. *)
Inductive jsnum : Type :=
| Finite (z : Z)
| NonFinite.

Record SyncInputNote : Type := mkSyncInputNote {
  in_id : string;
  in_markdown : string;
  in_sourceName : option string;      (* [None]: null or undefined *)
  in_lastModified : option jsnum }.   (* [None]: undefined *)

Section Storage.

(** The value of [NOW()] in Postgres and of [Date.now()] in the handler
    during one call. *)
Variable sqlNow : Z.
Variable dateNow : Z.
(** [text ILIKE pattern] of Postgres. *)
Variable ilike : string -> string -> bool.
(** The order of Postgres on [term], for ORDER BY term ASC. *)
Variable term_le : string -> string -> bool.

(** The values of a BIGINT column. *)
Definition bigint_ok (z : Z) : bool := (- 2 ^ 63 <=? z) && (z <? 2 ^ 63).

(** Whether the store accepts a statement.  The model knows one reason for
    the store to refuse: the [last_modified] of an upsert does not fit its
    column. *)
Definition accepted (q : Sql) : bool :=
  match q with
  | UpsertNote _ _ _ _ lm => bigint_ok lm
  | _ => true
  end.

(** What a statement does to the two tables; a statement that is not
    accepted does nothing. *)
Definition sql_notes (q : Sql) (t : gmap (string * string) NoteRow)
    : gmap (string * string) NoteRow :=
  match q with
  | UpsertNote u i md src lm =>
      if negb (bigint_ok lm) then t
      else
      match t !! (u, i) with
      | None => <[(u, i) := mkNoteRow md src lm sqlNow sqlNow]> t
      | Some old =>
          if lm >=? last_modified old
          then <[(u, i) := mkNoteRow md src lm (created_at old) sqlNow]> t
          else t
      end
  | DeleteNotesOf u => filter (fun kv => fst (fst kv) <> u) t
  | DeleteNote u i => delete (u, i) t
  | _ => t
  end.

Definition sql_terms (q : Sql) (t : gmap (string * string) TermRow)
    : gmap (string * string) TermRow :=
  match q with
  | DeleteTermsOf u => filter (fun kv => fst (fst kv) <> u) t
  | InsertTerm u term es => <[(u, term) := mkTermRow es sqlNow]> t
  | _ => t
  end.

(** [pool.query(q)] for a statement whose rows are not read: fulfilled when
    the store accepts the statement. *)
Definition query (q : Sql) : M bool :=
  fun w => (accepted q,
            mkWorld (sql_notes q (diaryx_note w))
                    (sql_terms q (diaryx_visibility_term w))
                    (ensured w) (issued w ++ [q])).

(** The statements of [ensureNotesTable], in the order they are issued. *)
Definition ddl : list Sql := [CreateNoteTable; CreateNoteIndex; CreateTermTable].

(** [ensuredPools] is tested first and set after the three statements have
    been awaited. *)
Definition ensureNotesTable : M unit :=
  fun w =>
    if ensured w then (tt, w)
    else
      let '(_, w') :=
        (query CreateNoteTable >> query CreateNoteIndex >>
         query CreateTermTable) w in
      (tt, mkWorld (diaryx_note w') (diaryx_visibility_term w') true
                   (issued w')).

(** [pool.query(q)] for a SELECT, whose rows [read] computes from the
    tables. *)
Definition query_rows {A} (q : Sql) (read : World -> A) : M A :=
  fun w => (read w, mkWorld (diaryx_note w) (diaryx_visibility_term w)
                            (ensured w) (issued w ++ [q])).

(** ORDER BY last_modified DESC, updated_at DESC.  Rows that tie come out
    in the order of [map_to_list], one of the orders Postgres may choose. *)
Definition recent_first (a b : (string * string) * NoteRow) : bool :=
  (last_modified (snd b) <? last_modified (snd a))
  || ((last_modified (snd b) =? last_modified (snd a))
      && (updated_at (snd b) <=? updated_at (snd a))).

Definition select_notes (userId : string)
    (t : gmap (string * string) NoteRow) : list DbNote :=
  map (fun kv => mkDbNote (snd (fst kv)) (markdown (snd kv))
                          (source_name (snd kv)) (last_modified (snd kv)))
      (sort_by recent_first
         (filter (fun kv => fst (fst kv) = userId) (map_to_list t))).

Definition listNotesForUser (userId : string) : M (list DbNote) :=
  ensureNotesTable >>
  query_rows (SelectNotes userId)
             (fun w => select_notes userId (diaryx_note w)).

Definition select_terms (userId : string)
    (t : gmap (string * string) TermRow) : list (string * list string) :=
  map (fun kv => (snd (fst kv), emails (snd kv)))
      (sort_by (fun a b => term_le (snd (fst a)) (snd (fst b)))
         (filter (fun kv => fst (fst kv) = userId) (map_to_list t))).

Definition listVisibilityTermsForUser (userId : string)
    : M (list (string * list string)) :=
  ensureNotesTable >>
  query_rows (SelectTerms userId)
             (fun w => select_terms userId (diaryx_visibility_term w)).

(** One way for the statements of two helpers that run concurrently to
    follow each other: [true] lets the first helper go on, [false] the
    second. *)
Fixpoint interleave (sched : list bool) (one two : list Sql) : list Sql :=
  match sched with
  | [] => one ++ two
  | b :: sched' =>
      match one, two with
      | [], _ => two
      | _, [] => one
      | x :: one', y :: two' =>
          if b then x :: interleave sched' one' two
          else y :: interleave sched' one two'
      end
  end.

(** Two helpers started one after the other before either is awaited: their
    first statements are sent in the order in which they are started. *)
Definition started_together (sched : list bool) (one two : list Sql)
    : list Sql :=
  match one, two with
  | x :: one', y :: two' => x :: y :: interleave sched one' two'
  | _, _ => one ++ two
  end.

(** What a list helper sends, given the flag it finds when it is started:
    the statements of [ensureNotesTable] unless the pool is ensured, then
    its SELECT. *)
Definition list_statements (flag : bool) (select : Sql) : list Sql :=
  (if flag then [] else ddl) ++ [select].

(** [await Promise.all([listNotesForUser(userId),
    listVisibilityTermsForUser(userId)])].  Both helpers test [ensuredPools]
    before either has set it, so on a pool that is not ensured both send the
    statements of [ensureNotesTable]; [sched] is the order in which the
    runtime lets their statements follow each other.  None of these
    statements changes a table, so the rows do not depend on [sched]. *)
Definition list_both (sched : list bool) (userId : string)
    : M (list DbNote * list (string * list string)) :=
  fun w =>
    ((select_notes userId (diaryx_note w),
      select_terms userId (diaryx_visibility_term w)),
     mkWorld (diaryx_note w) (diaryx_visibility_term w) true
             (issued w ++
              started_together sched
                (list_statements (ensured w) (SelectNotes userId))
                (list_statements (ensured w) (SelectTerms userId)))).

Definition upsertNotesForUser (userId : string)
    (notes : option (list SyncInputNote)) : M bool :=
  match notes with
  | None | Some [] => ret true
  | Some notes =>
      ensureNotesTable >>
      for_each
        (fun note =>
           let lastModified :=
             match in_lastModified note with
             | Some (Finite z) => z
             | _ => dateNow
             end in
           query (UpsertNote userId (in_id note) (in_markdown note)
                             (in_sourceName note) lastModified))
        notes
  end.

Definition deleteAllNotesForUser (userId : string) : M bool :=
  ensureNotesTable >>
  let* ok := query (DeleteNotesOf userId) in
  if negb ok then ret false
  else query (DeleteTermsOf userId).

Definition deleteNoteForUser (userId noteId : string) : M bool :=
  ensureNotesTable >>
  query (DeleteNote userId noteId).

Definition normalize_emails (emails : list string) : list string :=
  dedup_first []
    (filter (fun s => Js.truthy s)
            (map (fun email => Js.toLowerCase (Js.trim email)) emails)).

Definition updateVisibilityTermsForUser (userId : string) (terms : Obj.t)
    : M bool :=
  ensureNotesTable >>
  let termEntries :=
    map (fun e => (fst e, normalize_emails (snd e))) (Obj.entries terms) in
  let* ok := query (DeleteTermsOf userId) in
  if negb ok then ret false
  else
    match termEntries with
    | [] => ret true
    | _ =>
        for_each (fun e => query (InsertTerm userId (fst e) (snd e)))
                 termEntries
    end.

(** ORDER BY updated_at DESC *)
Definition later_first (a b : (string * string) * NoteRow) : bool :=
  updated_at (snd b) <=? updated_at (snd a).

Definition select_shared (email : string)
    (t : gmap (string * string) NoteRow) : list DbSharedNote :=
  map (fun kv => mkDbSharedNote (fst (fst kv)) (snd (fst kv))
                   (markdown (snd kv)) (source_name (snd kv))
                   (Some (last_modified (snd kv))))
      (sort_by later_first
         (filter (fun kv => ilike (markdown (snd kv))
                                  ("%" +:+ email +:+ "%") = true)
                 (map_to_list t))).

Definition listNotesSharedWithEmail (email : string)
    : M (list DbSharedNote) :=
  ensureNotesTable >>
  query_rows (SelectShared email)
             (fun w => select_shared email (diaryx_note w)).

End Storage.

(* ================================================================== *)
(** ** The handlers ([index.ts]) *)
(* ================================================================== *)

(** A value produced by [request.json()]. *)
Inductive json : Type :=
| JNull
| JBool (b : bool)
| JNum (n : jsnum)
| JStr (s : string)
| JArr (l : list json)
| JObj (fields : list (string * json)).

(** [v.k] (or [v?.k]) for the property names the handlers read, none of
    which exists on a prototype: the own property of an object, [None]
    (undefined) for every other value. *)
Definition prop (k : string) (v : json) : option json :=
  match v with
  | JObj fields => snd <$> find (fun kv => String.eqb (fst kv) k) fields
  | _ => None
  end.

Definition is_string (v : option json) : bool :=
  match v with Some (JStr _) => true | _ => false end.

Definition as_string (v : option json) : string :=
  match v with Some (JStr s) => s | _ => EmptyString end.

(** [Array.isArray(v) ? v : []] *)
Definition as_array (v : option json) : list json :=
  match v with Some (JArr l) => l | _ => [] end.

Record SessionUser : Type := mkUser {
  u_id : string;
  u_email : option string }.

Inductive Response : Type :=
| Unauthorized                       (* 401 UNAUTHORIZED *)
| BadRequest (error : string)        (* 400 *)
| ServerError                        (* 500 *)
| NotesOk (notes : list DbNote) (visibilityTerms : list (string * list string))
| DeletedOk
| SharedOk (notes : list DiaryxNote).

Section Handlers.

Variable sqlNow : Z.
Variable dateNow : Z.
Variable ilike : string -> string -> bool.
Variable term_le : string -> string -> bool.
(** The order in which the statements of helpers started together follow
    each other. *)
Variable sched : list bool.
(** [Number(v)] for a JSON value that is neither a number nor null;
    [None] when the conversion throws. *)
Variable ToNumber : json -> option jsnum.
(** [a.localeCompare(b)] *)
Variable localeCompare : string -> string -> Z.
(** The result of [randomId()]. *)
Variable fresh : string.

(** The [.map] callback over the notes that passed the filter. *)
Definition to_input_note (note : json) : option SyncInputNote :=
  let lastModified :=
    match prop "lastModified" note with
    | Some (JNum n) => Some n
    | Some JNull | None => Some (Finite dateNow)
    | Some other => ToNumber other
    end in
  match lastModified with
  | Some n =>
      Some (mkSyncInputNote
              (as_string (prop "id" note))
              (as_string (prop "markdown" note))
              (match prop "sourceName" note with
               | Some (JStr s) => Some s
               | _ => None
               end)
              (Some n))
  | None => None
  end.

(** [validNotes]; [None] when a callback throws. *)
Definition validNotes (payload : json) : option (list SyncInputNote) :=
  mapM to_input_note
    (filter (fun note => is_string (prop "id" note)
                         && is_string (prop "markdown" note) = true)
            (as_array (prop "notes" payload))).

Definition to_term (item : json) : string * list string :=
  (Js.trim (as_string (prop "term" item)),
   match prop "emails" item with
   | Some (JArr es) =>
       filter (fun email => Js.includes_char email "@"%char = true)
         (map (fun email =>
                 match email with
                 | JStr s => Js.toLowerCase (Js.trim s)
                 | _ => EmptyString
                 end) es)
   | _ => []
   end).

Definition validTerms (payload : json) : list (string * list string) :=
  filter (fun item => Js.truthy (fst item) = true)
    (map to_term
       (filter (fun item => is_string (prop "term" item) = true)
               (as_array (prop "visibilityTerms" payload)))).

Definition notes_response (userId : string) : M Response :=
  let* lists := list_both term_le sched userId in
  ret (NotesOk (fst lists) (snd lists)).

(** GET /api/notes *)
Definition get_notes (user : option SessionUser) : M Response :=
  match user with
  | None => ret Unauthorized
  | Some user => notes_response (u_id user)
  end.

(** POST /api/notes; [payload] is [None] when [request.json()] throws.  A
    helper whose promise is rejected throws into the handler's [catch]. *)
Definition post_notes (user : option SessionUser) (payload : option json)
    : M Response :=
  match user with
  | None => ret Unauthorized
  | Some user =>
      match payload with
      | None => ret (BadRequest "INVALID_JSON")
      | Some payload =>
          match validNotes payload with
          | None => ret ServerError
          | Some notes =>
              let* stored :=
                match notes with
                | [] => ret true
                | _ =>
                    upsertNotesForUser sqlNow dateNow (u_id user) (Some notes)
                end in
              if negb stored then ret ServerError
              else
                let* replaced :=
                  match validTerms payload with
                  | [] => ret true
                  | terms =>
                      updateVisibilityTermsForUser sqlNow (u_id user)
                        (Obj.fromEntries terms)
                  end in
                if negb replaced then ret ServerError
                else notes_response (u_id user)
          end
      end
  end.

(** DELETE /api/notes/:id *)
Definition delete_note (user : option SessionUser) (noteId : string)
    : M Response :=
  match user with
  | None => ret Unauthorized
  | Some user =>
      if negb (Js.truthy noteId) then ret (BadRequest "MISSING_NOTE_ID")
      else
        let* deleted := deleteNoteForUser sqlNow (u_id user) noteId in
        if negb deleted then ret ServerError else ret DeletedOk
  end.

(** The note built from one candidate row. *)
Definition note_of_row (row : DbSharedNote) : DiaryxNote :=
  let note :=
    parseDiaryxString dateNow fresh (s_markdown row) (Some (s_id row))
                      (s_source_name row) in
  mkNote (id note) (body note) (metadata note) (frontmatter note)
         (s_source_name row) (autoUpdateTimestamp note)
         (default dateNow (s_last_modified row)).

(** The [for (const row of rows)] loop, with its two accumulators. *)
Fixpoint shared_loop (rows : list DbSharedNote) (userEmail : string)
    (seen : gset string) (notes : list DiaryxNote) : list DiaryxNote :=
  match rows with
  | [] => notes
  | row :: rows' =>
      let note := note_of_row row in
      if negb (hasSharedAccess note userEmail)
      then shared_loop rows' userEmail seen notes
      else if decide (id note ∈ seen)
      then shared_loop rows' userEmail seen notes
      else shared_loop rows' userEmail ({[id note]} ∪ seen) (notes ++ [note])
  end.

(** The comparator passed to [notes.sort]. *)
Definition compare_notes (a b : DiaryxNote) : Z :=
  let diff := lastModified b - lastModified a in
  if negb (diff =? 0) then diff else localeCompare (id a) (id b).

Definition shared_notes (rows : list DbSharedNote) (userEmail : string)
    : list DiaryxNote :=
  sort_by (fun a b => compare_notes a b <=? 0)
          (shared_loop rows userEmail ∅ []).

(** GET /api/shared-notes *)
Definition get_shared_notes (user : option SessionUser) : M Response :=
  match user with
  | None => ret Unauthorized
  | Some user =>
      let userEmail :=
        match u_email user with
        | Some e => Js.toLowerCase (Js.trim e)
        | None => EmptyString
        end in
      if negb (Js.truthy userEmail) then ret (BadRequest "EMAIL_REQUIRED")
      else
        let* rows := listNotesSharedWithEmail sqlNow ilike userEmail in
        ret (SharedOk (shared_notes rows userEmail))
  end.

End Handlers.

(** One request served by the application, with the values the runtime
    supplied while it ran. *)
Record Env : Type := mkEnv {
  e_sqlNow : Z;
  e_dateNow : Z;
  e_ilike : string -> string -> bool;
  e_term_le : string -> string -> bool;
  e_sched : list bool;
  e_ToNumber : json -> option jsnum;
  e_localeCompare : string -> string -> Z;
  e_fresh : string }.

Inductive Request : Type :=
| GetNotes (user : option SessionUser)
| PostNotes (user : option SessionUser) (payload : option json)
| DeleteNoteById (user : option SessionUser) (noteId : string)
| GetSharedNotes (user : option SessionUser).

Definition handle (env : Env) (req : Request) : M Response :=
  match req with
  | GetNotes user => get_notes (e_term_le env) (e_sched env) user
  | PostNotes user payload =>
      post_notes (e_sqlNow env) (e_dateNow env) (e_term_le env)
                 (e_sched env) (e_ToNumber env) user payload
  | DeleteNoteById user noteId => delete_note (e_sqlNow env) user noteId
  | GetSharedNotes user =>
      get_shared_notes (e_sqlNow env) (e_dateNow env) (e_ilike env)
                       (e_localeCompare env) (e_fresh env) user
  end.

(** A fresh database, before the first request. *)
Definition initial : World := mkWorld ∅ ∅ false [].

(** The states of the store that requests to the application can produce. *)
Inductive reachable : World -> Prop :=
| reach_initial : reachable initial
| reach_step (w : World) (env : Env) (req : Request) :
    reachable w -> reachable (snd (handle env req w)).

(* ================================================================== *)
(** ** Notions of the specification *)
(* ================================================================== *)

(** The shape the splitter accepts: delimiter, a run of whitespace, newline,
    metadata, newline, delimiter. *)
Definition delimited_shape (D : string) : Prop :=
  exists ws meta rest,
    Js.all_chars Js.is_space ws = true /\
    D = ("---" +:+ ws +:+ NL +:+ meta +:+ NL +:+ "---" +:+ rest).

(** The shape in the words of the specification: delimiter, newline,
    metadata, newline, delimiter. *)
Definition exact_shape (D : string) : Prop :=
  exists meta rest, D = ("---" +:+ NL +:+ meta +:+ NL +:+ "---" +:+ rest).

(** The statement [upsertNotesForUser] issues for one note. *)
Definition upsert_of (dateNow : Z) (userId : string) (note : SyncInputNote)
    : Sql :=
  UpsertNote userId (in_id note) (in_markdown note) (in_sourceName note)
    (match in_lastModified note with
     | Some (Finite z) => z
     | _ => dateNow
     end).

(** The timestamp [upsertNotesForUser] sends for a note. *)
Definition stamp (dateNow : Z) (note : SyncInputNote) : Z :=
  match in_lastModified note with
  | Some (Finite z) => z
  | _ => dateNow
  end.

(** The store accepts every statement of the batch. *)
Definition batch_accepted (dateNow : Z) (notes : list SyncInputNote) : bool :=
  forallb (fun note => bigint_ok (stamp dateNow note)) notes.

(** The emails submitted for [term]: those of its last entry. *)
Definition last_binding (term : string) (terms : list (string * list string))
    : option (list string) :=
  snd <$> last (filter (fun e => fst e = term) terms).

(** An email as the specification wants it stored. *)
Definition stored_email_ok (e : string) : Prop :=
  Js.trim e = e /\ Js.toLowerCase e = e /\
  Js.includes_char e "@"%char = true /\ e <> EmptyString.

(** Descending [lastModified], ties by ascending comparison of [id]. *)
Definition notes_order (localeCompare : string -> string -> Z)
    (a b : DiaryxNote) : Prop :=
  lastModified b < lastModified a \/
  (lastModified a = lastModified b /\ localeCompare (id a) (id b) <= 0).

(** The documents of the scenarios. *)
Definition scenario_A : string :=
  "---" +:+ NL +:+ "visibility: [friends]" +:+ NL +:+ "---" +:+ NL +:+ "Hello".

Definition scenario_A_listed : string :=
  "---" +:+ NL +:+ "visibility: [friends]" +:+ NL +:+
  "visibility_emails:" +:+ NL +:+ "  friends: [alice@x.com]" +:+ NL +:+
  "---" +:+ NL +:+ "Hello".

Definition scenario_B : string :=
  "---" +:+ NL +:+ "visibility:" +:+ NL +:+ "  - friends" +:+ NL +:+
  "visibility_emails:" +:+ NL +:+ "  friends:" +:+ NL +:+
  "    - alice@x.com" +:+ NL +:+ "---" +:+ NL +:+ "Body text".

(** A string that does not start with whitespace. *)
Definition starts_clean (s : string) : Prop :=
  match s with
  | String c _ => Js.is_space c = false
  | EmptyString => True
  end.

(** The notes the loop of the shared-notes handler adds to its accumulator,
    given the ids it has seen. *)
Fixpoint kept (dateNow : Z) (fresh userEmail : string)
    (rows : list DbSharedNote) (seen : gset string) : list DiaryxNote :=
  match rows with
  | [] => []
  | row :: rows' =>
      let note := note_of_row dateNow fresh row in
      if negb (hasSharedAccess note userEmail)
      then kept dateNow fresh userEmail rows' seen
      else if decide (id note ∈ seen)
      then kept dateNow fresh userEmail rows' seen
      else note :: kept dateNow fresh userEmail rows' ({[id note]} ∪ seen)
  end.

(** The term table after the INSERT statements of
    [updateVisibilityTermsForUser]. *)
Definition insert_terms (sqlNow : Z) (u : string)
    (l : list (string * list string))
    (t : gmap (string * string) TermRow) : gmap (string * string) TermRow :=
  foldl (fun t e => <[(u, fst e) := mkTermRow (snd e) sqlNow]> t) t l.

(** [termEntries] of [updateVisibilityTermsForUser]. *)
Definition term_entries (terms : Obj.t) : list (string * list string) :=
  map (fun e => (fst e, normalize_emails (snd e))) (Obj.entries terms).

(** Every stored list of emails is free of duplicates and holds only emails
    in stored form. *)
Definition terms_ok (t : gmap (string * string) TermRow) : Prop :=
  forall owner term row,
    t !! (owner, term) = Some row ->
    NoDup (emails row) /\ Forall stored_email_ok (emails row).

(** What the handler hands over for one term: lower-cased trimmed strings
    that hold an at sign. *)
Definition submitted_ok (e : string) : Prop :=
  (exists s, e = Js.toLowerCase (Js.trim s)) /\
  Js.includes_char e "@"%char = true.

(** The comparator of [notes.sort] as the test the sort makes: [a] may stay
    in front of [b]. *)
Definition notes_le (localeCompare : string -> string -> Z)
    (a b : DiaryxNote) : bool :=
  compare_notes localeCompare a b <=? 0.

(** Comparison by code units: the lexical comparison of the
    specification, read literally. *)
Definition code_unit_compare (a b : string) : Z :=
  match String.compare a b with
  | Lt => -1
  | Eq => 0
  | Gt => 1
  end.

(** A comparator that orders strings of letters and digits as the collation
    of the runtime does: by their letters whatever the case and, among
    strings that differ in case only, lower case first.  It stands for
    [localeCompare] in the examples. *)
Definition letter_compare (a b : string) : Z :=
  match String.compare (Js.toLowerCase a) (Js.toLowerCase b) with
  | Lt => -1
  | Gt => 1
  | Eq => code_unit_compare b a
  end.

(** Concrete inputs used in the examples below. *)
Definition spaced_document : string :=
  "--- " +:+ NL +:+ "foo" +:+ NL +:+ "---" +:+ NL +:+ "bar".

Definition unclosed_document : string :=
  "---" +:+ NL +:+ "visibility: x" +:+ NL +:+ "Hello".

Definition demo_env : Env :=
  mkEnv 7 9 (fun _ _ => false) String.leb [] (fun _ => None) letter_compare
        "id".

Definition demo_payload : json :=
  JObj [("visibilityTerms",
         JArr [JObj [("term", JStr " friends ");
                     ("emails", JArr [JStr " Alice@X.com "; JStr "bob";
                                      JNum (Finite 3); JStr "alice@x.com"])]])].

Definition demo_world : World :=
  snd (handle demo_env
         (PostNotes (Some (mkUser "u1" None)) (Some demo_payload)) initial).

Definition stored_world : World :=
  mkWorld ∅ {[ ("u1", "friends") := mkTermRow ["alice@x.com"] 0 ]} true [].





Definition private_note : DiaryxNote :=
  parseDiaryxString 0 "id" "Hello" (Some "n1") None.

Definition unlisted_note : DiaryxNote :=
  parseDiaryxString 0 "id" scenario_A (Some "n1") None.

Definition row_b : DbSharedNote :=
  mkDbSharedNote "u1" "b" scenario_A_listed None (Some 100).
Definition row_a : DbSharedNote :=
  mkDbSharedNote "u2" "a" scenario_A_listed None (Some 100).
Definition row_B : DbSharedNote :=
  mkDbSharedNote "u1" "B" scenario_A_listed None (Some 100).

(* ================================================================== *)
(** ** Further notions *)
(* ================================================================== *)

(** A string that is not empty and that [trim] leaves as it is. *)
Definition clean_item (x : string) : Prop :=
  x <> EmptyString /\ Js.trim x = x.

Definition clean_visibility (v : Visibility) : Prop :=
  match v with
  | VUndefined => True
  | VString s => clean_item s
  | VArray l => Forall clean_item l
  end.

(** Keys and listed values of an object are all clean. *)
Definition clean_object (o : Obj.t) : Prop :=
  Forall (fun kv => clean_item (fst kv) /\ Forall clean_item (snd kv))
         (Obj.own o) /\
  match Obj.proto o with
  | Some l => Forall clean_item l
  | None => True
  end.

Definition clean_subset (r : ParsedSubset) : Prop :=
  clean_visibility (ps_visibility r) /\
  match ps_visibility_emails r with
  | Some o => clean_object o /\ Obj.own o <> []
  | None => True
  end.

(** The item a block-list line contributes, if any: the trimmed text after
    the dash, unless it is empty. *)
Definition block_item (re : Regex.regex) (line : string) : option string :=
  match Regex.exec re line with
  | Some m => let item := Js.trim (Regex.group 1 m) in
              if Js.truthy item then Some item else None
  | None => None
  end.

(** The user on whose behalf a request is made. *)
Definition requester (req : Request) : option SessionUser :=
  match req with
  | GetNotes user | PostNotes user _ | DeleteNoteById user _
  | GetSharedNotes user => user
  end.

(** The statements of [ensureNotesTable]. *)
Definition is_ddl (q : Sql) : bool :=
  match q with
  | CreateNoteTable | CreateNoteIndex | CreateTermTable => true
  | _ => false
  end.


(** [w'] comes from [w] by statements other than those of
    [ensureNotesTable]. *)
Definition plain_steps (w w' : World) : Prop :=
  ensured w' = ensured w /\
  exists more,
    issued w' = issued w ++ more /\ Forall (fun q => is_ddl q = false) more.

(** [w'] comes from [w] by the statements of [ensureNotesTable], once and in
    order, and then by other statements; the pool is ensured. *)
Definition ensured_once (w w' : World) : Prop :=
  ensured w' = true /\
  exists more,
    issued w' = issued w ++ ddl ++ more /\
    Forall (fun q => is_ddl q = false) more.

(** [w'] comes from [w] by statements among which each of those of
    [ensureNotesTable] occurs twice; the pool is ensured. *)
Definition ensured_twice (w w' : World) : Prop :=
  ensured w' = true /\
  exists more,
    issued w' = issued w ++ more /\
    filter (fun q => is_ddl q = true) more ≡ₚ ddl ++ ddl.

(** A computation that issues no statement of [ensureNotesTable]. *)
Definition plain {A} (m : M A) : Prop :=
  forall w, plain_steps w (snd (m w)).

(* ================================================================== *)
(** ** The environment helpers ([env.ts]) and the allowed origins *)
(* ================================================================== *)

(** [s.split(re)] for a regexp that is one character class. *)
Fixpoint split_by_go (sep : ascii -> bool) (cur : string) (s : string)
    : list string :=
  match s with
  | EmptyString => [String.rev cur]
  | String c s' =>
      if sep c then String.rev cur :: split_by_go sep EmptyString s'
      else split_by_go sep (String c cur) s'
  end.
Definition split_by (sep : ascii -> bool) (s : string) : list string :=
  split_by_go sep EmptyString s.

(** [l.join(sep)] *)
Fixpoint join (sep : string) (l : list string) : string :=
  match l with
  | [] => EmptyString
  | x :: l' =>
      match l' with
      | [] => x
      | _ :: _ => x +:+ sep +:+ join sep l'
      end
  end.

(** No character of [s] is a separator. *)
Definition no_sep (sep : ascii -> bool) (s : string) : Prop :=
  Js.all_chars (fun a => negb (sep a)) s = true.

Module EnvTs.

(** [typeof value === string && value.trim().length > 0]; [None] is
    undefined. *)
Definition isNonEmpty (value : option string) : bool :=
  match value with
  | Some s => (0 <? String.length (Js.trim s))%nat
  | None => false
  end.

(** [process.env] is a map from names to strings. *)
Definition readEnvValue (env : gmap string string) (key : string)
    : option string :=
  let v := env !! key in
  if isNonEmpty v then v else None.

(** The value, or the message of the error thrown. *)
Definition requireEnvValue (env : gmap string string) (key : string)
    (errorMessage : option string) : string + string :=
  let value := readEnvValue env key in
  match value with
  | Some v =>
      if negb (isNonEmpty value)
      then inr (default ("Missing required env variable: " +:+ key)
                        errorMessage)
      else inl v
  | None =>
      inr (default ("Missing required env variable: " +:+ key) errorMessage)
  end.

(** The class of the regexp of [parseList]: comma and LF. *)
Definition is_list_sep (c : ascii) : bool :=
  Ascii.eqb c ","%char || Ascii.eqb c Js.LF.

Definition parseList (value : option string) : list string :=
  match value with
  | Some v =>
      if isNonEmpty value
      then filter (fun s => Js.truthy s)
                  (map Js.trim (split_by is_list_sep v))
      else []
  | None => []
  end.

Definition getDatabaseUrl (env : gmap string string) : string + string :=
  requireEnvValue env "DATABASE_URL" None.

Record AuthConfig : Type := mkAuthConfig {
  secret : option string;
  url : option string;
  trustedOrigins : list string }.

(** [a ?? b] *)
Definition or_else {A} (a b : option A) : option A :=
  match a with Some _ => a | None => b end.

Definition readAuthConfig (env : gmap string string) : AuthConfig :=
  mkAuthConfig
    (readEnvValue env "BETTER_AUTH_SECRET")
    (or_else (readEnvValue env "BETTER_AUTH_URL") (readEnvValue env "AUTH_URL"))
    (parseList (or_else (readEnvValue env "TRUSTED_ORIGINS")
                        (readEnvValue env "AUTH_TRUSTED_ORIGINS"))).

Definition requireAuthConfig (env : gmap string string)
    : AuthConfig + string :=
  let cfg := readAuthConfig env in
  if negb (isNonEmpty (secret cfg))
  then inr "Missing required env variable: BETTER_AUTH_SECRET"
  else inl (mkAuthConfig (secret cfg) (url cfg) (trustedOrigins cfg)).

End EnvTs.

Definition DEFAULT_CORS_ORIGINS : list string :=
  [ "http://localhost:3000"; "http://127.0.0.1:3000";
    "http://localhost:5173"; "http://127.0.0.1:5173";
    "http://localhost:4321"; "http://127.0.0.1:4321";
    "https://app.diaryx.net"; "https://adammharris-projects.vercel.app";
    "https://*.adammharris-projects.vercel.app" ].

(** [Array.from(new Set([...trustedOrigins, ...defaults]))], at the head of
    [index.ts] and in [getAuth]. *)
Definition merge_origins (trusted defaults : list string) : list string :=
  dedup_first [] (trusted ++ defaults).

Definition CORS_ORIGINS (env : gmap string string) : list string :=
  merge_origins (EnvTs.trustedOrigins (EnvTs.readAuthConfig env))
                DEFAULT_CORS_ORIGINS.

Definition backslash : ascii := "092"%char.

(** The class of the first [replace] of [toRegex]: dot, plus, caret,
    dollar, braces, parentheses, bar, square brackets and backslash. *)
Definition regex_special (c : ascii) : bool :=
  existsb (Ascii.eqb c)
    [ "."%char; "+"%char; "^"%char; "$"%char; "{"%char; "}"%char;
      "("%char; ")"%char; "|"%char; "["%char; "]"%char; backslash ].

(** The first [replace]: a backslash before every special character. *)
Fixpoint escape_special (s : string) : string :=
  match s with
  | EmptyString => EmptyString
  | String c s' =>
      if regex_special c then String backslash (String c (escape_special s'))
      else String c (escape_special s')
  end.

(** The second [replace]: every backslash that a star follows becomes,
    with the star, a dot and a star; the matches are taken from the left
    and do not overlap. *)
Fixpoint replace_escaped_star (s : string) : string :=
  match s with
  | EmptyString => EmptyString
  | String c s' =>
      if Ascii.eqb c backslash then
        match s' with
        | String d s'' =>
            if Ascii.eqb d "*"%char
            then String "."%char (String "*"%char (replace_escaped_star s''))
            else String c (replace_escaped_star s')
        | EmptyString => String c EmptyString
        end
      else String c (replace_escaped_star s')
  end.

(** The source text [toRegex] hands to the [RegExp] constructor. *)
Definition toRegex_source (pattern : string) : string :=
  "^" +:+ replace_escaped_star (escape_special pattern) +:+ "$".

(** [isOriginAllowed]; [test source origin] is [new RegExp(source)
    .test(origin)], [None] when the constructor throws. *)
Definition isOriginAllowed (test : string -> string -> option bool)
    (origin : string) (patterns : list string) : bool :=
  existsb (fun p =>
             if String.eqb p "*" then true
             else match test (toRegex_source p) origin with
                  | Some b => b
                  | None => false
                  end)
          patterns.

(** [s] starts with a star; [s] holds a backslash that a star follows. *)
Definition head_is_star (s : string) : bool :=
  match s with
  | String d _ => Ascii.eqb d "*"%char
  | EmptyString => false
  end.
Fixpoint has_escaped_star (s : string) : bool :=
  match s with
  | EmptyString => false
  | String c s' =>
      (Ascii.eqb c backslash && head_is_star s') || has_escaped_star s'
  end.

(** A line of a metadata block that is not the line of one of the two keys
    the parser reads: the top-level key pattern does not match it, or the
    key it names is another one. *)
Definition foreign_line (line : string) : bool :=
  match Regex.exec top_key_re line with
  | Some top =>
      negb (String.eqb (Regex.group 1 top) "visibility")
      && negb (String.eqb (Regex.group 1 top) "visibility_emails")
  | None => true
  end.

(** [s] holds a line feed that three dashes follow: the text at which the
    metadata of a document ends. *)
Fixpoint has_fence (s : string) : bool :=
  match s with
  | EmptyString => false
  | String c s' => (Ascii.eqb c Js.LF && Js.startsWith s' "---") || has_fence s'
  end.

(** Concrete inputs of the examples. *)
Definition demo_process_env : gmap string string :=
  {[ "BETTER_AUTH_URL" := "  ";
     "AUTH_URL" := "https://api.example.com";
     "TRUSTED_ORIGINS" := "https://a.example , https://b.example" ]}.

Definition demo_lines : list string :=
  ["visibility:"; "  - a"; "  - b"; "title: x"].

Definition listed_note : DiaryxNote :=
  parseDiaryxString 0 "id" scenario_A_listed (Some "n1") None.

Definition two_user_world : World :=
  mkWorld {[ ("u2", "n1") := mkNoteRow "theirs" None 5 1 1 ]}
          {[ ("u2", "friends") := mkTermRow ["x@y.z"] 0 ]} true [].

Definition open_env : Env :=
  mkEnv 7 9 (fun _ _ => true) String.leb [true; false] (fun _ => None)
        letter_compare "id".

Definition shared_world : World :=
  mkWorld {[ ("u1", "b") := mkNoteRow scenario_A_listed None 100 1 1 ]} ∅
          true [].

Definition other_metadata : string :=
  "title: Hello" +:+ NL +:+ "# visibility: [friends]" +:+ NL +:+
  "tags:" +:+ NL +:+ "  - visibility: x".


(* ================================================================== *)
(** ** Facts about strings *)
(* ================================================================== *)

Section JsFacts.
Import Js.

Ltac by_cases_on c := destruct c as [[] [] [] [] [] [] [] []]; reflexivity.

Lemma is_space_lower_char c : is_space (lower_char c) = is_space c.
Proof. by_cases_on c. Qed.

Lemma lower_char_idem c : lower_char (lower_char c) = lower_char c.
Proof. by_cases_on c. Qed.

Lemma lower_char_at c :
  Ascii.eqb (lower_char c) "@"%char = Ascii.eqb c "@"%char.
Proof. by_cases_on c. Qed.

Lemma at_not_space c : Ascii.eqb c "@"%char = true -> is_space c = false.
Proof. intros H. apply Ascii.eqb_eq in H. subst c. reflexivity. Qed.

Lemma toLowerCase_idem s : toLowerCase (toLowerCase s) = toLowerCase s.
Proof. induction s as [|c s IH]; simpl; [done|]. by rewrite lower_char_idem, IH. Qed.

Lemma trimStart_toLowerCase s :
  trimStart (toLowerCase s) = toLowerCase (trimStart s).
Proof.
  induction s as [|c s IH]; simpl; [done|].
  rewrite is_space_lower_char. by destruct (is_space c).
Qed.

Lemma toLowerCase_empty s : toLowerCase s = EmptyString -> s = EmptyString.
Proof. by destruct s. Qed.

Lemma trimEnd_toLowerCase s :
  trimEnd (toLowerCase s) = toLowerCase (trimEnd s).
Proof.
  induction s as [|c s IH]; simpl; [done|].
  rewrite IH, is_space_lower_char.
  destruct (trimEnd s) as [|d t]; simpl; [|done].
  by destruct (is_space c).
Qed.

Lemma trim_toLowerCase s : trim (toLowerCase s) = toLowerCase (trim s).
Proof. unfold trim. by rewrite trimStart_toLowerCase, trimEnd_toLowerCase. Qed.

Lemma trimStart_clean s : starts_clean (trimStart s).
Proof.
  induction s as [|c s IH]; simpl; [done|].
  destruct (is_space c) eqn:E; [done|]. exact E.
Qed.

Lemma trimStart_of_clean s : starts_clean s -> trimStart s = s.
Proof. destruct s as [|c s]; simpl; [done|]. by intros ->. Qed.

Lemma trimEnd_clean s : starts_clean s -> starts_clean (trimEnd s).
Proof.
  destruct s as [|c s]; simpl; [done|]. intros Hc. rewrite Hc.
  by destruct (trimEnd s).
Qed.

Lemma trimEnd_idem s : trimEnd (trimEnd s) = trimEnd s.
Proof.
  induction s as [|c s IH]; simpl; [done|].
  destruct (trimEnd s) as [|d t] eqn:E.
  - destruct (is_space c) eqn:Ec; simpl; [done|]. by rewrite Ec.
  - change (trimEnd (String c (String d t)) = String c (String d t)).
    cbn [trimEnd] in *. by rewrite IH.
Qed.

Lemma trim_idem s : trim (trim s) = trim s.
Proof.
  unfold trim.
  rewrite (trimStart_of_clean (trimEnd (trimStart s))).
  - apply trimEnd_idem.
  - apply trimEnd_clean, trimStart_clean.
Qed.

Lemma includes_at_toLowerCase s :
  includes_char (toLowerCase s) "@"%char = includes_char s "@"%char.
Proof. induction s as [|c s IH]; simpl; [done|]. by rewrite lower_char_at, IH. Qed.

Lemma includes_nonempty s c : includes_char s c = true -> s <> EmptyString.
Proof. by destruct s. Qed.

(** The normal form [trim] then [toLowerCase] is stable under both. *)
Lemma normal_form_trim s :
  trim (toLowerCase (trim s)) = toLowerCase (trim s).
Proof. by rewrite trim_toLowerCase, trim_idem. Qed.

Lemma normal_form_fixed s :
  toLowerCase (trim (toLowerCase (trim s))) = toLowerCase (trim s).
Proof. by rewrite normal_form_trim, toLowerCase_idem. Qed.

Lemma append_nil (s : string) : (EmptyString +:+ s) = s.
Proof. reflexivity. Qed.

Lemma append_cons c (a b : string) : (String c a +:+ b) = String c (a +:+ b).
Proof. reflexivity. Qed.

Lemma strip_prefix_Some p s s' :
  strip_prefix p s = Some s' <-> s = (p +:+ s').
Proof.
  revert s. induction p as [|a p IH]; intros s; simpl.
  - rewrite append_nil. split; congruence.
  - rewrite append_cons. destruct s as [|b s]; [split; discriminate|].
    destruct (Ascii.eqb_spec a b) as [->|Hne].
    + rewrite IH. split; congruence.
    + split; [discriminate|]. intros [=]. done.
Qed.

Lemma startsWith_app p s : startsWith (p +:+ s) p = true.
Proof.
  unfold startsWith.
  destruct (strip_prefix p (p +:+ s)) eqn:E; [done|].
  assert (strip_prefix p (p +:+ s) = Some s) as H by by apply strip_prefix_Some.
  congruence.
Qed.

Lemma append_assoc (a b c : string) : ((a +:+ b) +:+ c) = (a +:+ b +:+ c).
Proof.
  induction a as [|x a IH]; [done|]. by rewrite !append_cons, IH.
Qed.

End JsFacts.

(* ================================================================== *)
(** ** The matcher against the declarative reading *)
(* ================================================================== *)

Section RegexFacts.
Import Regex.

Lemma or_else_Some {A} (x : option A) y v :
  or_else x y = Some v -> x = Some v \/ (x = None /\ y tt = Some v).
Proof. destruct x; simpl; eauto. Qed.

Lemma or_else_is_Some {A} (x : option A) y :
  is_Some x \/ is_Some (y tt) -> is_Some (or_else x y).
Proof. destruct x; simpl; [eauto|]. by intros [[? [=]]|?]. Qed.

(** A successful run consumed a text of the regexp. *)
Lemma run_sound r : forall s open caps res rest,
  run r s open caps = Some (res, rest) -> lang r s rest.
Proof.
  induction r as [|a r IH]; intros s open caps res rest; simpl.
  - by intros [= _ ->].
  - destruct a as [l|p|greedy p|p| | |].
    + destruct (Js.strip_prefix l s) as [s'|] eqn:E; [|done].
      intros H. apply strip_prefix_Some in E. eauto.
    + destruct s as [|c s]; [done|]. destruct (p c) eqn:Ep; [|done].
      intros H. exists c, s. eauto.
    + revert open. induction s as [|c s IHs]; intros open H.
      * exists EmptyString, EmptyString. eauto.
      * destruct (p c) eqn:Ep.
        -- assert ((exists w s', s = (w +:+ s') /\ Js.all_chars p w = true
                      /\ lang r s' rest)
                   \/ lang r (String c s) rest) as [(w & s' & -> & Hw & Hl)|Hl].
           { destruct greedy; apply or_else_Some in H as [H|[_ H]]; eauto. }
           ++ exists (String c w), s'. simpl. rewrite Ep, Hw. eauto.
           ++ exists EmptyString, (String c s). eauto.
        -- exists EmptyString, (String c s). eauto.
    + destruct s as [|c s]; [eauto|]. destruct (p c) eqn:Ep; [|eauto].
      intros H. apply or_else_Some in H as [H|[_ H]]; [|eauto].
      right. exists c, s. eauto.
    + eauto.
    + eauto.
    + destruct s; [eauto|done].
Qed.

(** Whenever the input starts with a text of the regexp, the run succeeds
    (with the first match in priority order). *)
Lemma run_complete r : forall s rest,
  lang r s rest -> forall open caps, is_Some (run r s open caps).
Proof.
  induction r as [|a r IH]; intros s rest; simpl.
  - eauto.
  - destruct a as [l|p|greedy p|p| | |].
    + intros (s' & -> & Hl) open caps.
      assert (Js.strip_prefix l (l +:+ s') = Some s') as ->
        by by apply strip_prefix_Some.
      eauto.
    + intros (c & s' & -> & Hp & Hl) open caps. rewrite Hp. eauto.
    + intros (w & s' & -> & Hw & Hl) open caps. revert open.
      induction w as [|c w IHw]; intros open.
      * rewrite append_nil. destruct s' as [|c s']; [eauto|].
        destruct (p c); [|eauto].
        destruct greedy; apply or_else_is_Some; eauto.
      * simpl in Hw. apply andb_true_iff in Hw as [Hc Hw].
        rewrite append_cons. rewrite Hc.
        destruct greedy; apply or_else_is_Some; eauto.
    + intros [Hl|(c & s' & -> & Hp & Hl)] open caps.
      * destruct s as [|c s]; [eauto|]. destruct (p c); [|eauto].
        apply or_else_is_Some; eauto.
      * rewrite Hp. apply or_else_is_Some; eauto.
    + eauto.
    + eauto.
    + intros [-> Hl]. eauto.
Qed.

End RegexFacts.

(* ================================================================== *)
(** ** The frontmatter splitter *)
(* ================================================================== *)

Lemma delimited_shape_startsWith D :
  delimited_shape D -> Js.startsWith D "---" = true.
Proof. intros (ws & meta & rest & _ & ->). apply startsWith_app. Qed.

(** The texts of the frontmatter pattern are the documents of the delimited
    shape. *)
Lemma frontmatter_re_shape D rest :
  Regex.lang frontmatter_re D rest -> delimited_shape D.
Proof.
  unfold frontmatter_re. simpl.
  intros (s1 & -> & ws & s2 & -> & Hws & s3 & -> & meta & s4 & -> & _
          & s5 & -> & _).
  exists ws, meta, s5. split; [done|]. by rewrite append_assoc.
Qed.

Lemma shape_frontmatter_re D :
  delimited_shape D -> exists rest, Regex.lang frontmatter_re D rest.
Proof.
  intros (ws & meta & rest & Hws & ->).
  exists rest. unfold frontmatter_re. simpl.
  eexists; split; [reflexivity|].
  exists ws; eexists; split; [reflexivity|]; split; [done|].
  eexists; split; [reflexivity|].
  exists meta; eexists; split; [reflexivity|]; split.
  { clear. induction meta; simpl; auto. }
  exists rest; split; [by rewrite append_assoc|].
  exists EmptyString, rest. split; [done|]. split; [done|]. by left.
Qed.

(** The splitter finds a metadata block exactly in the documents of the
    delimited shape. *)
Lemma extractFrontmatter_unshaped D :
  ~ delimited_shape D -> extractFrontmatter D = (None, D).
Proof.
  intros Hno. unfold extractFrontmatter.
  destruct (Js.startsWith D "---"); [simpl|done].
  unfold Regex.exec.
  destruct (Regex.run frontmatter_re D None []) as [[caps rest]|] eqn:E; [|done].
  destruct Hno. eapply frontmatter_re_shape, run_sound, E.
Qed.

Lemma extractFrontmatter_shaped D :
  delimited_shape D -> exists yaml body, extractFrontmatter D = (Some yaml, body).
Proof.
  intros Hs. unfold extractFrontmatter.
  rewrite (delimited_shape_startsWith D Hs). simpl.
  destruct (shape_frontmatter_re D Hs) as [rest Hl].
  destruct (run_complete _ _ _ Hl None []) as [m Hm].
  unfold Regex.exec. rewrite Hm. eauto.
Qed.

Lemma exact_shape_delimited D : exact_shape D -> delimited_shape D.
Proof. intros (meta & rest & ->). by exists EmptyString, meta, rest. Qed.

Lemma spaced_document_not_exact : ~ exact_shape spaced_document.
Proof. intros (meta & rest & H). discriminate H. Qed.

(* ================================================================== *)
(** ** The loops of the subset parser never run out of fuel *)
(* ================================================================== *)

Lemma parseBlockArray_loop_ge re rest : forall i items,
  (i <= snd (parseBlockArray_loop re rest i items))%nat.
Proof.
  induction rest as [|line rest IH]; intros i items; simpl; [done|].
  destruct (Regex.exec re line); simpl; [|done].
  etrans; [|apply IH]. lia.
Qed.

Lemma parseBlockArray_end lines start indent :
  (1 <= start)%nat ->
  (start <= S (snd (parseBlockArray lines start indent)))%nat.
Proof.
  intros Hs. unfold parseBlockArray.
  pose proof (parseBlockArray_loop_ge (block_item_re indent)
                (drop start lines) start []) as H.
  destruct (parseBlockArray_loop _ _ _ _) as [items i]. simpl in *. lia.
Qed.

(** Any two amounts of fuel that cover the lines left give the same
    result. *)
Lemma emails_loop_fuel lines : forall f1 f2 j i map,
  (length lines - j <= f1)%nat -> (length lines - j <= f2)%nat ->
  emails_loop f1 lines j i map = emails_loop f2 lines j i map.
Proof.
  induction f1 as [|f1 IH]; intros [|f2] j i map H1 H2; simpl; try done.
  - rewrite lookup_ge_None_2 by lia. done.
  - rewrite lookup_ge_None_2 by lia. done.
  - destruct (lines !! j) as [sub|] eqn:El; [|done].
    apply lookup_lt_Some in El.
    destruct (_ || _); [done|].
    destruct (Regex.exec sub_key_re sub) as [mm|]; [|apply IH; lia].
    destruct (negb _); [apply IH; lia|].
    destruct (Js.startsWith _ _); [apply IH; lia|].
    destruct (negb _); [|apply IH; lia].
    pose proof (parseBlockArray_end lines (S j) 4 ltac:(lia)) as He.
    destruct (parseBlockArray lines (S j) 4) as [items end_]. simpl in He.
    apply IH; lia.
Qed.

(** The inner loop hands back an index that is not behind the one it was
    given, so the outer loop moves forward. *)
Lemma emails_loop_index lines : forall f j i map,
  (i < j)%nat -> (i <= fst (emails_loop f lines j i map))%nat.
Proof.
  induction f as [|f IH]; intros j i map Hij; simpl; [done|].
  destruct (lines !! j) as [sub|]; [|done].
  destruct (_ || _); [simpl; lia|].
  destruct (Regex.exec sub_key_re sub) as [mm|]; [|apply IH; lia].
  destruct (negb _); [apply IH; lia|].
  destruct (Js.startsWith _ _); [etrans; [|apply IH]; lia|].
  destruct (negb _); [|etrans; [|apply IH]; lia].
  pose proof (parseBlockArray_end lines (S j) 4 ltac:(lia)) as He.
  destruct (parseBlockArray lines (S j) 4) as [items end_]. simpl in He.
  etrans; [|apply IH]; lia.
Qed.

Lemma yaml_loop_fuel lines : forall f1 f2 i result,
  (length lines - i <= f1)%nat -> (length lines - i <= f2)%nat ->
  yaml_loop f1 lines i result = yaml_loop f2 lines i result.
Proof.
  induction f1 as [|f1 IH]; intros [|f2] i result H1 H2; simpl; try done.
  - rewrite lookup_ge_None_2 by lia. done.
  - rewrite lookup_ge_None_2 by lia. done.
  - destruct (lines !! i) as [line|] eqn:El; [|done].
    apply lookup_lt_Some in El.
    destruct (_ || _); [apply IH; lia|].
    destruct (Regex.exec top_key_re line) as [top|]; [|apply IH; lia].
    destruct (String.eqb _ "visibility").
    + destruct (negb _).
      * pose proof (parseBlockArray_end lines (S i) 2 ltac:(lia)) as He.
        destruct (parseBlockArray lines (S i) 2) as [items end_].
        simpl in He. apply IH; lia.
      * destruct (Js.startsWith _ _); apply IH; lia.
    + destruct (String.eqb _ "visibility_emails"); [|apply IH; lia].
      pose proof (emails_loop_index lines (length lines) (S i) i Obj.empty
                    ltac:(lia)) as Hi.
      destruct (emails_loop _ _ _ _ _) as [i' map]. simpl in Hi.
      apply IH; lia.
Qed.

(** The parser is the loop run to its end: more fuel changes nothing. *)
Lemma parseYamlSubset_fuel y fuel :
  Js.truthy y = true -> (length (Js.split_lines y) <= fuel)%nat ->
  parseYamlSubset (Some y) = yaml_loop fuel (Js.split_lines y) 0 subset_empty.
Proof.
  intros Hy Hf. unfold parseYamlSubset. rewrite Hy. simpl.
  apply yaml_loop_fuel; lia.
Qed.

(* ================================================================== *)
(** ** Sorting *)
(* ================================================================== *)

Section Sorting.
Context {A : Type} (le : A -> A -> bool).

Lemma insert_by_perm x l : insert_by le x l ≡ₚ x :: l.
Proof.
  induction l as [|y l IH]; simpl; [done|].
  destruct (le x y); [done|]. rewrite IH. apply Permutation_swap.
Qed.

Lemma sort_by_perm l : sort_by le l ≡ₚ l.
Proof.
  induction l as [|x l IH]; simpl; [done|].
  rewrite insert_by_perm. by rewrite IH.
Qed.

Hypothesis le_total : forall a b, le a b = true \/ le b a = true.
Hypothesis le_trans : forall a b c, le a b = true -> le b c = true -> le a c = true.

Lemma insert_by_sorted x l :
  StronglySorted (fun a b => le a b = true) l ->
  StronglySorted (fun a b => le a b = true) (insert_by le x l).
Proof.
  induction l as [|y l IH]; simpl; intros Hs.
  - repeat constructor.
  - apply StronglySorted_inv in Hs as [Hl Hy].
    destruct (le x y) eqn:E.
    + constructor; [by constructor|].
      constructor; [done|].
      eapply Forall_impl; [exact Hy|]. intros z Hz. simpl in Hz. eauto.
    + constructor; [by apply IH|].
      rewrite insert_by_perm. constructor; [|done].
      destruct (le_total x y); congruence.
Qed.

Lemma sort_by_sorted l :
  StronglySorted (fun a b => le a b = true) (sort_by le l).
Proof.
  induction l as [|x l IH]; simpl; [constructor|].
  by apply insert_by_sorted.
Qed.

End Sorting.

(* ================================================================== *)
(** ** The visibility resolver *)
(* ================================================================== *)

Lemma existsb_never {A} (f : A -> bool) l :
  (forall x, f x = false) -> existsb f l = false.
Proof. intros H. induction l as [|x l IH]; simpl; [done|]. by rewrite H. Qed.

Lemma hasSharedAccess_no_terms note email :
  toVisibilityArray (visibility (metadata note)) = [] ->
  hasSharedAccess note email = false.
Proof. unfold hasSharedAccess. by intros ->. Qed.

Lemma Obj_get_empty k : Obj.get k Obj.empty = None.
Proof. unfold Obj.get. simpl. by destruct (String.eqb k "__proto__"). Qed.

Lemma Obj_entries_empty : Obj.entries Obj.empty = [].
Proof. reflexivity. Qed.

Lemma hasSharedAccess_no_map note email :
  visibility_emails (metadata note) = None ->
  hasSharedAccess note email = false.
Proof.
  unfold hasSharedAccess. intros ->.
  destruct (toVisibilityArray _) as [|t ts]; [done|].
  apply existsb_never. intros term.
  cbn [default]. rewrite Obj_entries_empty. cbn [foldl].
  rewrite !Obj_get_empty. by destruct (negb _).
Qed.

(* ================================================================== *)
(** ** Shared-note discovery *)
(* ================================================================== *)

Section Discovery.
Variable dateNow : Z.
Variable fresh : string.
Variable userEmail : string.

Abbreviation note_of := (note_of_row dateNow fresh).
Abbreviation loop := (shared_loop dateNow fresh).
Abbreviation keep := (kept dateNow fresh userEmail).
Abbreviation granted row := (hasSharedAccess (note_of row) userEmail = true).

Lemma id_parseDiaryxString md i src :
  id (parseDiaryxString dateNow fresh md (Some i) src) = i.
Proof. unfold parseDiaryxString. by destruct (extractFrontmatter md). Qed.

Lemma id_note_of_row row : id (note_of row) = s_id row.
Proof. apply id_parseDiaryxString. Qed.

Ltac ids := rewrite ?id_note_of_row, ?id_parseDiaryxString in *.

(** The loop appends the notes it keeps to its accumulator. *)
Lemma shared_loop_kept rows : forall seen notes,
  loop rows userEmail seen notes = notes ++ keep rows seen.
Proof.
  induction rows as [|row rows IH]; intros seen notes; simpl.
  - by rewrite app_nil_r.
  - destruct (negb _); [apply IH|].
    destruct (decide _); [apply IH|].
    rewrite IH. by rewrite <- app_assoc.
Qed.

Lemma kept_fresh rows : forall seen n,
  n ∈ keep rows seen -> id n ∉ seen.
Proof.
  induction rows as [|row rows IH]; intros seen n; simpl.
  - by intros ?%elem_of_nil.
  - destruct (negb _); [apply IH|].
    destruct (decide _) as [|Hnew]; [apply IH|].
    intros [->|Hin]%elem_of_cons; [done|].
    apply IH in Hin. set_solver.
Qed.

Lemma kept_NoDup rows : forall seen, NoDup (id <$> keep rows seen).
Proof.
  induction rows as [|row rows IH]; intros seen; simpl.
  - constructor.
  - destruct (negb _); [apply IH|].
    destruct (decide _) as [|Hnew]; [apply IH|].
    rewrite fmap_cons. constructor; [|apply IH].
    intros (n & Hid & Hin)%list_elem_of_fmap.
    apply kept_fresh in Hin. set_solver.
Qed.

(** A kept note comes from the first granted row with its id. *)
Lemma kept_first rows : forall seen n,
  n ∈ keep rows seen ->
  exists pre row post,
    rows = pre ++ row :: post /\ n = note_of row /\ granted row /\
    forall r, r ∈ pre -> s_id r = s_id row ->
              hasSharedAccess (note_of r) userEmail = false.
Proof.
  induction rows as [|row rows IH]; intros seen n; simpl.
  - by intros ?%elem_of_nil.
  - destruct (hasSharedAccess (note_of row) userEmail) eqn:Hacc; simpl.
    + destruct (decide _) as [Hseen|Hnew].
      * intros Hin. pose proof (kept_fresh _ _ _ Hin) as Hfr.
        destruct (IH _ _ Hin) as (pre & r0 & post & -> & -> & Hg & Hpre).
        exists (row :: pre), r0, post. repeat split; [done|].
        intros r [->|Hr]%elem_of_cons Hid; [|by apply Hpre].
        ids. exfalso. apply Hfr. by rewrite <- Hid.
      * intros [->|Hin]%elem_of_cons.
        -- exists [], row, rows. repeat split; [done|].
           by intros r ?%elem_of_nil.
        -- pose proof (kept_fresh _ _ _ Hin) as Hfr.
           destruct (IH _ _ Hin) as (pre & r0 & post & -> & -> & Hg & Hpre).
           exists (row :: pre), r0, post. repeat split; [done|].
           intros r [->|Hr]%elem_of_cons Hid; [|by apply Hpre].
           ids. exfalso. apply Hfr. rewrite <- Hid. set_solver.
    + intros Hin.
      destruct (IH _ _ Hin) as (pre & r0 & post & -> & -> & Hg & Hpre).
      exists (row :: pre), r0, post. repeat split; [done|].
      intros r [->|Hr]%elem_of_cons Hid; [done|by apply Hpre].
Qed.

(** Every granted row is represented, unless its id was seen before. *)
Lemma kept_complete rows : forall seen row,
  row ∈ rows -> granted row ->
  s_id row ∈ seen \/ exists n, n ∈ keep rows seen /\ id n = s_id row.
Proof.
  induction rows as [|r rows IH]; intros seen row; simpl.
  - by intros ?%elem_of_nil.
  - intros [->|Hin]%elem_of_cons Hg.
    + rewrite Hg. simpl. ids.
      destruct (decide _) as [Hseen|Hnew]; [by left|].
      right. exists (note_of r). split; [by left|apply id_note_of_row].
    + destruct (negb _); [by apply IH|].
      destruct (decide _) as [Hseen|Hnew]; [by apply IH|].
      destruct (IH ({[id (note_of r)]} ∪ seen) row Hin Hg)
        as [Hs|(n & Hn & Hid)].
      * apply elem_of_union in Hs as [Hs|Hs]; [|by left].
        apply elem_of_singleton in Hs. ids. right.
        exists (note_of r). split; [by left|]. ids. congruence.
      * right. exists n. split; [by right|done].
Qed.

End Discovery.

(** The comparator read as an order. *)
Lemma compare_notes_order localeCompare a b :
  compare_notes localeCompare a b <= 0 <-> notes_order localeCompare a b.
Proof.
  unfold compare_notes, notes_order.
  destruct (Z.eqb_spec (lastModified b - lastModified a) 0); simpl; lia.
Qed.

Lemma StronglySorted_weaken {A} (R S : A -> A -> Prop) l :
  (forall a b, R a b -> S a b) -> StronglySorted R l -> StronglySorted S l.
Proof.
  intros HRS. induction 1 as [|x l Hl IH Hx]; constructor; [done|].
  eapply Forall_impl; [exact Hx|]. auto.
Qed.

(* monad *)
Lemma bind_eq {A B} (m : M A) (f : A -> M B) w :
  bind m f w = f (fst (m w)) (snd (m w)).
Proof. unfold bind. by destruct (m w). Qed.

Lemma ensureNotesTable_notes sqlNow w :
  diaryx_note (snd (ensureNotesTable sqlNow w)) = diaryx_note w.
Proof. unfold ensureNotesTable. by destruct (ensured w). Qed.

Lemma ensureNotesTable_terms sqlNow w :
  diaryx_visibility_term (snd (ensureNotesTable sqlNow w))
  = diaryx_visibility_term w.
Proof. unfold ensureNotesTable. by destruct (ensured w). Qed.

Lemma listNotesSharedWithEmail_rows sqlNow ilike email w :
  fst (listNotesSharedWithEmail sqlNow ilike email w)
  = select_shared ilike email (diaryx_note w).
Proof.
  unfold listNotesSharedWithEmail. rewrite bind_eq. simpl.
  by rewrite ensureNotesTable_notes.
Qed.

Section DiscoveryResult.
Variable dateNow : Z.
Variable localeCompare : string -> string -> Z.
Variable fresh : string.

Lemma shared_notes_perm rows email :
  shared_notes dateNow localeCompare fresh rows email
  ≡ₚ kept dateNow fresh email rows ∅.
Proof.
  unfold shared_notes. rewrite sort_by_perm.
  by rewrite shared_loop_kept.
Qed.

Lemma shared_notes_granted rows email n :
  n ∈ shared_notes dateNow localeCompare fresh rows email ->
  hasSharedAccess n email = true.
Proof.
  rewrite shared_notes_perm. intros Hin.
  by destruct (kept_first _ _ _ _ _ _ Hin) as (? & ? & ? & _ & -> & ? & _).
Qed.

Lemma get_shared_notes_result sqlNow ilike user w notes w' :
  get_shared_notes sqlNow dateNow ilike localeCompare fresh user w
  = (SharedOk notes, w') ->
  exists rows email,
    notes = shared_notes dateNow localeCompare fresh rows email.
Proof.
  unfold get_shared_notes. destruct user as [user|]; [|done].
  destruct (negb _); [done|].
  rewrite bind_eq. intros [= <- _]. eauto.
Qed.

Lemma shared_notes_NoDup rows email :
  NoDup (id <$> shared_notes dateNow localeCompare fresh rows email).
Proof. rewrite shared_notes_perm. apply kept_NoDup. Qed.

Lemma shared_notes_first rows email n :
  n ∈ shared_notes dateNow localeCompare fresh rows email ->
  exists pre row post,
    rows = pre ++ row :: post /\ n = note_of_row dateNow fresh row /\
    hasSharedAccess n email = true /\
    forall r, r ∈ pre -> s_id r = s_id row ->
      hasSharedAccess (note_of_row dateNow fresh r) email = false.
Proof.
  rewrite shared_notes_perm. intros Hin.
  destruct (kept_first _ _ _ _ _ _ Hin)
    as (pre & row & post & -> & -> & Hg & Hpre).
  by exists pre, row, post.
Qed.

Lemma shared_notes_complete rows email row :
  row ∈ rows ->
  hasSharedAccess (note_of_row dateNow fresh row) email = true ->
  exists n, n ∈ shared_notes dateNow localeCompare fresh rows email /\
            id n = s_id row.
Proof.
  intros Hin Hg.
  destruct (kept_complete dateNow fresh email rows ∅ row Hin Hg)
    as [Hs|(n & Hn & Hid)]; [by apply elem_of_empty in Hs|].
  exists n. split; [|done]. by rewrite shared_notes_perm.
Qed.

(** The response of the shared-notes handler depends on the note table
    only. *)
Lemma get_shared_notes_reads_notes sqlNow ilike user w1 w2 :
  diaryx_note w1 = diaryx_note w2 ->
  fst (get_shared_notes sqlNow dateNow ilike localeCompare fresh user w1)
  = fst (get_shared_notes sqlNow dateNow ilike localeCompare fresh user w2).
Proof.
  intros Hw. unfold get_shared_notes.
  destruct user as [user|]; [|done].
  destruct (negb _); [done|].
  rewrite !bind_eq. simpl.
  by rewrite !listNotesSharedWithEmail_rows, Hw.
Qed.

Hypothesis localeCompare_anti :
  forall x y, Z.sgn (localeCompare y x) = - Z.sgn (localeCompare x y).
Hypothesis localeCompare_trans :
  forall x y z, localeCompare x y <= 0 -> localeCompare y z <= 0 ->
                localeCompare x z <= 0.

Lemma compare_notes_total a b :
  notes_le localeCompare a b = true \/ notes_le localeCompare b a = true.
Proof.
  unfold notes_le. rewrite !Z.leb_le, !compare_notes_order. unfold notes_order.
  pose proof (localeCompare_anti (id a) (id b)) as Hs.
  destruct (Z.lt_trichotomy (lastModified a) (lastModified b))
    as [?|[?|?]]; [lia| |lia].
  destruct (localeCompare (id a) (id b)), (localeCompare (id b) (id a));
    simpl in Hs; lia.
Qed.

Lemma compare_notes_trans a b c :
  notes_le localeCompare a b = true -> notes_le localeCompare b c = true ->
  notes_le localeCompare a c = true.
Proof.
  unfold notes_le. rewrite !Z.leb_le, !compare_notes_order. unfold notes_order.
  intros [?|[? ?]] [?|[? ?]]; try lia.
  right. split; [lia|]. eauto.
Qed.

Lemma shared_notes_sorted rows email :
  StronglySorted (notes_order localeCompare)
    (shared_notes dateNow localeCompare fresh rows email).
Proof.
  unfold shared_notes.
  eapply StronglySorted_weaken;
    [|apply (sort_by_sorted (notes_le localeCompare)
               compare_notes_total compare_notes_trans)].
  intros a b Hab. by apply compare_notes_order, Z.leb_le.
Qed.

(** Two granted candidates with the same timestamp, the second of which
    compares strictly before the first, come out swapped. *)
Lemma shared_notes_two r1 r2 email :
  s_id r1 <> s_id r2 ->
  s_last_modified r1 = s_last_modified r2 ->
  localeCompare (s_id r2) (s_id r1) < 0 ->
  hasSharedAccess (note_of_row dateNow fresh r1) email = true ->
  hasSharedAccess (note_of_row dateNow fresh r2) email = true ->
  id <$> shared_notes dateNow localeCompare fresh [r1; r2] email
  = [s_id r2; s_id r1].
Proof.
  intros Hne Hlm Hlt Hg1 Hg2.
  unfold shared_notes. simpl.
  rewrite Hg1, Hg2. simpl. rewrite !id_parseDiaryxString.
  destruct (decide (s_id r1 ∈ (∅ : gset string))) as [Hin|_];
    [by apply elem_of_empty in Hin|].
  destruct (decide (s_id r2 ∈ ({[s_id r1]} ∪ ∅ : gset string))) as [Hin|_].
  { apply elem_of_union in Hin as [Hin|Hin].
    - apply elem_of_singleton in Hin. congruence.
    - by apply elem_of_empty in Hin. }
  simpl. unfold compare_notes. simpl.
  rewrite !id_parseDiaryxString, Hlm, Z.sub_diag. simpl.
  pose proof (localeCompare_anti (s_id r2) (s_id r1)) as Hs.
  destruct (Z.leb_spec (localeCompare (s_id r1) (s_id r2)) 0) as [Hle|_].
  - destruct (localeCompare (s_id r2) (s_id r1)),
             (localeCompare (s_id r1) (s_id r2)); simpl in Hs; lia.
  - simpl. by rewrite !id_parseDiaryxString.
Qed.

End DiscoveryResult.

(* ================================================================== *)
(** ** Statements and tables *)
(* ================================================================== *)

Section StoreFacts.
Variable sqlNow : Z.

Lemma for_each_cons_snd {A} (f : A -> M bool) x l w :
  snd (for_each f (x :: l) w) = snd (for_each f l (snd (f x w))).
Proof. cbn [for_each]. by rewrite !bind_eq. Qed.

Lemma for_each_cons_fst {A} (f : A -> M bool) x l w :
  fst (for_each f (x :: l) w)
  = fst (f x w) && fst (for_each f l (snd (f x w))).
Proof. cbn [for_each]. by rewrite !bind_eq. Qed.

Lemma for_each_query_notes {A} (f : A -> Sql) l : forall w,
  diaryx_note (snd (for_each (fun x => query sqlNow (f x)) l w))
  = foldl (fun t x => sql_notes sqlNow (f x) t) (diaryx_note w) l.
Proof.
  induction l as [|x l IH]; intros w; [done|].
  rewrite for_each_cons_snd, IH. done.
Qed.

Lemma for_each_query_terms {A} (f : A -> Sql) l : forall w,
  diaryx_visibility_term (snd (for_each (fun x => query sqlNow (f x)) l w))
  = foldl (fun t x => sql_terms sqlNow (f x) t) (diaryx_visibility_term w) l.
Proof.
  induction l as [|x l IH]; intros w; [done|].
  rewrite for_each_cons_snd, IH. done.
Qed.

(** The promise is fulfilled when the store accepts every statement. *)
Lemma for_each_query_fst {A} (f : A -> Sql) l : forall w,
  fst (for_each (fun x => query sqlNow (f x)) l w)
  = forallb (fun x => accepted (f x)) l.
Proof.
  induction l as [|x l IH]; intros w; [done|].
  rewrite for_each_cons_fst, IH. done.
Qed.

Lemma foldl_id {A B} (f : B -> A -> B) (l : list A) (b : B) :
  (forall b x, f b x = b) -> foldl f b l = b.
Proof. intros H. revert b. induction l; intros b; simpl; [done|]. by rewrite H. Qed.

(** *** upsertNotesForUser *)

Lemma upsertNotesForUser_notes dateNow userId notes w :
  diaryx_note (snd (upsertNotesForUser sqlNow dateNow userId (Some notes) w))
  = foldl (fun t n => sql_notes sqlNow (upsert_of dateNow userId n) t)
          (diaryx_note w) notes.
Proof.
  destruct notes as [|n notes]; [done|].
  unfold upsertNotesForUser. rewrite bind_eq.
  rewrite (for_each_query_notes (upsert_of dateNow userId)).
  by rewrite ensureNotesTable_notes.
Qed.

Lemma upsertNotesForUser_terms dateNow userId notes w :
  diaryx_visibility_term
    (snd (upsertNotesForUser sqlNow dateNow userId notes w))
  = diaryx_visibility_term w.
Proof.
  destruct notes as [[|n notes]|]; [done| |done].
  unfold upsertNotesForUser. rewrite bind_eq.
  rewrite (for_each_query_terms (upsert_of dateNow userId)).
  rewrite foldl_id by done. apply ensureNotesTable_terms.
Qed.

Lemma sql_upsert_other u i md src lm t k :
  (u, i) <> k -> sql_notes sqlNow (UpsertNote u i md src lm) t !! k = t !! k.
Proof.
  intros Hne. simpl. destruct (bigint_ok lm); [|done]. simpl.
  destruct (t !! (u, i)) as [old|].
  - destruct (lm >=? last_modified old); [|done]. by rewrite lookup_insert_ne.
  - by rewrite lookup_insert_ne.
Qed.





(** The promise of [upsertNotesForUser] is fulfilled when every timestamp of
    the batch fits the column. *)
Lemma upsertNotesForUser_fst dateNow userId notes w :
  fst (upsertNotesForUser sqlNow dateNow userId (Some notes) w)
  = forallb (fun n => accepted (upsert_of dateNow userId n)) notes.
Proof.
  destruct notes as [|n notes]; [done|].
  unfold upsertNotesForUser. rewrite bind_eq.
  by rewrite (for_each_query_fst (upsert_of dateNow userId)).
Qed.

End StoreFacts.

(* ================================================================== *)
(** ** Objects *)
(* ================================================================== *)

Lemma string_eqb_decide (a b : string) : String.eqb a b = bool_decide (a = b).
Proof.
  destruct (String.eqb_spec a b).
  - by rewrite bool_decide_eq_true_2.
  - by rewrite bool_decide_eq_false_2.
Qed.

Lemma assoc_get_set k k' v l :
  Obj.assoc_get k (Obj.assoc_set k' v l)
  = if String.eqb k' k then Some v else Obj.assoc_get k l.
Proof.
  induction l as [|[k0 v0] l IH]; simpl.
  - by destruct (String.eqb k' k).
  - destruct (String.eqb_spec k0 k') as [->|Hne]; simpl.
    + by destruct (String.eqb k' k).
    + destruct (String.eqb_spec k0 k) as [->|Hne'].
      * destruct (String.eqb_spec k' k) as [->|_]; [done|done].
      * exact IH.
Qed.

Lemma assoc_set_keys k v l :
  (Obj.assoc_set k v l).*1
  = match Obj.assoc_get k l with Some _ => l.*1 | None => l.*1 ++ [k] end.
Proof.
  induction l as [|[k0 v0] l IH]; csimpl; [done|].
  destruct (String.eqb_spec k0 k) as [->|Hne]; csimpl; [done|].
  rewrite IH. by destruct (Obj.assoc_get k l).
Qed.

Lemma assoc_get_None k l : Obj.assoc_get k l = None <-> k ∉ l.*1.
Proof.
  induction l as [|[k0 v0] l IH]; csimpl.
  - split; [intros _; apply not_elem_of_nil|done].
  - rewrite not_elem_of_cons, <- IH.
    destruct (String.eqb_spec k0 k) as [->|Hne];
      [split; [done|by intros [? _]]|].
    split; [|by intros [_ ?]]. intros ?. split; [congruence|done].
Qed.

Lemma assoc_set_NoDup k v l : NoDup l.*1 -> NoDup (Obj.assoc_set k v l).*1.
Proof.
  intros Hl. rewrite assoc_set_keys.
  destruct (Obj.assoc_get k l) eqn:E; [done|].
  apply assoc_get_None in E.
  apply NoDup_app. split; [done|]. split; [|apply NoDup_singleton].
  intros x Hx ->%list_elem_of_singleton. done.
Qed.

Lemma assoc_get_elem k v l :
  NoDup l.*1 -> (Obj.assoc_get k l = Some v <-> (k, v) ∈ l).
Proof.
  induction l as [|[k0 v0] l IH]; csimpl; intros Hnd.
  - split; [done|by intros ?%elem_of_nil].
  - apply NoDup_cons in Hnd as [Hk0 Hnd].
    rewrite elem_of_cons.
    destruct (String.eqb_spec k0 k) as [->|Hne].
    + split; [intros [= ->]; by left|].
      intros [[= ->]|Hin]; [done|].
      destruct Hk0. apply list_elem_of_fmap. by exists (k, v).
    + rewrite (IH Hnd). split; [by right|]. intros [[= ? ?]|?]; [done|done].
Qed.

Lemma fromEntries_snoc l e :
  Obj.fromEntries (l ++ [e]) = Obj.define (fst e) (snd e) (Obj.fromEntries l).
Proof. unfold Obj.fromEntries. by rewrite foldl_app. Qed.

Lemma fromEntries_NoDup l : NoDup (Obj.own (Obj.fromEntries l)).*1.
Proof.
  induction l as [|e l IH] using rev_ind; [constructor|].
  rewrite fromEntries_snoc. simpl. by apply assoc_set_NoDup.
Qed.

(** Reading a key of [Object.fromEntries(l)] gives its last entry in [l]. *)
Lemma fromEntries_get k l :
  Obj.assoc_get k (Obj.own (Obj.fromEntries l)) = last_binding k l.
Proof.
  induction l as [|e l IH] using rev_ind; [done|].
  rewrite fromEntries_snoc. simpl. rewrite assoc_get_set, IH.
  unfold last_binding. rewrite filter_app, filter_cons, filter_nil.
  rewrite string_eqb_decide. simpl.
  destruct (decide (e.1 = k)) as [E|E].
  - rewrite bool_decide_eq_true_2 by done. by rewrite last_snoc.
  - rewrite bool_decide_eq_false_2 by done. by rewrite app_nil_r.
Qed.

Lemma entries_perm o : Obj.entries o ≡ₚ Obj.own o.
Proof.
  unfold Obj.entries. rewrite sort_by_perm. apply filter_app_complement.
Qed.

(* ================================================================== *)
(** ** Replacing the visibility terms of a user *)
(* ================================================================== *)

Section TermFacts.
Variable sqlNow : Z.

Lemma insert_terms_other u l : forall t u' k,
  u' <> u -> insert_terms sqlNow u l t !! (u', k) = t !! (u', k).
Proof.
  induction l as [|e l IH]; intros t u' k Hne; simpl; [done|].
  unfold insert_terms in *. simpl. rewrite IH by done.
  apply lookup_insert_ne. congruence.
Qed.

Lemma insert_terms_absent u l : forall t k,
  k ∉ l.*1 -> insert_terms sqlNow u l t !! (u, k) = t !! (u, k).
Proof.
  induction l as [|e l IH]; intros t k Hk; [done|].
  rewrite fmap_cons in Hk. apply not_elem_of_cons in Hk as [Hne Hk].
  unfold insert_terms in *. simpl. rewrite IH by done.
  apply lookup_insert_ne. congruence.
Qed.

Lemma insert_terms_present u l : forall t k es,
  NoDup l.*1 -> (k, es) ∈ l ->
  insert_terms sqlNow u l t !! (u, k) = Some (mkTermRow es sqlNow).
Proof.
  induction l as [|e l IH]; intros t k es Hnd Hin.
  - by apply elem_of_nil in Hin.
  - rewrite fmap_cons in Hnd. apply NoDup_cons in Hnd as [He Hnd].
    apply elem_of_cons in Hin as [<-|Hin].
    + change (insert_terms sqlNow u l (<[(u, k) := mkTermRow es sqlNow]> t)
              !! (u, k) = Some (mkTermRow es sqlNow)).
      rewrite insert_terms_absent by done. apply lookup_insert_eq.
    + change (insert_terms sqlNow u l (<[(u, e.1) := mkTermRow e.2 sqlNow]> t)
              !! (u, k) = Some (mkTermRow es sqlNow)).
      by apply IH.
Qed.

Lemma delete_terms_lookup (u : string)
    (t : gmap (string * string) TermRow) (u' k : string) :
  filter (fun kv : (string * string) * TermRow => fst (fst kv) <> u) t
    !! (u', k)
  = if decide (u' = u) then None else t !! (u', k).
Proof.
  destruct (decide (u' = u)) as [->|Hne].
  - apply map_lookup_filter_None. right. intros x _. simpl. by intros [].
  - destruct (t !! (u', k)) as [x|] eqn:E.
    + by apply map_lookup_filter_Some.
    + apply map_lookup_filter_None. by left.
Qed.

(** The DELETE is always accepted: the helper goes on to its INSERTs. *)
Lemma updateVisibilityTermsForUser_eq userId terms w :
  updateVisibilityTermsForUser sqlNow userId terms w
  = match term_entries terms with
    | [] => ret true
    | _ =>
        for_each (fun e => query sqlNow (InsertTerm userId (fst e) (snd e)))
                 (term_entries terms)
    end (snd (query sqlNow (DeleteTermsOf userId)
                (snd (ensureNotesTable sqlNow w)))).
Proof. unfold updateVisibilityTermsForUser. by rewrite !bind_eq. Qed.

Lemma updateVisibilityTermsForUser_terms userId terms w :
  diaryx_visibility_term
    (snd (updateVisibilityTermsForUser sqlNow userId terms w))
  = insert_terms sqlNow userId (term_entries terms)
      (filter (fun kv => fst (fst kv) <> userId) (diaryx_visibility_term w)).
Proof.
  rewrite updateVisibilityTermsForUser_eq.
  destruct (term_entries terms) as [|e l] eqn:E.
  - simpl. by rewrite ensureNotesTable_terms.
  - rewrite (for_each_query_terms sqlNow
               (fun e => InsertTerm userId (fst e) (snd e))).
    simpl. by rewrite ensureNotesTable_terms.
Qed.

Lemma updateVisibilityTermsForUser_notes userId terms w :
  diaryx_note (snd (updateVisibilityTermsForUser sqlNow userId terms w))
  = diaryx_note w.
Proof.
  rewrite updateVisibilityTermsForUser_eq.
  destruct (term_entries terms) as [|e l] eqn:E.
  - simpl. by rewrite ensureNotesTable_notes.
  - rewrite (for_each_query_notes sqlNow
               (fun e => InsertTerm userId (fst e) (snd e))).
    rewrite foldl_id by done. simpl. by rewrite ensureNotesTable_notes.
Qed.

Lemma term_entries_keys terms :
  (term_entries terms).*1 ≡ₚ (Obj.own terms).*1.
Proof.
  unfold term_entries. rewrite <- (entries_perm terms).
  rewrite <- list_fmap_compose.
  induction (Obj.entries terms) as [|e l IH]; csimpl; [done|].
  by rewrite <- IH.
Qed.

Lemma term_entries_elem terms k es :
  (k, es) ∈ Obj.own terms ->
  (k, normalize_emails es) ∈ term_entries terms.
Proof.
  intros Hin. rewrite <- entries_perm in Hin. unfold term_entries.
  apply list_elem_of_In, in_map_iff. exists (k, es).
  split; [done|]. by apply list_elem_of_In.
Qed.

(** The rows of [userId] after the replacement are the submitted ones; the
    rows of everyone else are kept. *)
Lemma updateVisibilityTermsForUser_lookup userId l w u k :
  diaryx_visibility_term
    (snd (updateVisibilityTermsForUser sqlNow userId (Obj.fromEntries l) w))
    !! (u, k)
  = if decide (u = userId)
    then (fun es => mkTermRow (normalize_emails es) sqlNow)
           <$> last_binding k l
    else diaryx_visibility_term w !! (u, k).
Proof.
  rewrite updateVisibilityTermsForUser_terms.
  destruct (decide (u = userId)) as [->|Hne].
  - rewrite <- fromEntries_get.
    destruct (Obj.assoc_get k (Obj.own (Obj.fromEntries l))) as [es|] eqn:E.
    + simpl. apply insert_terms_present.
      * rewrite term_entries_keys. apply fromEntries_NoDup.
      * apply term_entries_elem, assoc_get_elem; [|done].
        apply fromEntries_NoDup.
    + simpl. rewrite insert_terms_absent.
      * rewrite delete_terms_lookup. by rewrite decide_True.
      * rewrite term_entries_keys. by apply assoc_get_None.
  - rewrite insert_terms_other by done.
    rewrite delete_terms_lookup. by rewrite decide_False.
Qed.

End TermFacts.

(* ================================================================== *)
(** ** What the handlers do to the tables *)
(* ================================================================== *)

Section HandlerFacts.
Variable sqlNow : Z.
Variable dateNow : Z.
Variable term_le : string -> string -> bool.
Variable sched : list bool.
Variable ToNumber : json -> option jsnum.

Lemma notes_response_terms userId w :
  diaryx_visibility_term (snd (notes_response term_le sched userId w))
  = diaryx_visibility_term w.
Proof. unfold notes_response. by rewrite bind_eq. Qed.

Lemma deleteNoteForUser_terms userId noteId w :
  diaryx_visibility_term (snd (deleteNoteForUser sqlNow userId noteId w))
  = diaryx_visibility_term w.
Proof.
  unfold deleteNoteForUser. rewrite bind_eq. simpl.
  apply ensureNotesTable_terms.
Qed.

(** A DELETE is always accepted. *)
Lemma deleteNoteForUser_fst userId noteId w :
  fst (deleteNoteForUser sqlNow userId noteId w) = true.
Proof. unfold deleteNoteForUser. by rewrite bind_eq. Qed.

Lemma listNotesSharedWithEmail_terms ilike email w :
  diaryx_visibility_term (snd (listNotesSharedWithEmail sqlNow ilike email w))
  = diaryx_visibility_term w.
Proof.
  unfold listNotesSharedWithEmail. rewrite bind_eq. simpl.
  apply ensureNotesTable_terms.
Qed.

(** So is every statement of [updateVisibilityTermsForUser]. *)
Lemma updateVisibilityTermsForUser_fst userId terms w :
  fst (updateVisibilityTermsForUser sqlNow userId terms w) = true.
Proof.
  rewrite updateVisibilityTermsForUser_eq.
  destruct (term_entries terms) as [|e l]; [done|].
  rewrite (for_each_query_fst sqlNow
             (fun e => InsertTerm userId (fst e) (snd e))).
  by apply forallb_forall.
Qed.

Abbreviation post user payload :=
  (post_notes sqlNow dateNow term_le sched ToNumber (Some user) (Some payload)).

(** The step of the handler that stores the notes, and the one that
    replaces the terms. *)
Abbreviation store_step user notes :=
  (upsertNotesForUser sqlNow dateNow (u_id user) (Some notes)).
Abbreviation terms_step user payload :=
  (match validTerms payload with
   | [] => ret true
   | _ :: _ =>
       updateVisibilityTermsForUser sqlNow (u_id user)
         (Obj.fromEntries (validTerms payload))
   end).

Lemma post_notes_error user payload w :
  validNotes dateNow ToNumber payload = None ->
  post user payload w = (ServerError, w).
Proof. intros Hno. unfold post_notes. by rewrite Hno. Qed.

(** A batch with a timestamp that does not fit the column: the accepted
    notes are stored, the handler answers 500 and goes no further. *)
Lemma post_notes_rejected user payload notes w :
  validNotes dateNow ToNumber payload = Some notes ->
  batch_accepted dateNow notes = false ->
  post user payload w = (ServerError, snd (store_step user notes w)).
Proof.
  intros Hn Hrej. unfold post_notes. rewrite Hn. rewrite bind_eq.
  assert (match notes with
          | [] => ret true
          | _ :: _ => store_step user notes
          end = store_step user notes) as -> by by destruct notes.
  rewrite upsertNotesForUser_fst.
  change (forallb _ notes) with (batch_accepted dateNow notes).
  by rewrite Hrej.
Qed.

(** A batch whose timestamps all fit: the notes are stored, the terms
    replaced if there is a valid one, and the answer is the listing. *)
Lemma post_notes_accepted user payload notes w :
  validNotes dateNow ToNumber payload = Some notes ->
  batch_accepted dateNow notes = true ->
  post user payload w
  = notes_response term_le sched (u_id user)
      (snd (terms_step user payload (snd (store_step user notes w)))).
Proof.
  intros Hn Hacc. unfold post_notes. rewrite Hn. rewrite bind_eq.
  assert (match notes with
          | [] => ret true
          | _ :: _ => store_step user notes
          end = store_step user notes) as -> by by destruct notes.
  rewrite upsertNotesForUser_fst.
  change (forallb _ notes) with (batch_accepted dateNow notes).
  rewrite Hacc. cbn [negb]. rewrite bind_eq.
  assert (fst (terms_step user payload (snd (store_step user notes w))) = true)
    as Hok.
  { destruct (validTerms payload); [done|].
    apply updateVisibilityTermsForUser_fst. }
  destruct (validTerms payload) as [|e l] eqn:E.
  - done.
  - rewrite Hok. done.
Qed.

(** Without a valid term the term table is not touched. *)
Lemma post_notes_no_valid_term user payload w :
  validTerms payload = [] ->
  diaryx_visibility_term (snd (post user payload w))
  = diaryx_visibility_term w.
Proof.
  intros Hno.
  destruct (validNotes dateNow ToNumber payload) as [notes|] eqn:En;
    [|by rewrite post_notes_error].
  destruct (batch_accepted dateNow notes) eqn:Ea.
  - rewrite (post_notes_accepted _ _ notes) by done.
    rewrite notes_response_terms, Hno. cbn [ret snd].
    apply upsertNotesForUser_terms.
  - rewrite (post_notes_rejected _ _ notes) by done. cbn [snd].
    apply upsertNotesForUser_terms.
Qed.

(** Nor is it when the store rejects a note. *)
Lemma post_notes_rejected_terms user payload notes w :
  validNotes dateNow ToNumber payload = Some notes ->
  batch_accepted dateNow notes = false ->
  diaryx_visibility_term (snd (post user payload w))
  = diaryx_visibility_term w.
Proof.
  intros Hn Hrej. rewrite (post_notes_rejected _ _ notes) by done.
  cbn [snd]. apply upsertNotesForUser_terms.
Qed.

(** With a valid term, and the notes stored, the rows of the user become
    the submitted ones. *)
Lemma post_notes_valid_terms user payload w notes u k :
  validNotes dateNow ToNumber payload = Some notes ->
  batch_accepted dateNow notes = true ->
  validTerms payload <> [] ->
  diaryx_visibility_term (snd (post user payload w)) !! (u, k)
  = if decide (u = u_id user)
    then (fun es => mkTermRow (normalize_emails es) sqlNow)
           <$> last_binding k (validTerms payload)
    else diaryx_visibility_term w !! (u, k).
Proof.
  intros Hnotes Hacc Hterms.
  rewrite (post_notes_accepted _ _ notes) by done.
  rewrite notes_response_terms.
  destruct (validTerms payload) as [|e l] eqn:E; [done|].
  rewrite updateVisibilityTermsForUser_lookup.
  destruct (decide (u = u_id user)); [done|].
  by rewrite upsertNotesForUser_terms.
Qed.

End HandlerFacts.

(* ================================================================== *)
(** ** Normal form of the stored emails *)
(* ================================================================== *)

Lemma dedup_first_elem l : forall seen x, x ∈ dedup_first seen l -> x ∈ l.
Proof.
  induction l as [|y l IH]; intros seen x; simpl; [done|].
  destruct (existsb _ seen).
  - intros ?%IH. by right.
  - intros [->|?%IH]%elem_of_cons; [by left|by right].
Qed.

Lemma dedup_first_fresh l : forall seen x,
  x ∈ dedup_first seen l -> x ∉ seen.
Proof.
  induction l as [|y l IH]; intros seen x; simpl.
  - by intros ?%elem_of_nil.
  - destruct (existsb (String.eqb y) seen) eqn:E; [apply IH|].
    intros [->|Hin]%elem_of_cons.
    + intros Hin. apply list_elem_of_In in Hin.
      assert (existsb (String.eqb y) seen = true) as Ht; [|congruence].
      apply existsb_exists. exists y. split; [done|apply String.eqb_refl].
    + apply IH in Hin. intros Hs. apply Hin. by right.
Qed.

Lemma dedup_first_NoDup l : forall seen, NoDup (dedup_first seen l).
Proof.
  induction l as [|y l IH]; intros seen; simpl; [constructor|].
  destruct (existsb _ seen); [apply IH|].
  constructor; [|apply IH].
  intros Hin%dedup_first_fresh. apply Hin. by left.
Qed.

Lemma submitted_ok_stored e :
  submitted_ok e -> Js.toLowerCase (Js.trim e) = e /\ stored_email_ok e.
Proof.
  intros [[s ->] Hat].
  assert (Js.toLowerCase (Js.trim (Js.toLowerCase (Js.trim s)))
          = Js.toLowerCase (Js.trim s)) as Hfix by apply normal_form_fixed.
  split; [done|]. repeat split.
  - apply normal_form_trim.
  - apply toLowerCase_idem.
  - done.
  - by apply includes_nonempty in Hat.
Qed.

Lemma normalize_emails_ok es :
  Forall submitted_ok es ->
  NoDup (normalize_emails es) /\ Forall stored_email_ok (normalize_emails es).
Proof.
  intros Hes. unfold normalize_emails. split; [apply dedup_first_NoDup|].
  apply Forall_forall. intros x Hx%dedup_first_elem.
  apply list_elem_of_filter in Hx as [_ Hx].
  apply list_elem_of_In, in_map_iff in Hx as (e & <- & He).
  apply list_elem_of_In in He.
  rewrite Forall_forall in Hes.
  destruct (submitted_ok_stored e (Hes e He)) as [-> Hok]. done.
Qed.

Lemma to_term_emails item : Forall submitted_ok (snd (to_term item)).
Proof.
  unfold to_term. simpl.
  destruct (prop "emails" item) as [[| | | |es|]|]; try constructor.
  apply Forall_forall. intros e He.
  apply list_elem_of_filter in He as [Hat He].
  apply list_elem_of_In, in_map_iff in He as (j & <- & _).
  split; [|done].
  destruct j as [| | |s| |]; simpl in Hat; try done.
  by exists s.
Qed.

Lemma validTerms_emails payload k es :
  (k, es) ∈ validTerms payload -> Forall submitted_ok es.
Proof.
  unfold validTerms. intros [_ Hin]%list_elem_of_filter.
  apply list_elem_of_In, in_map_iff in Hin as (item & E & _).
  pose proof (to_term_emails item) as H. by rewrite E in H.
Qed.

Lemma last_binding_elem k l es : last_binding k l = Some es -> (k, es) ∈ l.
Proof.
  unfold last_binding. intros H.
  apply fmap_Some in H as ([k' es'] & Hl & ->).
  apply last_Some_elem_of, list_elem_of_filter in Hl as [E Hl].
  simpl in E. by subst k'.
Qed.

(* ================================================================== *)
(** ** The invariant of the term table *)
(* ================================================================== *)

(** No request breaks the invariant. *)
Lemma terms_ok_step env req w :
  terms_ok (diaryx_visibility_term w) ->
  terms_ok (diaryx_visibility_term (snd (handle env req w))).
Proof.
  intros Hok. destruct req as [user|user payload|user noteId|user]; simpl.
  - unfold get_notes. destruct user; [|done]. by rewrite notes_response_terms.
  - destruct user as [user|]; [|done]. destruct payload as [payload|]; [|done].
    destruct (validNotes (e_dateNow env) (e_ToNumber env) payload)
      as [notes|] eqn:En; [|by rewrite post_notes_error].
    destruct (validTerms payload) as [|e l] eqn:Et.
    { by rewrite post_notes_no_valid_term. }
    destruct (batch_accepted (e_dateNow env) notes) eqn:Ea;
      [|by rewrite (post_notes_rejected_terms _ _ _ _ _ _ _ notes)].
    intros owner term row.
    rewrite (post_notes_valid_terms _ _ _ _ _ _ _ _ notes)
      by (done || by rewrite Et).
    destruct (decide (owner = u_id user)); [|apply Hok].
    rewrite Et. intros Hrow.
    apply fmap_Some in Hrow as (es & Hb & ->). simpl.
    apply normalize_emails_ok.
    apply last_binding_elem in Hb. rewrite <- Et in Hb.
    by eapply validTerms_emails.
  - unfold delete_note. destruct user; [|done].
    destruct (negb _); [done|]. rewrite bind_eq.
    rewrite deleteNoteForUser_fst. cbn [negb ret snd].
    by rewrite deleteNoteForUser_terms.
  - unfold get_shared_notes. destruct user; [|done].
    destruct (negb _); [done|]. rewrite bind_eq. simpl.
    by rewrite listNotesSharedWithEmail_terms.
Qed.

Lemma reachable_terms_ok w : reachable w -> terms_ok (diaryx_visibility_term w).
Proof.
  induction 1 as [|w env req _ IH].
  - intros owner term row H. simpl in H. by rewrite lookup_empty in H.
  - by apply terms_ok_step.
Qed.

Lemma code_unit_compare_anti x y :
  Z.sgn (code_unit_compare y x) = - Z.sgn (code_unit_compare x y).
Proof.
  unfold code_unit_compare. rewrite (String.compare_antisym x y).
  by destruct (String.compare y x).
Qed.

Lemma code_unit_compare_le x y :
  code_unit_compare x y <= 0 <-> String.le x y.
Proof.
  unfold code_unit_compare, String.le, String.leb.
  destruct (String.compare x y); simpl; split; (done || lia).
Qed.

Lemma code_unit_compare_trans x y z :
  code_unit_compare x y <= 0 -> code_unit_compare y z <= 0 ->
  code_unit_compare x z <= 0.
Proof. rewrite !code_unit_compare_le. apply transitivity. Qed.

Lemma code_unit_compare_zero x y : code_unit_compare x y = 0 -> x = y.
Proof.
  unfold code_unit_compare.
  destruct (String.compare x y) eqn:E; [|done|done].
  intros _. by apply String.compare_eq_iff.
Qed.

(** The comparator of the examples is consistent as well. *)
Lemma letter_compare_eq x y :
  letter_compare x y
  = if code_unit_compare (Js.toLowerCase x) (Js.toLowerCase y) =? 0
    then code_unit_compare y x
    else code_unit_compare (Js.toLowerCase x) (Js.toLowerCase y).
Proof.
  unfold letter_compare.
  assert (code_unit_compare (Js.toLowerCase x) (Js.toLowerCase y)
          = match String.compare (Js.toLowerCase x) (Js.toLowerCase y) with
            | Lt => -1 | Eq => 0 | Gt => 1
            end) as -> by reflexivity.
  by destruct (String.compare (Js.toLowerCase x) (Js.toLowerCase y)).
Qed.

Lemma letter_compare_anti x y :
  Z.sgn (letter_compare y x) = - Z.sgn (letter_compare x y).
Proof.
  rewrite !letter_compare_eq.
  pose proof (code_unit_compare_anti (Js.toLowerCase x) (Js.toLowerCase y))
    as Hp.
  pose proof (code_unit_compare_anti y x) as Ht.
  destruct (Z.eqb_spec (code_unit_compare (Js.toLowerCase x)
                          (Js.toLowerCase y)) 0) as [E|E];
  destruct (Z.eqb_spec (code_unit_compare (Js.toLowerCase y)
                          (Js.toLowerCase x)) 0) as [E'|E']; lia.
Qed.

Lemma code_unit_compare_opp x y :
  code_unit_compare y x = - code_unit_compare x y.
Proof.
  unfold code_unit_compare. rewrite (String.compare_antisym x y).
  by destruct (String.compare y x).
Qed.

Lemma letter_compare_trans x y z :
  letter_compare x y <= 0 -> letter_compare y z <= 0 ->
  letter_compare x z <= 0.
Proof.
  rewrite !letter_compare_eq.
  pose proof (code_unit_compare_trans z y x) as Ht.
  revert Ht.
  generalize (code_unit_compare y x), (code_unit_compare z y),
    (code_unit_compare z x).
  generalize (Js.toLowerCase x), (Js.toLowerCase y), (Js.toLowerCase z).
  intros px py pz t1 t2 t3 Ht.
  pose proof (code_unit_compare_trans px py pz) as Hp.
  destruct (Z.eqb_spec (code_unit_compare px py) 0) as [E1|E1].
  { apply code_unit_compare_zero in E1 as ->.
    destruct (Z.eqb_spec (code_unit_compare py pz) 0); lia. }
  destruct (Z.eqb_spec (code_unit_compare py pz) 0) as [E2|E2].
  { apply code_unit_compare_zero in E2 as ->.
    destruct (Z.eqb_spec (code_unit_compare px pz) 0); lia. }
  destruct (Z.eqb_spec (code_unit_compare px pz) 0) as [E3|E3]; [|lia].
  apply code_unit_compare_zero in E3 as ->.
  pose proof (code_unit_compare_opp pz py). lia.
Qed.

(* ================================================================== *)
(** ** The claims of the specification *)
(* ================================================================== *)

(** *** C1: scenario A *)

(** The claim as stated fails: with alice@x.com listed under the term
    friends in the owner's term table, the note parsed from the document of
    scenario A still denies her. *)
Lemma C1_counterexample :
  ~ (forall (w : World) (owner : string) (row : TermRow) (dateNow : Z)
            (fresh : string),
       diaryx_visibility_term w !! (owner, "friends") = Some row ->
       "alice@x.com" ∈ emails row ->
       let note := parseDiaryxString dateNow fresh scenario_A (Some "n1") None in
       hasSharedAccess note "alice@x.com" = true /\
       hasSharedAccess note "bob@x.com" = false).
Proof.
  intros H.
  destruct (H stored_world "u1" (mkTermRow ["alice@x.com"] 0) 0 "id")
    as [Halice _].
  - apply lookup_singleton_eq.
  - by left.
  - vm_compute in Halice. discriminate Halice.
Qed.

(** C1, amended.  The note parsed from the document of scenario A has the
    visibility list [friends] and no [visibility_emails], and
    [hasSharedAccess] denies alice@x.com and bob@x.com alike.  When the
    document itself lists alice@x.com under friends, [hasSharedAccess]
    grants alice@x.com and denies bob@x.com.  More generally, for a note
    with that visibility whose own metadata maps friends to a list [l], the
    answer for an email is whether [l] holds it, compared lower-cased and
    the email trimmed. *)
Theorem C1_scenario_A_needs_embedded_listing (dateNow : Z) (fresh : string)
    (opt_id opt_src : option string) :
  let given := parseDiaryxString dateNow fresh scenario_A opt_id opt_src in
  let listed :=
    parseDiaryxString dateNow fresh scenario_A_listed opt_id opt_src in
  visibility (metadata given) = VArray ["friends"] /\
  visibility_emails (metadata given) = None /\
  hasSharedAccess given "alice@x.com" = false /\
  hasSharedAccess given "bob@x.com" = false /\
  visibility (metadata listed) = VArray ["friends"] /\
  visibility_emails (metadata listed)
  = Some (Obj.mk [("friends", ["alice@x.com"])] None) /\
  hasSharedAccess listed "alice@x.com" = true /\
  hasSharedAccess listed "bob@x.com" = false /\
  (forall l email,
     hasSharedAccess
       (mkNote (id given) (body given)
               (mkMetadata (visibility (metadata given))
                           (Some (Obj.mk [("friends", l)] None)))
               (frontmatter given) (sourceName given)
               (autoUpdateTimestamp given) (lastModified given))
       email
     = lists_email l (Js.toLowerCase (Js.trim email))).
Proof.
  repeat split; try (vm_compute; reflexivity).
  intros l email. unfold hasSharedAccess.
  replace (visibility (metadata _)) with (VArray ["friends"])
    by (vm_compute; reflexivity).
  set (lowerEmail := Js.toLowerCase (Js.trim email)). clearbody lowerEmail.
  cbv -[lists_email orb].
  by destruct (lists_email l lowerEmail).
Qed.

(** *** C2: merge monotonicity *)




(** *** C3: replacement of the visibility terms *)




(** *** C4: stored emails *)

(** C4.  In every state of the store that requests can produce, every
    record of the term table holds a list of emails without duplicates, each
    of them trimmed, lower-cased, not empty and holding an at sign: an email
    submitted without one is never stored. *)
Theorem C4_stored_emails_normalized (w : World) (H : reachable w)
    (owner term : string) (row : TermRow)
    (Hrow : diaryx_visibility_term w !! (owner, term) = Some row) :
  NoDup (emails row) /\
  Forall stored_email_ok (emails row) /\
  (forall e, e ∈ emails row ->
     Js.trim e = e /\ Js.toLowerCase e = e /\ e <> EmptyString /\
     Js.includes_char e "@"%char = true).
Proof.
  destruct (reachable_terms_ok w H owner term row Hrow) as [Hnd Hall].
  split; [done|]. split; [done|].
  intros e He. rewrite Forall_forall in Hall.
  destruct (Hall e He) as (? & ? & ? & ?). done.
Qed.

Lemma C4_witness :
  NoDup ["alice@x.com"] /\
  Forall stored_email_ok ["alice@x.com"] /\
  (forall e, e ∈ ["alice@x.com"] ->
     Js.trim e = e /\ Js.toLowerCase e = e /\ e <> EmptyString /\
     Js.includes_char e "@"%char = true).
Proof.
  apply (C4_stored_emails_normalized demo_world
           (reach_step _ _ _ reach_initial) "u1" "friends"
           (mkTermRow ["alice@x.com"] 7)).
  vm_compute. reflexivity.
Defined.

(** *** C5: no visibility, no access *)

(** C5.  A note whose [visibility] is absent, or normalizes to the empty
    list, is denied to every viewer by [hasSharedAccess]; it is in the
    output of the discovery for no rows and no viewer, and in no response of
    the shared-notes handler. *)
Theorem C5_no_visibility_is_private (dateNow : Z)
    (localeCompare : string -> string -> Z) (fresh : string)
    (note : DiaryxNote)
    (H : visibility (metadata note) = VUndefined \/
         toVisibilityArray (visibility (metadata note)) = []) :
  (forall email, hasSharedAccess note email = false) /\
  (forall rows email,
     note ∉ shared_notes dateNow localeCompare fresh rows email) /\
  (forall sqlNow ilike user w notes w',
     get_shared_notes sqlNow dateNow ilike localeCompare fresh user w
     = (SharedOk notes, w') -> note ∉ notes).
Proof.
  assert (forall email, hasSharedAccess note email = false) as Hno.
  { intros email. apply hasSharedAccess_no_terms.
    destruct H as [H|H]; [by rewrite H|done]. }
  split; [done|]. split.
  - intros rows email Hin. apply shared_notes_granted in Hin. congruence.
  - intros sqlNow ilike user w notes w' Hr Hin.
    apply get_shared_notes_result in Hr as (rows & email & ->).
    apply shared_notes_granted in Hin. congruence.
Qed.

Lemma C5_witness :
  (forall email, hasSharedAccess private_note email = false) /\
  (forall rows email,
     private_note ∉ shared_notes 0 letter_compare "id" rows email) /\
  (forall sqlNow ilike user w notes w',
     get_shared_notes sqlNow 0 ilike letter_compare "id" user w
     = (SharedOk notes, w') -> private_note ∉ notes).
Proof.
  apply (C5_no_visibility_is_private 0 letter_compare "id" private_note).
  left. reflexivity.
Defined.

(** *** C6: scenario B *)

(** C6.  Parsing the block-form document of scenario B yields the
    visibility list [friends] and the mapping of friends to the list
    [alice@x.com]. *)
Theorem C6_scenario_B_block_form (dateNow : Z) (fresh : string)
    (opt_id opt_src : option string) :
  let note := parseDiaryxString dateNow fresh scenario_B opt_id opt_src in
  visibility (metadata note) = VArray ["friends"] /\
  visibility_emails (metadata note)
  = Some (Obj.mk [("friends", ["alice@x.com"])] None) /\
  body note = "Body text".
Proof. repeat split; vm_compute; reflexivity. Qed.

(** *** C7: deduplication and order of the discovery *)

(** The claim as stated, with the lexical comparison read as the order of
    code units, fails: the handler breaks ties with [localeCompare], and a
    collation that, like the one of the runtime, puts a before B returns
    two access-granted candidates with the same [lastModified] and the ids
    B and a as a, B, where the order of code units puts B first. *)
Lemma C7_counterexample :
  ~ (forall dateNow localeCompare fresh,
       (forall x y,
          Z.sgn (localeCompare y x) = - Z.sgn (localeCompare x y)) ->
       (forall x y z, localeCompare x y <= 0 -> localeCompare y z <= 0 ->
                      localeCompare x z <= 0) ->
       localeCompare "a" "b" < 0 ->
       localeCompare "a" "B" < 0 ->
       forall rows userEmail,
         StronglySorted (notes_order code_unit_compare)
           (shared_notes dateNow localeCompare fresh rows userEmail)).
Proof.
  intros H.
  specialize (H 0 letter_compare "id" letter_compare_anti
                letter_compare_trans eq_refl eq_refl [row_B; row_a]
                "alice@x.com").
  assert (shared_notes 0 letter_compare "id" [row_B; row_a] "alice@x.com"
          = [note_of_row 0 "id" row_a; note_of_row 0 "id" row_B]) as E
    by (vm_compute; reflexivity).
  rewrite E in H. apply StronglySorted_inv in H as [_ H].
  apply Forall_cons in H as [[H|[_ H]] _].
  - vm_compute in H. discriminate H.
  - vm_compute in H. by apply H.
Qed.

(** C7, amended.  The handler breaks ties with [localeCompare], a parameter
    of which only consistency is assumed, and that it puts a before b: the
    output of the discovery has at most one note per id; each note in it
    comes from the first access-granted row with its id, in the order of the
    candidate rows; every access-granted row is represented; the output is
    sorted by descending [lastModified], ties by ascending order of [id]
    under [localeCompare]; two access-granted candidates with the same
    [lastModified] and the ids b and a come out as a, b; and, whatever
    their ids, two such candidates come out with the id first that
    [localeCompare] puts first. *)
Theorem C7_discovery_dedup_and_order (dateNow : Z)
    (localeCompare : string -> string -> Z) (fresh : string)
    (localeCompare_anti :
       forall x y, Z.sgn (localeCompare y x) = - Z.sgn (localeCompare x y))
    (localeCompare_trans :
       forall x y z, localeCompare x y <= 0 -> localeCompare y z <= 0 ->
                     localeCompare x z <= 0)
    (a_before_b : localeCompare "a" "b" < 0)
    (rows : list DbSharedNote) (userEmail : string) :
  let out := shared_notes dateNow localeCompare fresh rows userEmail in
  NoDup (id <$> out) /\
  (forall n, n ∈ out ->
     exists pre row post,
       rows = pre ++ row :: post /\ n = note_of_row dateNow fresh row /\
       hasSharedAccess n userEmail = true /\
       forall r, r ∈ pre -> s_id r = s_id row ->
         hasSharedAccess (note_of_row dateNow fresh r) userEmail = false) /\
  (forall row, row ∈ rows ->
     hasSharedAccess (note_of_row dateNow fresh row) userEmail = true ->
     exists n, n ∈ out /\ id n = s_id row) /\
  StronglySorted (notes_order localeCompare) out /\
  (forall r1 r2,
     s_id r1 = "b" -> s_id r2 = "a" ->
     s_last_modified r1 = s_last_modified r2 ->
     hasSharedAccess (note_of_row dateNow fresh r1) userEmail = true ->
     hasSharedAccess (note_of_row dateNow fresh r2) userEmail = true ->
     id <$> shared_notes dateNow localeCompare fresh [r1; r2] userEmail
     = ["a"; "b"]) /\
  (forall r1 r2,
     s_id r1 <> s_id r2 ->
     s_last_modified r1 = s_last_modified r2 ->
     localeCompare (s_id r2) (s_id r1) < 0 ->
     hasSharedAccess (note_of_row dateNow fresh r1) userEmail = true ->
     hasSharedAccess (note_of_row dateNow fresh r2) userEmail = true ->
     id <$> shared_notes dateNow localeCompare fresh [r1; r2] userEmail
     = [s_id r2; s_id r1]).
Proof.
  intros out. split; [apply shared_notes_NoDup|].
  split; [apply shared_notes_first|].
  split; [apply shared_notes_complete|].
  split; [by apply shared_notes_sorted|].
  split.
  - intros r1 r2 Hb Ha Hlm Hg1 Hg2.
    rewrite (shared_notes_two dateNow localeCompare fresh localeCompare_anti
               r1 r2 userEmail); rewrite ?Hb, ?Ha; done.
  - intros r1 r2 Hne Hlm Hlt Hg1 Hg2.
    by apply (shared_notes_two dateNow localeCompare fresh localeCompare_anti).
Qed.

Lemma C7_witness :
  letter_compare "a" "b" < 0 /\
  id <$> shared_notes 0 letter_compare "id" [row_b; row_a] "alice@x.com"
  = ["a"; "b"] /\
  id <$> shared_notes 0 letter_compare "id" [row_B; row_a] "alice@x.com"
  = ["a"; "B"].
Proof.
  split; [reflexivity|].
  destruct (C7_discovery_dedup_and_order 0 letter_compare "id"
              letter_compare_anti letter_compare_trans eq_refl
              [row_b; row_a] "alice@x.com") as (_ & _ & _ & _ & HE & HG).
  split; [apply HE; reflexivity|].
  apply (HG row_B row_a); try reflexivity. done.
Defined.

(** *** C8: documents without a metadata block *)

(** The claim as stated fails: a document with a space after the opening
    delimiter does not have the shape delimiter, newline, metadata, newline,
    delimiter, and is split all the same. *)
Lemma C8_counterexample :
  ~ (forall D, Js.startsWith D "---" = true -> ~ exact_shape D ->
               extractFrontmatter D = (None, D)).
Proof.
  intros H.
  specialize (H spaced_document eq_refl spaced_document_not_exact).
  discriminate H.
Qed.

(** C8, amended.  For every document that does not begin with the
    delimiter, and for every document that does not have the shape
    delimiter, optional whitespace, newline, metadata, newline, delimiter,
    the splitter returns the whole document as body, with no metadata, and
    the subset parser returns no field for the absent metadata.  Both
    functions are total: no error is raised. *)
Theorem C8_no_metadata_block (D : string)
    (H : Js.startsWith D "---" = false \/ ~ delimited_shape D) :
  extractFrontmatter D = (None, D) /\
  parseYamlSubset (fst (extractFrontmatter D)) = subset_empty.
Proof.
  assert (extractFrontmatter D = (None, D)) as E.
  { destruct H as [H|H].
    - unfold extractFrontmatter. by rewrite H.
    - by apply extractFrontmatter_unshaped. }
  by rewrite E.
Qed.

Lemma C8_witness :
  extractFrontmatter unclosed_document = (None, unclosed_document) /\
  parseYamlSubset (fst (extractFrontmatter unclosed_document)) = subset_empty.
Proof.
  apply C8_no_metadata_block. right. intros Hs.
  destruct (extractFrontmatter_shaped _ Hs) as (yaml & body & E).
  vm_compute in E. discriminate E.
Defined.

(** *** C9: the access decision reads the note only *)

(** C9.  A note whose metadata has no [visibility_emails] is denied to every
    viewer, whatever its visibility terms, and appears in no output of the
    discovery; and the response of the shared-notes handler is the same in
    two states of the store that agree on the note table, whatever their
    term tables hold. *)
Theorem C9_access_reads_only_the_note (dateNow : Z)
    (localeCompare : string -> string -> Z) (fresh : string)
    (note : DiaryxNote)
    (H : visibility_emails (metadata note) = None) :
  (forall email, hasSharedAccess note email = false) /\
  (forall rows email,
     note ∉ shared_notes dateNow localeCompare fresh rows email) /\
  (forall sqlNow ilike user w1 w2,
     diaryx_note w1 = diaryx_note w2 ->
     fst (get_shared_notes sqlNow dateNow ilike localeCompare fresh user w1)
     = fst (get_shared_notes sqlNow dateNow ilike localeCompare fresh user w2)).
Proof.
  assert (forall email, hasSharedAccess note email = false) as Hno.
  { intros email. by apply hasSharedAccess_no_map. }
  split; [done|]. split.
  - intros rows email Hin. apply shared_notes_granted in Hin. congruence.
  - intros sqlNow ilike user w1 w2. apply get_shared_notes_reads_notes.
Qed.

Lemma C9_witness :
  (forall email, hasSharedAccess unlisted_note email = false) /\
  (forall rows email,
     unlisted_note ∉ shared_notes 0 letter_compare "id" rows email) /\
  (forall sqlNow ilike user w1 w2,
     diaryx_note w1 = diaryx_note w2 ->
     fst (get_shared_notes sqlNow 0 ilike letter_compare "id" user w1)
     = fst (get_shared_notes sqlNow 0 ilike letter_compare "id" user w2)).
Proof.
  apply (C9_access_reads_only_the_note 0 letter_compare "id" unlisted_note).
  reflexivity.
Defined.

(** *** C10: the empty upsert *)

(** C10.  [upsertNotesForUser] with an empty or a null list of notes returns
    at once, without error: the tables of every user, the flag of the pool
    and the log of issued statements are those it was called with. *)
Theorem C10_empty_upsert_is_silent (sqlNow dateNow : Z) (owner : string)
    (w : World) :
  upsertNotesForUser sqlNow dateNow owner (Some []) w = (true, w) /\
  upsertNotesForUser sqlNow dateNow owner None w = (true, w).
Proof. split; reflexivity. Qed.

(* ================================================================== *)
(** ** Further properties of the code *)
(* ================================================================== *)

(** *** Strings *)

Lemma truthy_nonempty s : Js.truthy s = true <-> s <> EmptyString.
Proof. destruct s; simpl; split; done. Qed.

Lemma Is_true_truthy s : Is_true (Js.truthy s) <-> s <> EmptyString.
Proof. rewrite Is_true_true. apply truthy_nonempty. Qed.

Lemma trim_clean x : x <> EmptyString -> Js.trim x <> EmptyString ->
  clean_item (Js.trim x).
Proof. intros _ Hne. split; [done|apply trim_idem]. Qed.

Lemma clean_trimmed_list l :
  Forall clean_item (filter (fun s => Js.truthy s) (map Js.trim l)).
Proof.
  apply Forall_forall. intros x [Hx Hin]%list_elem_of_filter.
  apply list_elem_of_In, in_map_iff in Hin as (y & <- & _).
  split; [by apply Is_true_truthy|apply trim_idem].
Qed.

Lemma clean_list_fixed l :
  Forall clean_item l -> filter (fun s => Js.truthy s) (map Js.trim l) = l.
Proof.
  induction 1 as [|x l [Hne Htrim] _ IH]; [done|].
  cbn [map]. rewrite filter_cons, Htrim, IH.
  destruct (decide (Js.truthy x)) as [|Hno]; [done|].
  destruct Hno. by apply Is_true_truthy.
Qed.

Lemma includes_rev_app a b c :
  Js.includes_char (String.rev_app a b) c
  = Js.includes_char a c || Js.includes_char b c.
Proof.
  revert b. induction a as [|x a IH]; intros b; simpl; [done|].
  rewrite IH. simpl. by destruct (Ascii.eqb x c), (Js.includes_char a c).
Qed.

Lemma split_go_pieces sep s : forall cur x,
  Js.includes_char cur sep = false ->
  x ∈ Js.split_go sep cur s -> Js.includes_char x sep = false.
Proof.
  induction s as [|c s IH]; intros cur x Hcur; simpl.
  - intros ->%list_elem_of_singleton. unfold String.rev.
    rewrite includes_rev_app, Hcur. done.
  - destruct (Ascii.eqb c sep) eqn:E.
    + intros [->|Hin]%elem_of_cons.
      * unfold String.rev. rewrite includes_rev_app, Hcur. done.
      * by apply (IH EmptyString).
    + apply IH. simpl. by rewrite E.
Qed.

Lemma split_pieces sep s x :
  x ∈ Js.split sep s -> Js.includes_char x sep = false.
Proof. by apply split_go_pieces. Qed.

Lemma includes_trimStart_false s c :
  Js.includes_char s c = false -> Js.includes_char (Js.trimStart s) c = false.
Proof.
  induction s as [|a s IH]; simpl; [done|].
  intros [Ha Hs]%orb_false_iff. destruct (Js.is_space a); [by apply IH|].
  simpl. by rewrite Ha, Hs.
Qed.

Lemma includes_trimEnd_false s c :
  Js.includes_char s c = false -> Js.includes_char (Js.trimEnd s) c = false.
Proof.
  induction s as [|a s IH]; simpl; [done|].
  intros [Ha Hs]%orb_false_iff. specialize (IH Hs).
  destruct (Js.trimEnd s) as [|b t].
  - destruct (Js.is_space a); simpl; [done|]. by rewrite Ha.
  - simpl in *. by rewrite Ha, IH.
Qed.

Lemma includes_trim_false s c :
  Js.includes_char s c = false -> Js.includes_char (Js.trim s) c = false.
Proof. intros H. by apply includes_trimEnd_false, includes_trimStart_false. Qed.

(** *** parseInlineArray *)

(** X1.  Whatever text it is given, [parseInlineArray] returns items that
    are not empty, carry no whitespace at either end and hold no comma. *)
Theorem X1_parseInlineArray_items (value x : string) :
  x ∈ parseInlineArray value ->
  x <> EmptyString /\ Js.trim x = x /\ Js.includes_char x ","%char = false.
Proof.
  unfold parseInlineArray. destruct (negb _); [by intros ?%elem_of_nil|].
  intros [Hx Hin]%list_elem_of_filter.
  apply list_elem_of_In, in_map_iff in Hin as (y & <- & Hy).
  apply list_elem_of_In, split_pieces in Hy.
  split; [by apply Is_true_truthy|]. split; [apply trim_idem|].
  by apply includes_trim_false.
Qed.

(** *** toVisibilityArray *)

Lemma toVisibilityArray_clean v : Forall clean_item (toVisibilityArray v).
Proof.
  destruct v as [|s|l]; simpl.
  - constructor.
  - destruct (Js.truthy (Js.trim s)) eqn:E; constructor; [|constructor].
    split; [by apply truthy_nonempty|apply trim_idem].
  - apply clean_trimmed_list.
Qed.

(** X2.  [toVisibilityArray] returns clean terms only (not empty, no
    whitespace at either end), and normalizing its own output again changes
    nothing. *)
Theorem X2_toVisibilityArray_normal (v : Visibility) :
  Forall clean_item (toVisibilityArray v) /\
  toVisibilityArray (VArray (toVisibilityArray v)) = toVisibilityArray v.
Proof.
  split; [apply toVisibilityArray_clean|].
  apply clean_list_fixed, toVisibilityArray_clean.
Qed.

(** *** The subset parser returns clean values *)

Lemma assoc_set_Forall (P : string * list string -> Prop) k v l :
  P (k, v) -> Forall P l -> Forall P (Obj.assoc_set k v l).
Proof.
  intros Hkv. induction 1 as [|[k0 v0] l H0 Hl IH]; simpl.
  - by repeat constructor.
  - destruct (String.eqb_spec k0 k) as [->|_]; constructor; auto.
Qed.

Lemma clean_object_empty : clean_object Obj.empty.
Proof. split; [constructor|done]. Qed.

Lemma clean_object_set k v o :
  clean_item k -> Forall clean_item v -> clean_object o ->
  clean_object (Obj.set k v o).
Proof.
  intros Hk Hv [Hown Hproto]. unfold Obj.set, Obj.define.
  destruct (Obj.assoc_get k (Obj.own o)).
  - split; [|done]. by apply assoc_set_Forall.
  - destruct (String.eqb k "__proto__").
    + by split.
    + split; [|done]. by apply assoc_set_Forall.
Qed.

Lemma clean_parseInlineArray value : Forall clean_item (parseInlineArray value).
Proof.
  unfold parseInlineArray. destruct (negb _); [constructor|].
  apply clean_trimmed_list.
Qed.

Lemma clean_parseBlockArray_loop re rest : forall i items,
  Forall clean_item items ->
  Forall clean_item (fst (parseBlockArray_loop re rest i items)).
Proof.
  induction rest as [|line rest IH]; intros i items Hitems; simpl; [done|].
  destruct (Regex.exec re line) as [m|]; [|done].
  apply IH. destruct (Js.truthy (Js.trim (Regex.group 1 m))) eqn:E; [|done].
  apply Forall_app. split; [done|]. constructor; [|constructor].
  split; [by apply truthy_nonempty|apply trim_idem].
Qed.

Lemma clean_parseBlockArray lines start indent :
  Forall clean_item (fst (parseBlockArray lines start indent)).
Proof.
  unfold parseBlockArray.
  pose proof (clean_parseBlockArray_loop (block_item_re indent)
                (drop start lines) start [] (Forall_nil_2 _)) as H.
  by destruct (parseBlockArray_loop _ _ _ _).
Qed.

Lemma clean_emails_loop lines : forall fuel j i map,
  clean_object map -> clean_object (snd (emails_loop fuel lines j i map)).
Proof.
  induction fuel as [|fuel IH]; intros j i map Hmap; simpl; [done|].
  destruct (lines !! j) as [sub|]; [|done].
  destruct (_ || _); [done|].
  destruct (Regex.exec sub_key_re sub) as [mm|]; [|by apply IH].
  destruct (Js.truthy (Js.trim (Regex.group 1 mm))) eqn:Eterm; simpl;
    [|by apply IH].
  assert (clean_item (Js.trim (Regex.group 1 mm))) as Hterm.
  { split; [by apply truthy_nonempty|apply trim_idem]. }
  destruct (Js.startsWith _ "[").
  { apply IH, clean_object_set; [done| |done]. apply clean_parseInlineArray. }
  destruct (Js.truthy (Js.trim (Regex.group 2 mm))) eqn:Eafter; simpl.
  - apply IH, clean_object_set; [done| |done].
    constructor; [|constructor].
    split; [by apply truthy_nonempty|apply trim_idem].
  - pose proof (clean_parseBlockArray lines (S j) 4) as Hb.
    destruct (parseBlockArray lines (S j) 4) as [items end_].
    by apply IH, clean_object_set.
Qed.

Lemma clean_yaml_loop lines : forall fuel i result,
  clean_subset result -> clean_subset (yaml_loop fuel lines i result).
Proof.
  induction fuel as [|fuel IH]; intros i result Hres; simpl; [done|].
  destruct (lines !! i) as [line|]; [|done].
  destruct (_ || _); [by apply IH|].
  destruct (Regex.exec top_key_re line) as [top|]; [|by apply IH].
  destruct Hres as [Hv He].
  destruct (String.eqb _ "visibility").
  - destruct (negb _).
    + pose proof (clean_parseBlockArray lines (S i) 2) as Hb.
      destruct (parseBlockArray lines (S i) 2) as [items end_].
      apply IH. destruct items; by split.
    + destruct (Js.startsWith _ _).
      * apply IH. split; [|done]. apply clean_parseInlineArray.
      * apply IH. destruct (Js.truthy (Js.trim (Regex.group 2 top))) eqn:E;
          [|by split].
        split; [|done]. split; [by apply truthy_nonempty|apply trim_idem].
  - destruct (String.eqb _ "visibility_emails"); [|by apply IH].
    pose proof (clean_emails_loop lines (length lines) (S i) i Obj.empty
                  clean_object_empty) as Hm.
    destruct (emails_loop _ _ _ _ _) as [i' map]. simpl in Hm.
    apply IH. unfold Obj.size.
    destruct (Obj.own map) eqn:Eown; simpl; [by split|].
    split; [done|]. simpl. split; [done|]. by rewrite Eown.
Qed.

(** X3.  Every value the subset parser returns is clean: a scalar
    visibility, the terms of a visibility list, the keys of
    [visibility_emails] and the emails listed under them are not empty and
    carry no whitespace at either end, and a [visibility_emails] that is set
    has at least one key.  So normalizing the parsed visibility again, as the
    resolver does, gives back the parsed terms. *)
Theorem X3_parseYamlSubset_clean (yaml : option string) :
  clean_subset (parseYamlSubset yaml) /\
  toVisibilityArray (ps_visibility (parseYamlSubset yaml))
  = match ps_visibility (parseYamlSubset yaml) with
    | VUndefined => []
    | VString s => [s]
    | VArray l => l
    end.
Proof.
  assert (clean_subset (parseYamlSubset yaml)) as H.
  { unfold parseYamlSubset. destruct yaml as [y|]; [|by split].
    destruct (negb _); [by split|]. apply clean_yaml_loop. by split. }
  split; [done|]. destruct H as [Hv _].
  destruct (ps_visibility (parseYamlSubset yaml)) as [|s|l]; simpl in *.
  - done.
  - destruct Hv as [Hne ->]. by apply truthy_nonempty in Hne as ->.
  - by apply clean_list_fixed.
Qed.

(** *** parseBlockArray *)

Lemma parseBlockArray_loop_run re rest : forall i items,
  exists k,
    parseBlockArray_loop re rest i items
    = (items ++ omap (block_item re) (take k rest), (i + k)%nat) /\
    (k <= length rest)%nat /\
    (forall j line, (j < k)%nat -> rest !! j = Some line ->
                    Regex.test re line = true) /\
    (forall line, rest !! k = Some line -> Regex.test re line = false).
Proof.
  induction rest as [|line rest IH]; intros i items; simpl.
  - exists 0%nat. rewrite app_nil_r, Nat.add_0_r. repeat split; [lia| |done].
    intros j line Hj. lia.
  - destruct (Regex.exec re line) as [m|] eqn:E.
    + destruct (IH (S i)
                  (if Js.truthy (Js.trim (Regex.group 1 m))
                   then items ++ [Js.trim (Regex.group 1 m)] else items))
        as (k & Hrun & Hk & Hin & Hout).
      exists (S k). rewrite Hrun. repeat split.
      * f_equal; [|lia].
        assert (block_item re line
                = if Js.truthy (Js.trim (Regex.group 1 m))
                  then Some (Js.trim (Regex.group 1 m)) else None) as Hb.
        { unfold block_item. by rewrite E. }
        change (take (S k) (line :: rest)) with (line :: take k rest).
        change (omap (block_item re) (line :: take k rest))
          with (match block_item re line with
                | Some y => y :: omap (block_item re) (take k rest)
                | None => omap (block_item re) (take k rest)
                end).
        rewrite Hb.
        destruct (Js.truthy (Js.trim (Regex.group 1 m))); [|done].
        by rewrite <- app_assoc.
      * simpl. lia.
      * intros [|j] line' Hj Hl; simpl in Hl.
        -- injection Hl as <-. unfold Regex.test. by rewrite E.
        -- apply (Hin j); [lia|done].
      * intros line' Hl. simpl in Hl. by apply Hout.
    + exists 0%nat. rewrite app_nil_r, Nat.add_0_r. repeat split; [lia| |].
      * intros j line' Hj. lia.
      * intros line' [= <-]. unfold Regex.test. by rewrite E.
Qed.

(** X4.  [parseBlockArray] consumes exactly the run of item lines that
    starts at [startIndex]: every line of the run matches the item pattern,
    the line after it, if there is one, does not, [end] is the index of the
    last line of the run (or [startIndex - 1] when the run is empty, also
    when [startIndex] is past the last line), and the items are the trimmed
    texts of the lines of the run, in order, without the empty ones. *)
Theorem X4_parseBlockArray_run (lines : list string)
    (startIndex indentSpaces : nat) (H : (1 <= startIndex)%nat) :
  exists k,
    parseBlockArray lines startIndex indentSpaces
    = (omap (block_item (block_item_re indentSpaces))
            (take k (drop startIndex lines)),
       (startIndex + k - 1)%nat) /\
    (startIndex + k <= max startIndex (length lines))%nat /\
    (forall j line, (startIndex <= j < startIndex + k)%nat ->
       lines !! j = Some line ->
       Regex.test (block_item_re indentSpaces) line = true) /\
    (forall line, lines !! (startIndex + k)%nat = Some line ->
       Regex.test (block_item_re indentSpaces) line = false).
Proof.
  destruct (parseBlockArray_loop_run (block_item_re indentSpaces)
              (drop startIndex lines) startIndex [])
    as (k & Hrun & Hk & Hin & Hout).
  exists k. unfold parseBlockArray. rewrite Hrun. simpl.
  rewrite length_drop in Hk. repeat split.
  - lia.
  - intros j line [Hj1 Hj2] Hl. apply (Hin (j - startIndex)%nat); [lia|].
    rewrite lookup_drop. by replace (startIndex + (j - startIndex))%nat with j by lia.
  - intros line Hl. apply Hout. by rewrite lookup_drop.
Qed.

(** *** hasSharedAccess *)

Lemma lower_trim_lower e :
  Js.toLowerCase (Js.trim (Js.toLowerCase e)) = Js.toLowerCase (Js.trim e).
Proof. by rewrite trim_toLowerCase, toLowerCase_idem. Qed.

Lemma lower_trim_trim e :
  Js.toLowerCase (Js.trim (Js.trim e)) = Js.toLowerCase (Js.trim e).
Proof. by rewrite trim_idem. Qed.

Lemma hasSharedAccess_email note e1 e2 :
  Js.toLowerCase (Js.trim e1) = Js.toLowerCase (Js.trim e2) ->
  hasSharedAccess note e1 = hasSharedAccess note e2.
Proof. unfold hasSharedAccess. by intros ->. Qed.

(** X5.  The answer of [hasSharedAccess] does not depend on the case of the
    viewer's email nor on whitespace around it: lower-casing or trimming the
    email first changes nothing. *)
Theorem X5_hasSharedAccess_email_form (note : DiaryxNote) (email : string) :
  hasSharedAccess note (Js.toLowerCase email) = hasSharedAccess note email /\
  hasSharedAccess note (Js.trim email) = hasSharedAccess note email /\
  hasSharedAccess note (Js.toLowerCase (Js.trim email))
  = hasSharedAccess note email.
Proof.
  repeat split; apply hasSharedAccess_email.
  - apply lower_trim_lower.
  - apply lower_trim_trim.
  - by rewrite lower_trim_lower, lower_trim_trim.
Qed.

Lemma Obj_get_set k k' v o :
  Obj.get k' (Obj.set k v o)
  = if String.eqb k k' then Some v else Obj.get k' o.
Proof.
  unfold Obj.set, Obj.get, Obj.define.
  destruct (String.eqb_spec k k') as [<-|Hne].
  - destruct (Obj.assoc_get k (Obj.own o)) as [old|] eqn:Ek.
    + cbn [Obj.own Obj.proto]. rewrite assoc_get_set.
      by rewrite String.eqb_refl.
    + destruct (String.eqb_spec k "__proto__") as [->|Hp];
        cbn [Obj.own Obj.proto].
      * by rewrite Ek.
      * rewrite assoc_get_set. by rewrite String.eqb_refl.
  - assert (String.eqb k k' = false) as Hkk by by apply String.eqb_neq.
    destruct (Obj.assoc_get k (Obj.own o)) as [old|] eqn:Ek.
    + cbn [Obj.own Obj.proto]. rewrite assoc_get_set. by rewrite Hkk.
    + destruct (String.eqb_spec k "__proto__") as [->|Hp];
        cbn [Obj.own Obj.proto].
      * destruct (Obj.assoc_get k' (Obj.own o)); [done|].
        destruct (String.eqb_spec k' "__proto__"); [congruence|done].
      * rewrite assoc_get_set. by rewrite Hkk.
Qed.

(** Reading a key of the lower-cased copy of a map gives the value of an
    entry of the map whose key normalizes to it. *)
Lemma normalized_get (l : list (string * list string)) : forall o k' v,
  Obj.get k'
    (foldl (fun nm kv => Obj.set (Js.toLowerCase (Js.trim (fst kv))) (snd kv) nm)
           o l) = Some v ->
  Obj.get k' o = Some v \/
  exists k, (k, v) ∈ l /\ Js.toLowerCase (Js.trim k) = k'.
Proof.
  induction l as [|[k0 v0] l IH] using rev_ind; intros o k' v; simpl.
  - by left.
  - rewrite foldl_app. simpl. rewrite Obj_get_set.
    destruct (String.eqb_spec (Js.toLowerCase (Js.trim k0)) k') as [E|_].
    + intros [= ->]. right. exists k0. split; [|done].
      apply elem_of_app. right. by left.
    + intros [?|(k & Hin & Hk)]%IH; [by left|]. right. exists k.
      split; [|done]. apply elem_of_app. by left.
Qed.

Lemma lists_email_true l lowerEmail :
  lists_email l lowerEmail = true <->
  exists entry, entry ∈ l /\ Js.toLowerCase entry = lowerEmail.
Proof.
  unfold lists_email. rewrite existsb_exists. split.
  - intros (e & Hin & He). exists e. split; [by apply list_elem_of_In|].
    by apply String.eqb_eq.
  - intros (e & Hin & He). exists e. split; [by apply list_elem_of_In|].
    by apply String.eqb_eq.
Qed.

(** X6.  [hasSharedAccess] grants access only to an email that the note
    itself lists: the note has a [visibility_emails] map, and for one of its
    normalized visibility terms either the property of that name, or an own
    key equal to the term up to case and surrounding whitespace, holds a
    list with an entry that equals the viewer's trimmed email up to case. *)
Theorem X6_hasSharedAccess_only_listed (note : DiaryxNote) (email : string)
    (H : hasSharedAccess note email = true) :
  exists m term l entry,
    visibility_emails (metadata note) = Some m /\
    term ∈ toVisibilityArray (visibility (metadata note)) /\
    entry ∈ l /\
    Js.toLowerCase entry = Js.toLowerCase (Js.trim email) /\
    (Obj.get term m = Some l \/
     exists k, (k, l) ∈ Obj.own m /\
               Js.toLowerCase (Js.trim k) = Js.toLowerCase term).
Proof.
  destruct (visibility_emails (metadata note)) as [m|] eqn:Em;
    [|by rewrite hasSharedAccess_no_map in H].
  unfold hasSharedAccess in H. rewrite Em in H. cbn [default] in H.
  pose proof (toVisibilityArray_clean (visibility (metadata note)))
    as Hclean.
  destruct (toVisibilityArray (visibility (metadata note))) as [|t0 ts] eqn:Et;
    [done|].
  apply existsb_exists in H as (term & Hin & Hterm).
  apply list_elem_of_In in Hin.
  rewrite Forall_forall in Hclean. destruct (Hclean term Hin) as [Hne Htrim].
  rewrite Htrim in Hterm.
  apply truthy_nonempty in Hne. rewrite Hne in Hterm. simpl in Hterm.
  apply orb_true_iff in Hterm as [Hd|Hc].
  - destruct (Obj.get term m) as [l|] eqn:Eg; [|done].
    apply lists_email_true in Hd as (entry & He & Hl).
    exists m, term, l, entry. repeat split; try done. by left.
  - match type of Hc with
    | match Obj.get ?k ?nm with _ => _ end = true =>
        destruct (Obj.get k nm) as [l|] eqn:Eg; [|done]
    end.
    apply lists_email_true in Hc as (entry & He & Hl).
    apply normalized_get in Eg as [Eg|(k & Hk & Hkt)].
    + by rewrite Obj_get_empty in Eg.
    + exists m, term, l, entry. repeat split; try done. right.
      exists k. split; [|done]. by rewrite <- entries_perm.
Qed.

(** The lower-cased copy holds, under a normalized key, the value of the
    only entry that normalizes to it. *)
Lemma normalized_get_unique (l : list (string * list string)) : forall o k v,
  (k, v) ∈ l ->
  (forall k' v', (k', v') ∈ l ->
     Js.toLowerCase (Js.trim k') = Js.toLowerCase (Js.trim k) -> v' = v) ->
  Obj.get (Js.toLowerCase (Js.trim k))
    (foldl (fun nm kv => Obj.set (Js.toLowerCase (Js.trim (fst kv))) (snd kv) nm)
           o l) = Some v.
Proof.
  induction l as [|[k0 v0] l IH] using rev_ind; intros o k v Hin Huniq.
  - by apply elem_of_nil in Hin.
  - rewrite foldl_app. simpl. rewrite Obj_get_set.
    destruct (String.eqb_spec (Js.toLowerCase (Js.trim k0))
                              (Js.toLowerCase (Js.trim k))) as [E|Hne].
    + f_equal. apply (Huniq k0 v0); [|done]. apply elem_of_app. right. by left.
    + apply elem_of_app in Hin as [Hin|Hin].
      * apply IH; [done|]. intros k' v' Hin'. apply Huniq.
        apply elem_of_app. by left.
      * apply list_elem_of_singleton in Hin. by injection Hin as -> ->.
Qed.

(** X7.  [hasSharedAccess] grants access to an email listed, up to case,
    under a normalized visibility term of the note: either in the property
    of exactly that name, or under an own key that equals the term up to
    case and surrounding whitespace, provided every own key that does so
    holds the same list (with several such keys only the last one in the
    order of [Object.entries] is consulted). *)
Theorem X7_hasSharedAccess_listed (note : DiaryxNote) (email : string)
    (m : Obj.t) (term : string) (l : list string) (entry : string)
    (Hm : visibility_emails (metadata note) = Some m)
    (Hterm : term ∈ toVisibilityArray (visibility (metadata note)))
    (Hentry : entry ∈ l)
    (Hmatch : Js.toLowerCase entry = Js.toLowerCase (Js.trim email))
    (Hlisted :
       Obj.get term m = Some l \/
       exists k, (k, l) ∈ Obj.own m /\
         Js.toLowerCase (Js.trim k) = Js.toLowerCase term /\
         forall k' l', (k', l') ∈ Obj.own m ->
           Js.toLowerCase (Js.trim k') = Js.toLowerCase term -> l' = l) :
  hasSharedAccess note email = true.
Proof.
  unfold hasSharedAccess. rewrite Hm. cbn [default].
  pose proof (toVisibilityArray_clean (visibility (metadata note))) as Hclean.
  destruct (toVisibilityArray (visibility (metadata note))) as [|t0 ts] eqn:Et;
    [by apply elem_of_nil in Hterm|].
  apply existsb_exists. exists term. split; [by apply list_elem_of_In|].
  rewrite Forall_forall in Hclean. destruct (Hclean term Hterm) as [Hne Htrim].
  rewrite Htrim. apply truthy_nonempty in Hne. rewrite Hne. simpl.
  assert (lists_email l (Js.toLowerCase (Js.trim email)) = true) as Hl.
  { apply lists_email_true. by exists entry. }
  apply orb_true_iff. destruct Hlisted as [Hd|(k & Hk & Hkt & Huniq)].
  - left. by rewrite Hd.
  - right. rewrite <- Hkt.
    rewrite (normalized_get_unique (Obj.entries m) Obj.empty k l); [done| |].
    + by rewrite entries_perm.
    + intros k' v' Hin' Hk'. apply (Huniq k'); [by rewrite <- entries_perm|].
      by rewrite Hk'.
Qed.

(** *** extractFrontmatter *)

Lemma append_nil_r (s : string) : (s +:+ EmptyString) = s.
Proof. induction s as [|x s IH]; [done|]. by rewrite append_cons, IH. Qed.

Lemma rev_app_rev (a b : string) :
  String.rev_app a b = (String.rev a +:+ b).
Proof.
  revert b. induction a as [|x a IH]; intros b; [done|].
  unfold String.rev. cbn [String.rev_app].
  rewrite (IH (String x b)), (IH (String x EmptyString)).
  by rewrite append_assoc.
Qed.

Lemma rev_app_append (w g : string) :
  String.rev (String.rev_app w g) = (String.rev g +:+ w).
Proof.
  revert g. induction w as [|x w IH]; intros g; cbn [String.rev_app].
  - by rewrite append_nil_r.
  - rewrite IH. unfold String.rev at 1. cbn [String.rev_app].
    rewrite rev_app_rev. by rewrite append_assoc.
Qed.

Lemma is_LF_space c : is_LF c = true -> Js.is_space c = true.
Proof. unfold is_LF. intros H. apply Ascii.eqb_eq in H. by subst c. Qed.

(** After the closing delimiter the pattern takes all the whitespace there
    is, and never fails. *)
Lemma run_gap s : forall open caps,
  Regex.run [Regex.Star true Js.is_space; Regex.Opt is_LF] s open caps
  = Some (rev caps, Js.trimStart s).
Proof.
  induction s as [|c s IH]; intros open caps; [done|].
  cbn [Regex.run]. cbn [Regex.run] in IH.
  destruct (Js.is_space c) eqn:Ec.
  - rewrite IH. cbn [Regex.or_else Js.trimStart]. by rewrite Ec.
  - cbn [Js.trimStart]. rewrite Ec.
    destruct (is_LF c) eqn:El; [|done].
    apply is_LF_space in El. congruence.
Qed.

Lemma trimStart_gap s :
  exists gap, s = (gap +:+ Js.trimStart s) /\ Js.all_chars Js.is_space gap = true.
Proof.
  induction s as [|c s (gap & Hs & Hgap)]; [by exists EmptyString|].
  cbn [Js.trimStart]. destruct (Js.is_space c) eqn:Ec.
  - exists (String c gap). rewrite append_cons, <- Hs.
    split; [done|]. simpl. by rewrite Ec.
  - by exists EmptyString.
Qed.

(** A star outside of any group hands over to the rest of the pattern
    after a run of characters of its class. *)
Lemma run_star_outside greedy p r caps : forall s res,
  Regex.run (Regex.Star greedy p :: r) s None caps = Some res ->
  exists w s', s = (w +:+ s') /\ Js.all_chars p w = true /\
               Regex.run r s' None caps = Some res.
Proof.
  induction s as [|c s IH]; intros res; cbn [Regex.run].
  - intros H. by exists EmptyString, EmptyString.
  - cbn [Regex.run] in IH. destruct (p c) eqn:Ep.
    + intros H.
      assert ((exists w s', s = (w +:+ s') /\ Js.all_chars p w = true /\
                 Regex.run r s' None caps = Some res)
              \/ Regex.run r (String c s) None caps = Some res)
        as [(w & s' & -> & Hw & Hr)|Hr].
      { destruct greedy; apply or_else_Some in H as [H|[_ H]]; eauto. }
      * exists (String c w), s'. simpl. rewrite Ep, Hw. eauto.
      * by exists EmptyString, (String c s).
    + intros H. by exists EmptyString, (String c s).
Qed.

(** The lazy group stops in front of the first occurrence of the text that
    follows it. *)
Lemma run_lazy_group d s : forall g caps res rest,
  d <> EmptyString ->
  Regex.run [Regex.Star false Regex.any; Regex.Close; Regex.Lit d;
             Regex.Star true Js.is_space; Regex.Opt is_LF]
            s (Some g) caps = Some (res, rest) ->
  exists w after,
    s = (w +:+ d +:+ after) /\
    res = rev caps ++ [String.rev g +:+ w] /\
    rest = Js.trimStart after /\
    forall p q, s = (p +:+ d +:+ q) -> (String.length w <= String.length p)%nat.
Proof.
  intros g caps res rest Hd.
  assert (forall s g,
    Regex.run [Regex.Close; Regex.Lit d; Regex.Star true Js.is_space;
               Regex.Opt is_LF] s (Some g) caps
    = match Js.strip_prefix d s with
      | Some after => Some (rev caps ++ [String.rev g], Js.trimStart after)
      | None => None
      end) as Hstop.
  { intros s0 g0. cbn [Regex.run Regex.close].
    destruct (Js.strip_prefix d s0) as [after|]; [|done].
    change (Regex.run [Regex.Star true Js.is_space; Regex.Opt is_LF] after
              (Regex.push_lit d None) (String.rev g0 :: caps)
            = Some (rev caps ++ [String.rev g0], Js.trimStart after)).
    by rewrite run_gap. }
  revert g res rest. induction s as [|c s IH]; intros g res rest.
  - intros H.
    change (Regex.run [Regex.Close; Regex.Lit d; Regex.Star true Js.is_space;
                       Regex.Opt is_LF] EmptyString (Some g) caps
            = Some (res, rest)) in H.
    rewrite Hstop in H. destruct d; [done|]. done.
  - intros H.
    change (Regex.or_else
              (Regex.run [Regex.Close; Regex.Lit d;
                          Regex.Star true Js.is_space; Regex.Opt is_LF]
                         (String c s) (Some g) caps)
              (fun _ =>
                 Regex.run [Regex.Star false Regex.any; Regex.Close;
                            Regex.Lit d; Regex.Star true Js.is_space;
                            Regex.Opt is_LF] s (Some (String c g)) caps)
            = Some (res, rest)) in H.
    rewrite Hstop in H. revert H.
    destruct (Js.strip_prefix d (String c s)) as [after|] eqn:E.
    + intros [= <- <-]. apply strip_prefix_Some in E.
      exists EmptyString, after. rewrite append_nil.
      split; [done|]. split; [by rewrite append_nil_r|]. split; [done|].
      intros p q _. simpl. lia.
    + cbn [Regex.or_else]. intros H.
      destruct (IH _ _ _ H) as (w & after & -> & -> & -> & Hmin).
      exists (String c w), after. rewrite append_cons.
      split; [done|]. split; [|split; [done|]].
      * f_equal. f_equal.
        change (String.rev (String c g))
          with (String.rev (String.rev_app (String c EmptyString) g)).
        rewrite rev_app_append. by rewrite append_assoc.
      * intros [|x p] q Hs.
        -- rewrite append_nil in Hs.
           assert (Js.strip_prefix d (String c (w +:+ d +:+ after)) = Some q)
             as Hq by by apply strip_prefix_Some.
           congruence.
        -- rewrite append_cons in Hs. injection Hs as _ Hs.
           simpl. specialize (Hmin p q Hs). lia.
Qed.

Lemma push_lit_None l : Regex.push_lit l None = None.
Proof. induction l; [done|]. simpl. done. Qed.

Lemma run_Lit l r s open caps :
  Regex.run (Regex.Lit l :: r) s open caps
  = match Js.strip_prefix l s with
    | Some s' => Regex.run r s' (Regex.push_lit l open) caps
    | None => None
    end.
Proof. reflexivity. Qed.

Lemma run_Open r s open caps :
  Regex.run (Regex.Open :: r) s open caps
  = Regex.run r s (Some EmptyString) caps.
Proof. reflexivity. Qed.

(** X8.  When [extractFrontmatter] finds a metadata block, the document is
    the delimiter, a run of whitespace, a newline, the metadata, a newline,
    the delimiter, a run of whitespace and the body, in this order; the body
    does not start with whitespace; and the metadata ends in front of the
    first newline-and-delimiter that follows its start. *)
Theorem X8_extractFrontmatter_parts (D yaml body : string)
    (H : extractFrontmatter D = (Some yaml, body)) :
  exists ws gap,
    D = ("---" +:+ ws +:+ NL +:+ yaml +:+ NL +:+ "---" +:+ gap +:+ body) /\
    Js.all_chars Js.is_space ws = true /\
    Js.all_chars Js.is_space gap = true /\
    starts_clean body /\
    forall p q,
      (yaml +:+ NL +:+ "---" +:+ gap +:+ body) = (p +:+ NL +:+ "---" +:+ q) ->
      (String.length yaml <= String.length p)%nat.
Proof.
  unfold extractFrontmatter in H.
  destruct (Js.startsWith D "---"); [|done]. cbn [negb] in H.
  destruct (Regex.exec frontmatter_re D) as [m|] eqn:E; [|done].
  injection H as Hy Hb.
  unfold Regex.exec, frontmatter_re in E. rewrite run_Lit in E.
  destruct (Js.strip_prefix "---" D) as [s1|] eqn:E1; [|done].
  apply strip_prefix_Some in E1 as ->.
  rewrite push_lit_None in E.
  destruct m as [res rest].
  apply (run_star_outside true Js.is_space) in E
    as (ws & s2 & -> & Hws & E).
  rewrite run_Lit in E.
  destruct (Js.strip_prefix NL s2) as [s3|] eqn:E3; [|done].
  apply strip_prefix_Some in E3 as ->.
  rewrite push_lit_None, run_Open in E.
  apply run_lazy_group in E as (w & after & -> & -> & -> & Hmin); [|done].
  cbn in Hy. subst yaml. simpl in Hb. subst body.
  destruct (trimStart_gap after) as (gap & Hafter & Hgap).
  exists ws, gap. rewrite <- Hafter.
  split; [by rewrite !append_assoc|]. split; [done|]. split; [done|].
  split; [apply trimStart_clean|].
  intros p q Hpq. apply (Hmin p q). by rewrite !append_assoc in *.
Qed.

(** *** parseDiaryxString *)

(** X9.  A document without a metadata block (it does not start with the
    delimiter, or lacks the delimited shape) parses to a note whose body is
    the whole document without its leading whitespace, with no frontmatter
    and no visibility metadata; nobody is granted access to it. *)
Theorem X9_plain_document_is_private (dateNow : Z) (fresh D : string)
    (opt_id opt_src : option string)
    (H : Js.startsWith D "---" = false \/ ~ delimited_shape D) :
  let note := parseDiaryxString dateNow fresh D opt_id opt_src in
  body note = Js.trimStart D /\
  starts_clean (body note) /\
  frontmatter note = None /\
  visibility (metadata note) = VUndefined /\
  visibility_emails (metadata note) = None /\
  forall email, hasSharedAccess note email = false.
Proof.
  assert (extractFrontmatter D = (None, D)) as E.
  { destruct H as [H|H].
    - unfold extractFrontmatter. by rewrite H.
    - by apply extractFrontmatter_unshaped. }
  intros note.
  assert (note = mkNote (default fresh opt_id) (Js.trimStart D)
                        (mkMetadata VUndefined None) None opt_src false dateNow)
    as ->.
  { unfold note, parseDiaryxString. by rewrite E. }
  cbn [body frontmatter metadata visibility visibility_emails].
  split; [done|]. split; [apply trimStart_clean|]. repeat split.
Qed.

(** *** The guards of the handlers *)

Lemma blank_email e :
  Js.trim e = EmptyString -> Js.truthy (Js.toLowerCase (Js.trim e)) = false.
Proof. by intros ->. Qed.

(** X10.  A request is refused before the store is reached, the world and
    the log of issued statements staying as they were: with 401 when there
    is no session, whatever the request; with 400 for a body that is not
    JSON, for a delete without a note id, and for a shared-notes request of
    a user whose email is missing or blank. *)
Theorem X10_refused_requests_touch_nothing (env : Env) (w : World) :
  (forall req, requester req = None -> handle env req w = (Unauthorized, w)) /\
  (forall user,
     handle env (PostNotes (Some user) None) w
     = (BadRequest "INVALID_JSON", w)) /\
  (forall user,
     handle env (DeleteNoteById (Some user) EmptyString) w
     = (BadRequest "MISSING_NOTE_ID", w)) /\
  (forall user,
     u_email user = None \/
     (exists e, u_email user = Some e /\ Js.trim e = EmptyString) ->
     handle env (GetSharedNotes (Some user)) w
     = (BadRequest "EMAIL_REQUIRED", w)).
Proof.
  repeat split.
  - intros [u|u p|u i|u]; simpl; by intros ->.
  - intros user [E|(e & E & He)]; simpl; unfold get_shared_notes; rewrite E.
    + done.
    + by rewrite blank_email.
Qed.

(** *** Reading requests *)

Section MoreHandlerFacts.
Variable sqlNow : Z.
Variable dateNow : Z.
Variable term_le : string -> string -> bool.
Variable sched : list bool.
Variable ToNumber : json -> option jsnum.

Lemma notes_response_notes userId w :
  diaryx_note (snd (notes_response term_le sched userId w)) = diaryx_note w.
Proof. unfold notes_response. by rewrite bind_eq. Qed.

Lemma notes_response_result userId w :
  fst (notes_response term_le sched userId w)
  = NotesOk (select_notes userId (diaryx_note w))
            (select_terms term_le userId (diaryx_visibility_term w)).
Proof. unfold notes_response. by rewrite bind_eq. Qed.

Lemma listNotesSharedWithEmail_notes ilike email w :
  diaryx_note (snd (listNotesSharedWithEmail sqlNow ilike email w))
  = diaryx_note w.
Proof.
  unfold listNotesSharedWithEmail. rewrite bind_eq. simpl.
  apply ensureNotesTable_notes.
Qed.

Lemma deleteNoteForUser_notes userId noteId w :
  diaryx_note (snd (deleteNoteForUser sqlNow userId noteId w))
  = delete (userId, noteId) (diaryx_note w).
Proof.
  unfold deleteNoteForUser. rewrite bind_eq. simpl.
  by rewrite ensureNotesTable_notes.
Qed.

(** Whether or not the store accepts them all, the note table after the
    handler is the one after the statements of the batch. *)
Lemma post_notes_notes user payload notes w :
  validNotes dateNow ToNumber payload = Some notes ->
  diaryx_note
    (snd (post_notes sqlNow dateNow term_le sched ToNumber (Some user)
            (Some payload) w))
  = foldl (fun t n => sql_notes sqlNow (upsert_of dateNow (u_id user) n) t)
          (diaryx_note w) notes.
Proof.
  intros Hn. destruct (batch_accepted dateNow notes) eqn:Ea.
  - rewrite (post_notes_accepted _ _ _ _ _ _ _ notes) by done.
    rewrite notes_response_notes.
    destruct (validTerms payload) as [|e l] eqn:E.
    + apply upsertNotesForUser_notes.
    + rewrite updateVisibilityTermsForUser_notes.
      apply upsertNotesForUser_notes.
  - rewrite (post_notes_rejected _ _ _ _ _ _ _ notes) by done.
    apply upsertNotesForUser_notes.
Qed.

Lemma upserts_other_user u u' i notes : forall t,
  u' <> u ->
  foldl (fun t n => sql_notes sqlNow (upsert_of dateNow u n) t) t notes
    !! (u', i) = t !! (u', i).
Proof.
  induction notes as [|n notes IH]; intros t Hne; simpl; [done|].
  rewrite IH by done. apply sql_upsert_other. by intros [= E].
Qed.


End MoreHandlerFacts.

(** X11.  The two reading requests, GET /api/notes and GET
    /api/shared-notes, leave both tables of the store as they were, whoever
    asks. *)
Theorem X11_reads_change_no_table (env : Env) (user : option SessionUser)
    (w : World) :
  let w1 := snd (handle env (GetNotes user) w) in
  let w2 := snd (handle env (GetSharedNotes user) w) in
  diaryx_note w1 = diaryx_note w /\
  diaryx_visibility_term w1 = diaryx_visibility_term w /\
  diaryx_note w2 = diaryx_note w /\
  diaryx_visibility_term w2 = diaryx_visibility_term w.
Proof.
  simpl. unfold get_notes, get_shared_notes.
  destruct user as [user|]; [|done].
  rewrite notes_response_notes, notes_response_terms.
  split; [done|]. split; [done|].
  destruct (negb _); [done|]. rewrite bind_eq. simpl.
  by rewrite listNotesSharedWithEmail_notes, listNotesSharedWithEmail_terms.
Qed.


(** *** Deleting and isolation *)

Lemma delete_notes_lookup (u : string)
    (t : gmap (string * string) NoteRow) (u' k : string) :
  filter (fun kv : (string * string) * NoteRow => fst (fst kv) <> u) t
    !! (u', k)
  = if decide (u' = u) then None else t !! (u', k).
Proof.
  destruct (decide (u' = u)) as [->|Hne].
  - apply map_lookup_filter_None. right. intros x _. simpl. by intros [].
  - destruct (t !! (u', k)) as [x|] eqn:E.
    + by apply map_lookup_filter_Some.
    + apply map_lookup_filter_None. by left.
Qed.

(** X13.  deleteAllNotesForUser leaves the user without any note and
    without any visibility term, and keeps every row of every other user in
    both tables. *)
Theorem X13_deleteAllNotesForUser_clears_one_user (sqlNow : Z)
    (userId : string) (w : World) :
  let w' := snd (deleteAllNotesForUser sqlNow userId w) in
  (forall i, diaryx_note w' !! (userId, i) = None) /\
  (forall t, diaryx_visibility_term w' !! (userId, t) = None) /\
  (forall u k, u <> userId ->
     diaryx_note w' !! (u, k) = diaryx_note w !! (u, k) /\
     diaryx_visibility_term w' !! (u, k)
     = diaryx_visibility_term w !! (u, k)).
Proof.
  unfold deleteAllNotesForUser. rewrite !bind_eq. simpl.
  rewrite ensureNotesTable_notes, ensureNotesTable_terms.
  repeat split.
  - intros i. rewrite delete_notes_lookup. by rewrite decide_True.
  - intros t. rewrite delete_terms_lookup. by rewrite decide_True.
  - rewrite delete_notes_lookup. by rewrite decide_False.
  - rewrite delete_terms_lookup. by rewrite decide_False.
Qed.

(** X14.  Whatever a signed-in user requests, the rows of every other user,
    notes and visibility terms alike, are after the request what they were
    before it. *)
Theorem X14_requests_keep_other_users_rows (env : Env) (req : Request)
    (user : SessionUser) (w : World) (H : requester req = Some user) :
  forall u k, u <> u_id user ->
    diaryx_note (snd (handle env req w)) !! (u, k) = diaryx_note w !! (u, k) /\
    diaryx_visibility_term (snd (handle env req w)) !! (u, k)
    = diaryx_visibility_term w !! (u, k).
Proof.
  intros u k Hne.
  destruct req as [user'|user' payload|user' noteId|user']; simpl in H;
    subst user'.
  - cbn [handle]. unfold get_notes.
    by rewrite notes_response_notes, notes_response_terms.
  - cbn [handle]. destruct payload as [payload|]; [|done].
    destruct (validNotes (e_dateNow env) (e_ToNumber env) payload)
      as [notes|] eqn:En; [|by rewrite post_notes_error].
    split.
    + rewrite (post_notes_notes _ _ _ _ _ _ _ notes) by done.
      by apply upserts_other_user.
    + destruct (validTerms payload) as [|e l] eqn:Et.
      { by rewrite post_notes_no_valid_term. }
      destruct (batch_accepted (e_dateNow env) notes) eqn:Ea;
        [|by rewrite (post_notes_rejected_terms _ _ _ _ _ _ _ notes)].
      rewrite (post_notes_valid_terms _ _ _ _ _ _ _ _ notes)
        by (done || by rewrite Et).
      by rewrite decide_False.
  - cbn [handle]. unfold delete_note. destruct (negb _); [done|].
    rewrite bind_eq. rewrite deleteNoteForUser_fst. cbn [negb ret fst snd].
    rewrite deleteNoteForUser_notes, deleteNoteForUser_terms.
    split; [|done]. apply lookup_delete_ne. by intros [= E].
  - cbn [handle]. unfold get_shared_notes. destruct (negb _); [done|].
    rewrite bind_eq. simpl.
    by rewrite listNotesSharedWithEmail_notes, listNotesSharedWithEmail_terms.
Qed.

(** *** Listing the notes *)

Lemma recent_first_total a b :
  recent_first a b = true \/ recent_first b a = true.
Proof.
  unfold recent_first.
  destruct (Z.ltb_spec (last_modified a.2) (last_modified b.2));
  destruct (Z.ltb_spec (last_modified b.2) (last_modified a.2));
  destruct (Z.eqb_spec (last_modified a.2) (last_modified b.2));
  destruct (Z.eqb_spec (last_modified b.2) (last_modified a.2));
  destruct (Z.leb_spec (updated_at a.2) (updated_at b.2));
  destruct (Z.leb_spec (updated_at b.2) (updated_at a.2));
  simpl; auto; lia.
Qed.

Lemma recent_first_trans a b c :
  recent_first a b = true -> recent_first b c = true ->
  recent_first a c = true.
Proof.
  unfold recent_first.
  rewrite !orb_true_iff, !andb_true_iff, !Z.ltb_lt, !Z.eqb_eq, !Z.leb_le.
  lia.
Qed.

Lemma recent_first_order a b :
  recent_first a b = true -> last_modified b.2 <= last_modified a.2.
Proof.
  unfold recent_first.
  rewrite !orb_true_iff, !andb_true_iff, !Z.ltb_lt, !Z.eqb_eq, !Z.leb_le.
  lia.
Qed.

Section Selecting.
Context {R B : Type} (le : (string * string) * R -> (string * string) * R -> bool).
Context (f : (string * string) * R -> B).

(** The rows of one user, in any order, mapped to what the SELECT returns. *)
Lemma select_elem (u : string) (t : gmap (string * string) R) (x : B) :
  x ∈ map f (sort_by le
               (filter (fun kv => fst (fst kv) = u) (map_to_list t))) <->
  exists i row, t !! (u, i) = Some row /\ x = f ((u, i), row).
Proof.
  change (map f ?l) with (f <$> l).
  rewrite list_elem_of_fmap. setoid_rewrite sort_by_perm.
  setoid_rewrite list_elem_of_filter. split.
  - intros ([[u' i] row] & -> & Hu & Hin). simpl in Hu. subst u'.
    apply elem_of_map_to_list in Hin. eauto.
  - intros (i & row & Ht & ->). exists ((u, i), row).
    split; [done|]. split; [done|]. by apply elem_of_map_to_list.
Qed.

Lemma select_NoDup (u : string) (t : gmap (string * string) R) :
  NoDup ((fun kv : (string * string) * R => snd (fst kv)) <$>
         sort_by le (filter (fun kv => fst (fst kv) = u) (map_to_list t))).
Proof.
  rewrite sort_by_perm.
  apply NoDup_fmap_2_strong.
  - intros [[u1 i1] r1] [[u2 i2] r2].
    intros [E1 H1]%list_elem_of_filter [E2 H2]%list_elem_of_filter.
    simpl in *. intros ->. subst u1 u2.
    apply elem_of_map_to_list in H1, H2. congruence.
  - apply NoDup_filter, NoDup_map_to_list.
Qed.

End Selecting.

(** X15.  GET /api/notes answers a signed-in user with exactly the notes
    stored under their user id, each once, with the stored markdown, source
    name and timestamp, the most recently modified first; and with exactly
    their stored visibility terms, each once. *)
Theorem X15_get_notes_lists_own_rows (env : Env) (user : SessionUser)
    (w : World) :
  exists notes terms,
    fst (handle env (GetNotes (Some user)) w) = NotesOk notes terms /\
    (forall n, n ∈ notes <->
       exists row, diaryx_note w !! (u_id user, n_id n) = Some row /\
         n = mkDbNote (n_id n) (markdown row) (source_name row)
                      (last_modified row)) /\
    NoDup (n_id <$> notes) /\
    StronglySorted (fun a b => n_last_modified b <= n_last_modified a) notes /\
    (forall t es, (t, es) ∈ terms <->
       exists row, diaryx_visibility_term w !! (u_id user, t) = Some row /\
         es = emails row) /\
    NoDup terms.*1.
Proof.
  eexists _, _. split.
  { cbn [handle get_notes]. apply notes_response_result. }
  unfold select_notes, select_terms. repeat split.
  - intros (i & row & Ht & ->)%select_elem. simpl. eauto.
  - intros (row & Ht & ->). apply select_elem. eauto.
  - change (map ?g ?l) with (g <$> l). rewrite <- list_fmap_compose.
    apply (select_NoDup recent_first).
  - change (map ?g ?l) with (g <$> l).
    eapply StronglySorted_fmap;
      [|apply (sort_by_sorted recent_first recent_first_total
                 recent_first_trans)].
    intros a b Hab. simpl. by apply recent_first_order.
  - intros (i & row & Ht & [= -> ->])%select_elem. eauto.
  - intros (row & Ht & ->). apply select_elem. eauto.
  - change (map ?g ?l) with (g <$> l). rewrite <- list_fmap_compose.
    apply (select_NoDup (fun a b => e_term_le env a.1.2 b.1.2)).
Qed.

(** *** Batches of notes *)



(** *** The log of issued statements *)

Section LogFacts.
Variable sqlNow : Z.

Lemma plain_steps_refl w : plain_steps w w.
Proof. split; [done|]. exists []. by rewrite app_nil_r. Qed.

Lemma plain_steps_trans w1 w2 w3 :
  plain_steps w1 w2 -> plain_steps w2 w3 -> plain_steps w1 w3.
Proof.
  intros (E1 & more1 & I1 & F1) (E2 & more2 & I2 & F2).
  split; [congruence|]. exists (more1 ++ more2). split.
  - rewrite I2, I1. by rewrite app_assoc.
  - by apply Forall_app.
Qed.

Lemma ensured_once_plain w1 w2 w3 :
  ensured_once w1 w2 -> plain_steps w2 w3 -> ensured_once w1 w3.
Proof.
  intros (E1 & more1 & I1 & F1) (E2 & more2 & I2 & F2).
  split; [congruence|]. exists (more1 ++ more2). split.
  - rewrite I2, I1. by rewrite <- !app_assoc.
  - by apply Forall_app.
Qed.

Lemma plain_ret {A} (a : A) : plain (ret a).
Proof. intros w. apply plain_steps_refl. Qed.

Lemma plain_bind {A B} (m : M A) (f : A -> M B) :
  plain m -> (forall a, plain (f a)) -> plain (bind m f).
Proof.
  intros Hm Hf w. rewrite bind_eq.
  eapply plain_steps_trans; [apply Hm|apply Hf].
Qed.

Lemma plain_query q : is_ddl q = false -> plain (query sqlNow q).
Proof.
  intros Hq w. split; [done|]. exists [q]. split; [done|]. by constructor.
Qed.

Lemma plain_query_rows {A} q (read : World -> A) :
  is_ddl q = false -> plain (query_rows q read).
Proof.
  intros Hq w. split; [done|]. exists [q]. split; [done|]. by constructor.
Qed.

Lemma plain_for_each {A} (f : A -> M bool) l :
  (forall x, plain (f x)) -> plain (for_each f l).
Proof.
  intros Hf. induction l as [|x l IH]; cbn [for_each]; [apply plain_ret|].
  apply plain_bind; [apply Hf|]. intros ok.
  apply plain_bind; [apply IH|]. intros oks. apply plain_ret.
Qed.

(** On a pool that is ensured [ensureNotesTable] does nothing; on another
    one it sends its three statements and sets the flag. *)
Lemma ensureNotesTable_ensured w :
  ensured w = true -> ensureNotesTable sqlNow w = (tt, w).
Proof. intros E. unfold ensureNotesTable. by rewrite E. Qed.

Lemma ensureNotesTable_first w :
  ensured w = false -> ensured_once w (snd (ensureNotesTable sqlNow w)).
Proof.
  intros E. unfold ensureNotesTable. rewrite E. split; [done|].
  exists []. simpl. by rewrite <- !app_assoc.
Qed.

(** Every helper of the store but the two that the handlers start together
    has this shape: the tables are ensured, then other statements follow. *)
Lemma helper_ensured {A} (m : M A) w :
  plain m -> ensured w = true ->
  plain_steps w (snd ((ensureNotesTable sqlNow >> m) w)).
Proof.
  intros Hm E. rewrite bind_eq, ensureNotesTable_ensured by done. apply Hm.
Qed.

Lemma helper_first {A} (m : M A) w :
  plain m -> ensured w = false ->
  ensured_once w (snd ((ensureNotesTable sqlNow >> m) w)).
Proof.
  intros Hm E. rewrite bind_eq.
  eapply ensured_once_plain; [by apply ensureNotesTable_first|apply Hm].
Qed.

Lemma plain_upserts dateNow u notes :
  plain (for_each
           (fun note =>
              query sqlNow
                (UpsertNote u (in_id note) (in_markdown note)
                   (in_sourceName note)
                   match in_lastModified note with
                   | Some (Finite z) => z
                   | _ => dateNow
                   end)) notes).
Proof. apply plain_for_each. intros x. by apply plain_query. Qed.

Lemma plain_update u (entries : list (string * list string)) :
  plain (let* ok := query sqlNow (DeleteTermsOf u) in
         if negb ok then ret false
         else match entries with
              | [] => ret true
              | _ :: _ =>
                  for_each
                    (fun e => query sqlNow (InsertTerm u (fst e) (snd e)))
                    entries
              end).
Proof.
  apply plain_bind; [by apply plain_query|]. intros ok.
  destruct (negb ok); [apply plain_ret|].
  destruct entries; [apply plain_ret|].
  apply plain_for_each. intros x. by apply plain_query.
Qed.

End LogFacts.

(** The statements of two helpers that run concurrently are those of the
    one and those of the other. *)
Lemma interleave_perm sched : forall one two,
  interleave sched one two ≡ₚ one ++ two.
Proof.
  induction sched as [|b sched IH]; intros one two; [done|].
  destruct one as [|x one]; [done|].
  destruct two as [|y two]; [by rewrite app_nil_r|].
  cbn [interleave]. destruct b.
  - by rewrite IH.
  - rewrite IH. by rewrite Permutation_middle.
Qed.

Lemma interleave_nil_l sched two : interleave sched [] two = two.
Proof. by destruct sched. Qed.

Lemma started_together_perm sched one two :
  started_together sched one two ≡ₚ one ++ two.
Proof.
  destruct one as [|x one]; [done|].
  destruct two as [|y two]; [done|].
  cbn [started_together]. rewrite interleave_perm.
  by rewrite Permutation_middle.
Qed.

(** The two list helpers started together: on a pool that is ensured they
    send their two SELECT statements; on another one both send the
    statements of [ensureNotesTable], whatever the order in which they
    follow each other. *)
Lemma list_both_ensured term_le sched u w :
  ensured w = true ->
  plain_steps w (snd (list_both term_le sched u w)).
Proof.
  intros E. unfold list_both, list_statements. rewrite E.
  split; [by rewrite E|].
  eexists. split; [reflexivity|].
  cbn [app started_together]. rewrite interleave_nil_l.
  by repeat constructor.
Qed.

Lemma list_both_first term_le sched u w :
  ensured w = false ->
  ensured_twice w (snd (list_both term_le sched u w)).
Proof.
  intros E. unfold list_both, list_statements. rewrite E. split; [done|].
  eexists. split; [reflexivity|].
  rewrite started_together_perm. done.
Qed.

(** Each of the two helpers, run alone, sends the statements and returns
    the rows that [list_both] takes for it. *)
Lemma listNotesForUser_alone sqlNow u w :
  listNotesForUser sqlNow u w
  = (select_notes u (diaryx_note w),
     mkWorld (diaryx_note w) (diaryx_visibility_term w) true
             (issued w ++ list_statements (ensured w) (SelectNotes u))).
Proof.
  unfold listNotesForUser, list_statements, ensureNotesTable.
  rewrite bind_eq. destruct (ensured w) eqn:E.
  - unfold query_rows. simpl. by rewrite E.
  - unfold query_rows. simpl. by rewrite <- !app_assoc.
Qed.

Lemma listVisibilityTermsForUser_alone sqlNow term_le u w :
  listVisibilityTermsForUser sqlNow term_le u w
  = (select_terms term_le u (diaryx_visibility_term w),
     mkWorld (diaryx_note w) (diaryx_visibility_term w) true
             (issued w ++ list_statements (ensured w) (SelectTerms u))).
Proof.
  unfold listVisibilityTermsForUser, list_statements, ensureNotesTable.
  rewrite bind_eq. destruct (ensured w) eqn:E.
  - unfold query_rows. simpl. by rewrite E.
  - unfold query_rows. simpl. by rewrite <- !app_assoc.
Qed.

Section LogOfHandlers.
Variable env : Env.

Lemma notes_response_ensured u w :
  ensured w = true ->
  plain_steps w (snd (notes_response (e_term_le env) (e_sched env) u w)).
Proof.
  intros E. unfold notes_response. rewrite bind_eq.
  by apply list_both_ensured.
Qed.

Lemma notes_response_first u w :
  ensured w = false ->
  ensured_twice w (snd (notes_response (e_term_le env) (e_sched env) u w)).
Proof.
  intros E. unfold notes_response. rewrite bind_eq.
  by apply list_both_first.
Qed.

Lemma upsert_ensured dateNow u notes w :
  ensured w = true ->
  plain_steps w (snd (upsertNotesForUser (e_sqlNow env) dateNow u notes w)).
Proof.
  intros E. destruct notes as [[|n notes]|]; try apply plain_steps_refl.
  unfold upsertNotesForUser.
  apply helper_ensured; [apply plain_upserts|done].
Qed.

Lemma upsert_first dateNow u n notes w :
  ensured w = false ->
  ensured_once w
    (snd (upsertNotesForUser (e_sqlNow env) dateNow u (Some (n :: notes)) w)).
Proof.
  intros E. unfold upsertNotesForUser.
  apply helper_first; [apply plain_upserts|done].
Qed.

Lemma update_ensured u terms w :
  ensured w = true ->
  plain_steps w (snd (updateVisibilityTermsForUser (e_sqlNow env) u terms w)).
Proof.
  intros E. unfold updateVisibilityTermsForUser.
  apply helper_ensured; [apply plain_update|done].
Qed.

Lemma update_first u terms w :
  ensured w = false ->
  ensured_once w (snd (updateVisibilityTermsForUser (e_sqlNow env) u terms w)).
Proof.
  intros E. unfold updateVisibilityTermsForUser.
  apply helper_first; [apply plain_update|done].
Qed.

(** A pool that is ensured sees no statement of [ensureNotesTable] again. *)
Lemma handle_ensured req w :
  ensured w = true -> plain_steps w (snd (handle env req w)).
Proof.
  intros E.
  destruct req as [user|user payload|user noteId|user]; cbn [handle].
  - destruct user; [by apply notes_response_ensured|apply plain_steps_refl].
  - destruct user as [user|]; [|apply plain_steps_refl].
    destruct payload as [payload|]; [|apply plain_steps_refl].
    destruct (validNotes (e_dateNow env) (e_ToNumber env) payload)
      as [notes|] eqn:En;
      [|rewrite post_notes_error by done; apply plain_steps_refl].
    pose proof (upsert_ensured (e_dateNow env) (u_id user) (Some notes) w E)
      as H1.
    destruct (batch_accepted (e_dateNow env) notes) eqn:Ea;
      [|by rewrite (post_notes_rejected _ _ _ _ _ _ _ notes)].
    rewrite (post_notes_accepted _ _ _ _ _ _ _ notes) by done.
    assert (ensured (snd (upsertNotesForUser (e_sqlNow env) (e_dateNow env)
                            (u_id user) (Some notes) w)) = true) as E1
      by (destruct H1; congruence).
    eapply plain_steps_trans; [exact H1|].
    destruct (validTerms payload) as [|e l].
    + by apply notes_response_ensured.
    + pose proof (update_ensured (u_id user) (Obj.fromEntries (e :: l)) _ E1)
        as H2.
      eapply plain_steps_trans; [exact H2|].
      apply notes_response_ensured. destruct H2; congruence.
  - unfold delete_note. destruct user as [user|]; [|apply plain_steps_refl].
    destruct (negb _); [apply plain_steps_refl|].
    rewrite bind_eq. rewrite deleteNoteForUser_fst. cbn [negb ret snd].
    unfold deleteNoteForUser.
    apply helper_ensured; [by apply plain_query|done].
  - unfold get_shared_notes. destruct user as [user|]; [|apply plain_steps_refl].
    destruct (negb _); [apply plain_steps_refl|].
    rewrite bind_eq. cbn [ret snd]. unfold listNotesSharedWithEmail.
    apply helper_ensured; [by apply plain_query_rows|done].
Qed.

(** On a pool that is not ensured a request that reaches the store sends
    them once, unless it starts with the listing. *)
Lemma handle_first req w :
  ensured w = false ->
  snd (handle env req w) = w \/
  ensured_once w (snd (handle env req w)) \/
  ensured_twice w (snd (handle env req w)).
Proof.
  intros E.
  destruct req as [user|user payload|user noteId|user]; cbn [handle].
  - destruct user; [|by left]. right. right. by apply notes_response_first.
  - destruct user as [user|]; [|by left].
    destruct payload as [payload|]; [|by left].
    destruct (validNotes (e_dateNow env) (e_ToNumber env) payload)
      as [notes|] eqn:En; [|rewrite post_notes_error by done; by left].
    destruct (batch_accepted (e_dateNow env) notes) eqn:Ea.
    2:{ rewrite (post_notes_rejected _ _ _ _ _ _ _ notes) by done.
        destruct notes as [|n notes]; [done|].
        right. left. by apply upsert_first. }
    rewrite (post_notes_accepted _ _ _ _ _ _ _ notes) by done.
    destruct notes as [|n notes].
    + cbn [upsertNotesForUser ret snd].
      destruct (validTerms payload) as [|e l].
      * right. right. by apply notes_response_first.
      * right. left.
        pose proof (update_first (u_id user) (Obj.fromEntries (e :: l)) w E)
          as H2.
        eapply ensured_once_plain; [exact H2|].
        apply notes_response_ensured. by destruct H2.
    + right. left.
      pose proof (upsert_first (e_dateNow env) (u_id user) n notes w E) as H1.
      assert (ensured (snd (upsertNotesForUser (e_sqlNow env) (e_dateNow env)
                              (u_id user) (Some (n :: notes)) w)) = true)
        as E1 by by destruct H1.
      destruct (validTerms payload) as [|e l].
      * eapply ensured_once_plain; [exact H1|].
        by apply notes_response_ensured.
      * pose proof (update_ensured (u_id user) (Obj.fromEntries (e :: l)) _ E1)
          as H2.
        eapply ensured_once_plain;
          [eapply ensured_once_plain; [exact H1|exact H2]|].
        apply notes_response_ensured. destruct H2; congruence.
  - unfold delete_note. destruct user as [user|]; [|by left].
    destruct (negb _); [by left|]. right. left.
    rewrite bind_eq. rewrite deleteNoteForUser_fst. cbn [negb ret snd].
    unfold deleteNoteForUser.
    apply helper_first; [by apply plain_query|done].
  - unfold get_shared_notes. destruct user as [user|]; [|by left].
    destruct (negb _); [by left|]. right. left.
    rewrite bind_eq. cbn [ret snd]. unfold listNotesSharedWithEmail.
    apply helper_first; [by apply plain_query_rows|done].
Qed.

End LogOfHandlers.

(** X18.  ensureNotesTable is not guarded against callers that run
    together.  On a pool that is not yet ensured, GET /api/notes, whose two
    list helpers are started together, sends each of its three statements
    (the two tables and the index) twice, whatever the order in which the
    statements follow each other; any other request that reaches the store
    sends them once, in order and before its other statements, or twice.
    On a pool that is ensured no request sends any of them again. *)
Theorem X18_tables_ensured_per_helper (env : Env) (req : Request)
    (w : World) :
  let w' := snd (handle env req w) in
  (ensured w = true ->
   ensured w' = true /\
   exists more,
     issued w' = issued w ++ more /\
     Forall (fun q => is_ddl q = false) more) /\
  (ensured w = false ->
   w' = w \/
   (ensured w' = true /\
    exists more,
      issued w' = issued w ++ ddl ++ more /\
      Forall (fun q => is_ddl q = false) more) \/
   (ensured w' = true /\
    exists more,
      issued w' = issued w ++ more /\
      filter (fun q => is_ddl q = true) more ≡ₚ ddl ++ ddl)) /\
  (ensured w = false ->
   forall user, req = GetNotes (Some user) ->
     ensured w' = true /\
     exists more,
       issued w' = issued w ++ more /\
       filter (fun q => is_ddl q = true) more ≡ₚ ddl ++ ddl).
Proof.
  intros w'. split; [|split].
  - intros E. destruct (handle_ensured env req w E) as [E' H].
    split; [unfold w'; by rewrite E'|exact H].
  - intros E. exact (handle_first env req w E).
  - intros E user Hreq. unfold w'. rewrite Hreq.
    by apply notes_response_first.
Qed.

(** *** The visibility terms of the store *)

Lemma validTerms_name payload k es :
  (k, es) ∈ validTerms payload -> clean_item k.
Proof.
  unfold validTerms. intros [Hk Hin]%list_elem_of_filter.
  apply list_elem_of_In, in_map_iff in Hin as (item & E & _).
  simpl in Hk. apply truthy_nonempty in Hk. split; [done|].
  unfold to_term in E. injection E as <- _. apply trim_idem.
Qed.

(** X19.  In every state the requests can produce, the name of every stored
    visibility term is a non-empty string without whitespace at either
    end. *)
Theorem X19_stored_term_names_trimmed (w : World) (H : reachable w) :
  forall owner term row,
    diaryx_visibility_term w !! (owner, term) = Some row ->
    term <> EmptyString /\ Js.trim term = term.
Proof.
  induction H as [|w env req _ IH]; intros owner term row.
  { simpl. by rewrite lookup_empty. }
  destruct req as [user|user payload|user noteId|user]; cbn [handle].
  - unfold get_notes. destruct user; [|apply IH].
    rewrite notes_response_terms. apply IH.
  - destruct user as [user|]; [|apply IH].
    destruct payload as [payload|]; [|apply IH].
    destruct (validNotes (e_dateNow env) (e_ToNumber env) payload)
      as [notes|] eqn:En; [|rewrite post_notes_error by done; apply IH].
    destruct (validTerms payload) as [|e l] eqn:Et.
    { rewrite post_notes_no_valid_term by done. apply IH. }
    destruct (batch_accepted (e_dateNow env) notes) eqn:Ea.
    2:{ rewrite (post_notes_rejected_terms _ _ _ _ _ _ _ notes) by done.
        apply IH. }
    rewrite (post_notes_valid_terms _ _ _ _ _ _ _ _ notes)
      by (done || by rewrite Et).
    destruct (decide (owner = u_id user)); [|apply IH].
    rewrite Et. intros Hrow.
    apply fmap_Some in Hrow as (es & Hb & _).
    apply last_binding_elem in Hb. rewrite <- Et in Hb.
    by apply validTerms_name in Hb.
  - unfold delete_note. destruct user; [|apply IH].
    destruct (negb _); [apply IH|]. rewrite bind_eq.
    rewrite deleteNoteForUser_fst. cbn [negb ret fst snd].
    rewrite deleteNoteForUser_terms. apply IH.
  - unfold get_shared_notes. destruct user; [|apply IH].
    destruct (negb _); [apply IH|]. rewrite bind_eq. cbn [ret fst snd].
    rewrite listNotesSharedWithEmail_terms. apply IH.
Qed.

Lemma dedup_first_NoDup_id l : forall seen,
  NoDup l -> (forall x, x ∈ l -> x ∉ seen) -> dedup_first seen l = l.
Proof.
  induction l as [|y l IH]; intros seen Hnd Hseen; simpl; [done|].
  apply NoDup_cons in Hnd as [Hy Hnd].
  destruct (existsb (String.eqb y) seen) eqn:E.
  - apply existsb_exists in E as (z & Hz & ->%String.eqb_eq).
    destruct (Hseen z); [by left|by apply list_elem_of_In].
  - f_equal. apply IH; [done|].
    intros x Hx [->|Hin]%elem_of_cons; [done|].
    by apply (Hseen x); [right|].
Qed.

Lemma normalize_emails_elem es x :
  x ∈ normalize_emails es ->
  x <> EmptyString /\ exists e, x = Js.toLowerCase (Js.trim e).
Proof.
  unfold normalize_emails. intros Hx%dedup_first_elem.
  apply list_elem_of_filter in Hx as [Hne Hx].
  apply list_elem_of_In, in_map_iff in Hx as (e & <- & _).
  split; [by apply Is_true_truthy|by exists e].
Qed.

(** X20.  The emails updateVisibilityTermsForUser stores for a term are
    trimmed, in lower case, non-empty and free of duplicates, and storing
    them again stores the same list: the normalisation changes nothing the
    second time. *)
Theorem X20_normalize_emails_normal (es : list string) :
  NoDup (normalize_emails es) /\
  (forall x, x ∈ normalize_emails es ->
     x <> EmptyString /\ Js.trim x = x /\ Js.toLowerCase x = x) /\
  normalize_emails (normalize_emails es) = normalize_emails es.
Proof.
  split; [apply dedup_first_NoDup|]. split.
  - intros x (Hne & e & ->)%normalize_emails_elem.
    split; [done|]. split; [apply normal_form_trim|apply toLowerCase_idem].
  - assert (forall l : list string,
              (forall x, x ∈ l -> x <> EmptyString /\
                         Js.toLowerCase (Js.trim x) = x) ->
              filter (fun s => Js.truthy s)
                     (map (fun email => Js.toLowerCase (Js.trim email)) l)
              = l) as Hfix.
    { induction l as [|x l IH]; intros Hl; [done|].
      destruct (Hl x) as [Hne Hx]; [by left|].
      cbn [map]. rewrite filter_cons, Hx.
      rewrite IH by (intros; apply Hl; by right).
      destruct (decide (Js.truthy x)) as [|Hno]; [done|].
      destruct Hno. by apply Is_true_truthy. }
    unfold normalize_emails at 1. rewrite Hfix.
    + apply dedup_first_NoDup_id; [apply dedup_first_NoDup|].
      intros x _. apply not_elem_of_nil.
    + intros x (Hne & e & ->)%normalize_emails_elem.
      split; [done|apply normal_form_fixed].
Qed.


(** *** Shared notes and the store *)

Lemma select_shared_elem (ilike : string -> string -> bool) (email : string)
    (t : gmap (string * string) NoteRow) (r : DbSharedNote) :
  r ∈ select_shared ilike email t <->
  exists owner i row,
    t !! (owner, i) = Some row /\
    ilike (markdown row) ("%" +:+ email +:+ "%") = true /\
    r = mkDbSharedNote owner i (markdown row) (source_name row)
                       (Some (last_modified row)).
Proof.
  unfold select_shared. change (map ?g ?l) with (g <$> l).
  rewrite list_elem_of_fmap. setoid_rewrite sort_by_perm.
  setoid_rewrite list_elem_of_filter. split.
  - intros ([[owner i] row] & -> & Hl & Hin). simpl in *.
    apply elem_of_map_to_list in Hin. by exists owner, i, row.
  - intros (owner & i & row & Ht & Hl & ->). exists ((owner, i), row).
    split; [done|]. split; [done|]. by apply elem_of_map_to_list.
Qed.

Lemma toLowerCase_nonempty s :
  s <> EmptyString -> Js.toLowerCase s <> EmptyString.
Proof. by destruct s. Qed.

(** X22.  GET /api/shared-notes for a user with a non-blank email answers
    with notes of the store only: each comes from a stored row, of whatever
    owner, whose markdown passes the ILIKE filter on the user's trimmed,
    lower-cased email and whose own metadata grants that email access, and
    carries the stored id, source name and timestamp of the row.
    Conversely, every stored row that passes the filter and grants access
    is represented in the answer by a note with its id. *)
Theorem X22_shared_notes_are_stored_and_granted (env : Env)
    (user : SessionUser) (e : string) (w : World)
    (He : u_email user = Some e) (Hne : Js.trim e <> EmptyString) :
  let email := Js.toLowerCase (Js.trim e) in
  let shared owner i row :=
    note_of_row (e_dateNow env) (e_fresh env)
      (mkDbSharedNote owner i (markdown row) (source_name row)
                      (Some (last_modified row))) in
  exists notes,
    fst (handle env (GetSharedNotes (Some user)) w) = SharedOk notes /\
    (forall n, n ∈ notes ->
       exists owner row,
         diaryx_note w !! (owner, id n) = Some row /\
         e_ilike env (markdown row) ("%" +:+ email +:+ "%") = true /\
         n = shared owner (id n) row /\
         hasSharedAccess n email = true /\
         lastModified n = last_modified row /\
         sourceName n = source_name row) /\
    (forall owner i row,
       diaryx_note w !! (owner, i) = Some row ->
       e_ilike env (markdown row) ("%" +:+ email +:+ "%") = true ->
       hasSharedAccess (shared owner i row) email = true ->
       exists n, n ∈ notes /\ id n = i).
Proof.
  intros email shared.
  assert (Js.truthy email = true) as Ht.
  { by apply truthy_nonempty, toLowerCase_nonempty. }
  eexists. split.
  { cbn [handle]. unfold get_shared_notes. rewrite He. fold email.
    rewrite Ht. cbn [negb]. rewrite bind_eq. cbn [ret fst].
    by rewrite listNotesSharedWithEmail_rows. }
  split.
  - intros n Hn.
    apply shared_notes_first in Hn as (pre & r & post & Hrows & Hnr & Hg & _).
    assert (r ∈ select_shared (e_ilike env) email (diaryx_note w)) as Hr.
    { rewrite Hrows. apply elem_of_app. right. by left. }
    apply select_shared_elem in Hr as (owner & i & row & Hrow & Hl & ->).
    assert (id n = i) as Hid by (rewrite Hnr; apply id_note_of_row).
    exists owner, row. rewrite Hid. repeat split; try done.
    + by rewrite Hnr.
    + by rewrite Hnr.
  - intros owner i row Hrow Hl Hg.
    destruct (shared_notes_complete (e_dateNow env) (e_localeCompare env)
                (e_fresh env)
                (select_shared (e_ilike env) email (diaryx_note w)) email
                (mkDbSharedNote owner i (markdown row) (source_name row)
                                (Some (last_modified row))))
      as (n & Hn & Hid); [|done|by exists n].
    apply select_shared_elem. by exists owner, i, row.
Qed.

(** *** Splitting and joining *)

Lemma split_go_by sep s : forall cur,
  Js.split_go sep cur s = split_by_go (fun a => Ascii.eqb a sep) cur s.
Proof. induction s as [|c s IH]; intros cur; simpl; [done|]. by rewrite !IH. Qed.

Lemma split_by_go_app sep x : forall cur rest,
  no_sep sep x ->
  split_by_go sep cur (x +:+ rest)
  = split_by_go sep (String.rev_app x cur) rest.
Proof.
  unfold no_sep. induction x as [|c x IH]; intros cur rest; [done|].
  cbn [Js.all_chars]. intros [Hc Hx]%andb_true_iff.
  rewrite append_cons. cbn [split_by_go String.rev_app].
  apply negb_true_iff in Hc. rewrite Hc. by apply IH.
Qed.

Lemma split_by_join sep c pad :
  sep c = true -> no_sep sep pad ->
  forall l x cur,
    Forall (no_sep sep) (x :: l) ->
    split_by_go sep cur (join (String c pad) (x :: l))
    = (String.rev cur +:+ x) :: map (fun y => pad +:+ y) l.
Proof.
  intros Hc Hpad. induction l as [|y l IH]; intros x cur Hl.
  - apply Forall_cons in Hl as [Hx _]. cbn [join map].
    rewrite <- (append_nil_r x) at 1. rewrite split_by_go_app by done.
    cbn [split_by_go]. by rewrite rev_app_append.
  - apply Forall_cons in Hl as [Hx Hl].
    change (join (String c pad) (x :: y :: l))
      with (x +:+ String c pad +:+ join (String c pad) (y :: l)).
    rewrite split_by_go_app by done. rewrite append_cons.
    cbn [split_by_go]. rewrite Hc. rewrite rev_app_append.
    rewrite split_by_go_app by done. rewrite IH by done.
    rewrite rev_app_append. done.
Qed.

Lemma join_head sep x l : exists r, join sep (x :: l) = (x +:+ r).
Proof.
  destruct l as [|y l].
  - exists EmptyString. cbn [join]. by rewrite append_nil_r.
  - by exists (sep +:+ join sep (y :: l)).
Qed.

Lemma clean_starts x : clean_item x -> starts_clean x.
Proof.
  intros [_ <-]. unfold Js.trim. apply trimEnd_clean, trimStart_clean.
Qed.

Lemma trimEnd_nonempty c s :
  Js.is_space c = false -> Js.trimEnd (String c s) <> EmptyString.
Proof. intros Hc. cbn [Js.trimEnd]. rewrite Hc. by destruct (Js.trimEnd s). Qed.

Lemma trim_join_nonempty sep x l :
  clean_item x -> Js.trim (join sep (x :: l)) <> EmptyString.
Proof.
  intros Hx. destruct (join_head sep x l) as [r ->].
  pose proof (clean_starts x Hx) as Hs. destruct Hx as [Hne _].
  destruct x as [|c x]; [done|]. rewrite append_cons.
  unfold Js.trim. cbn [Js.trimStart]. simpl in Hs. rewrite Hs.
  by apply trimEnd_nonempty.
Qed.

Lemma trimStart_pad pad y :
  Js.all_chars Js.is_space pad = true ->
  Js.trimStart (pad +:+ y) = Js.trimStart y.
Proof.
  induction pad as [|c pad IH]; [done|]. cbn [Js.all_chars].
  intros [Hc Hp]%andb_true_iff. rewrite append_cons. cbn [Js.trimStart].
  rewrite Hc. by apply IH.
Qed.

Lemma trim_pad pad y :
  Js.all_chars Js.is_space pad = true -> Js.trim (pad +:+ y) = Js.trim y.
Proof. intros Hp. unfold Js.trim. by rewrite trimStart_pad. Qed.

Lemma pieces_trimmed pad x l :
  Js.all_chars Js.is_space pad = true ->
  Forall clean_item (x :: l) ->
  filter (fun s => Js.truthy s)
         (map Js.trim (x :: map (fun y => pad +:+ y) l)) = x :: l.
Proof.
  intros Hp Hl.
  assert (map Js.trim (map (fun y => pad +:+ y) l) = map Js.trim l) as E.
  { rewrite map_map. apply map_ext. intros y. by apply trim_pad. }
  cbn [map]. rewrite E. by apply (clean_list_fixed (x :: l)).
Qed.

Lemma all_chars_and p q s :
  Js.all_chars (fun a => p a && q a) s = true ->
  Js.all_chars p s = true /\ Js.all_chars q s = true.
Proof.
  induction s as [|c s IH]; [done|]. cbn [Js.all_chars].
  intros [[Hp Hq]%andb_true_iff [Hps Hqs]%IH]%andb_true_iff.
  by rewrite Hp, Hq, Hps, Hqs.
Qed.

Lemma isNonEmpty_trim v :
  Js.trim v <> EmptyString -> EnvTs.isNonEmpty (Some v) = true.
Proof. unfold EnvTs.isNonEmpty. by destruct (Js.trim v). Qed.

Lemma isNonEmpty_Some v :
  EnvTs.isNonEmpty (Some v) = true <-> Js.trim v <> EmptyString.
Proof. unfold EnvTs.isNonEmpty. by destruct (Js.trim v). Qed.

(** *** parseList *)

(** X23.  parseList reads back a list it is given in joined form: items
    without whitespace at their ends and without comma or line feed, joined
    by a comma or a line feed that other whitespace may follow, are
    returned as they are, in order. *)
Theorem X23_parseList_reads_joined_list (c : ascii) (pad : string)
    (items : list string)
    (Hc : EnvTs.is_list_sep c = true)
    (Hpad : Js.all_chars
              (fun a => Js.is_space a && negb (EnvTs.is_list_sep a)) pad = true)
    (Hitems : Forall (fun x => clean_item x /\ no_sep EnvTs.is_list_sep x)
                     items) :
  EnvTs.parseList (Some (join (String c pad) items)) = items.
Proof.
  apply all_chars_and in Hpad as [Hws Hns].
  apply Forall_and in Hitems as [Hclean Hsep].
  destruct items as [|x l]; [done|].
  unfold EnvTs.parseList.
  rewrite isNonEmpty_trim
    by (apply trim_join_nonempty; by apply Forall_cons in Hclean as [? _]).
  unfold split_by. rewrite (split_by_join _ c pad) by done.
  unfold String.rev. cbn [String.rev_app]. rewrite append_nil.
  by apply pieces_trimmed.
Qed.

Lemma space_not_comma pad :
  Js.all_chars Js.is_space pad = true ->
  no_sep (fun a => Ascii.eqb a ","%char) pad.
Proof.
  unfold no_sep. induction pad as [|a pad IH]; [done|]. cbn [Js.all_chars].
  intros [Ha Hp]%andb_true_iff. rewrite IH by done.
  destruct (Ascii.eqb_spec a ","%char) as [->|]; [done|done].
Qed.

Lemma includes_no_sep x c :
  Js.includes_char x c = false -> no_sep (fun a => Ascii.eqb a c) x.
Proof.
  unfold no_sep. induction x as [|a x IH]; [done|]. simpl.
  intros [-> Hx]%orb_false_iff. by apply IH.
Qed.

Lemma trimEnd_snoc s c :
  Js.is_space c = false ->
  Js.trimEnd (s +:+ String c EmptyString) = (s +:+ String c EmptyString).
Proof.
  intros Hc. induction s as [|a s IH].
  - rewrite append_nil. cbn [Js.trimEnd]. by rewrite Hc.
  - rewrite append_cons. cbn [Js.trimEnd]. rewrite IH.
    destruct s; done.
Qed.

Lemma strip_close_bracket_snoc s :
  strip_close_bracket (s +:+ "]") = s.
Proof.
  induction s as [|a s IH]; [done|]. rewrite append_cons.
  cbn [strip_close_bracket]. rewrite IH. by destruct s.
Qed.

(** *** parseInlineArray, read back *)

(** X27.  parseInlineArray reads back an inline array: for items without
    whitespace at their ends and without comma, written between square
    brackets and separated by a comma that whitespace may follow, it
    returns the items as they are, in order. *)
Theorem X27_parseInlineArray_reads_inline_array (pad : string)
    (items : list string)
    (Hpad : Js.all_chars Js.is_space pad = true)
    (Hitems : Forall (fun x => clean_item x /\
                               Js.includes_char x ","%char = false) items) :
  parseInlineArray ("[" +:+ join (String ","%char pad) items +:+ "]") = items.
Proof.
  apply Forall_and in Hitems as [Hclean Hsep].
  unfold parseInlineArray.
  assert (Js.trim ("[" +:+ join (String ","%char pad) items +:+ "]")
          = ("[" +:+ join (String ","%char pad) items +:+ "]")) as ->.
  { unfold Js.trim. rewrite trimStart_of_clean by done.
    rewrite <- append_assoc. by apply trimEnd_snoc. }
  rewrite append_cons, append_nil. cbn [strip_open_bracket].
  change (Ascii.eqb "[" "[") with true. cbn iota.
  rewrite strip_close_bracket_snoc.
  destruct items as [|x l]; [done|].
  assert (Js.truthy (Js.trim (join (String ","%char pad) (x :: l))) = true)
    as ->.
  { apply truthy_nonempty, trim_join_nonempty.
    by apply Forall_cons in Hclean as [? _]. }
  cbn [negb]. unfold Js.split. rewrite split_go_by.
  rewrite (split_by_join _ ","%char pad).
  - unfold String.rev. cbn [String.rev_app]. rewrite append_nil.
    by apply pieces_trimmed.
  - done.
  - by apply space_not_comma.
  - eapply Forall_impl; [exact Hsep|]. intros y. apply includes_no_sep.
Qed.

(** *** Environment variables *)

Lemma readEnvValue_Some env key v :
  EnvTs.readEnvValue env key = Some v <->
  env !! key = Some v /\ Js.trim v <> EmptyString.
Proof.
  unfold EnvTs.readEnvValue.
  destruct (env !! key) as [s|] eqn:E; [|by split; [|intros []]].
  destruct (EnvTs.isNonEmpty (Some s)) eqn:En.
  - apply isNonEmpty_Some in En. split.
    + by intros [= ->].
    + by intros [? _].
  - split; [done|]. intros [[= ->] Hne].
    apply isNonEmpty_Some in Hne. congruence.
Qed.

(** X24.  A variable that holds only whitespace counts as missing:
    readEnvValue returns a value exactly when the variable is set and has a
    character that is not whitespace, and then returns it as it is set;
    requireEnvValue returns that value or fails, with the message it was
    given or, without one, with a message that names the variable. *)
Theorem X24_blank_variable_is_missing (env : gmap string string)
    (key : string) (msg : option string) :
  (forall v, EnvTs.readEnvValue env key = Some v <->
             env !! key = Some v /\ Js.trim v <> EmptyString) /\
  (forall v, EnvTs.requireEnvValue env key msg = inl v <->
             EnvTs.readEnvValue env key = Some v) /\
  (EnvTs.readEnvValue env key = None ->
   EnvTs.requireEnvValue env key msg
   = inr (default ("Missing required env variable: " +:+ key) msg)).
Proof.
  split; [intros v; apply readEnvValue_Some|]. unfold EnvTs.requireEnvValue.
  destruct (EnvTs.readEnvValue env key) as [s|] eqn:E.
  - apply readEnvValue_Some in E as [_ Hne]. rewrite isNonEmpty_trim by done.
    cbn [negb]. split; [|done]. intros v. split; by intros [= ->].
  - split; [|done]. intros v. split; done.
Qed.

Lemma dedup_first_complete l : forall seen x,
  x ∈ l -> x ∉ seen -> x ∈ dedup_first seen l.
Proof.
  induction l as [|y l IH]; intros seen x; simpl.
  - by intros ?%elem_of_nil.
  - intros Hin Hx. destruct (existsb (String.eqb y) seen) eqn:E.
    + apply IH; [|done]. apply elem_of_cons in Hin as [->|Hin]; [|done].
      apply existsb_exists in E as (z & Hz & ->%String.eqb_eq).
      destruct Hx. by apply list_elem_of_In.
    + destruct (decide (x = y)) as [->|Hne]; [by left|]. right.
      apply IH.
      * by apply elem_of_cons in Hin as [->|Hin].
      * by intros [->|?]%elem_of_cons.
Qed.

Lemma no_sep_rev_app sep a : forall b,
  no_sep sep a -> no_sep sep b -> no_sep sep (String.rev_app a b).
Proof.
  unfold no_sep. induction a as [|c a IH]; intros b; [done|].
  cbn [Js.all_chars String.rev_app]. intros [Hc Ha]%andb_true_iff Hb.
  apply IH; [done|]. cbn [Js.all_chars]. by rewrite Hc, Hb.
Qed.

Lemma split_by_go_pieces sep s : forall cur x,
  no_sep sep cur -> x ∈ split_by_go sep cur s -> no_sep sep x.
Proof.
  induction s as [|c s IH]; intros cur x Hcur; cbn [split_by_go].
  - intros ->%list_elem_of_singleton. by apply no_sep_rev_app.
  - destruct (sep c) eqn:E.
    + intros [->|Hin]%elem_of_cons; [by apply no_sep_rev_app|].
      by apply (IH EmptyString).
    + apply IH. unfold no_sep in *. cbn [Js.all_chars]. by rewrite E, Hcur.
Qed.

Lemma no_sep_trimStart sep s : no_sep sep s -> no_sep sep (Js.trimStart s).
Proof.
  unfold no_sep. induction s as [|a s IH]; [done|].
  cbn [Js.all_chars Js.trimStart]. intros [Ha Hs]%andb_true_iff.
  destruct (Js.is_space a); [by apply IH|].
  cbn [Js.all_chars]. by rewrite Ha, Hs.
Qed.

Lemma no_sep_trimEnd sep s : no_sep sep s -> no_sep sep (Js.trimEnd s).
Proof.
  unfold no_sep. induction s as [|a s IH]; [done|].
  cbn [Js.all_chars Js.trimEnd]. intros [Ha Hs]%andb_true_iff.
  specialize (IH Hs). destruct (Js.trimEnd s) as [|b t].
  - destruct (Js.is_space a); [done|]. cbn [Js.all_chars]. by rewrite Ha.
  - cbn [Js.all_chars] in *. by rewrite Ha, IH.
Qed.

Lemma parseList_items value x :
  x ∈ EnvTs.parseList value ->
  clean_item x /\ no_sep EnvTs.is_list_sep x.
Proof.
  unfold EnvTs.parseList. destruct value as [v|]; [|by intros ?%elem_of_nil].
  destruct (EnvTs.isNonEmpty _); [|by intros ?%elem_of_nil].
  intros Hx.
  pose proof (clean_trimmed_list (split_by EnvTs.is_list_sep v)) as Hc.
  rewrite Forall_forall in Hc. split; [by apply Hc|].
  apply list_elem_of_filter in Hx as [_ Hx].
  apply list_elem_of_In, in_map_iff in Hx as (y & <- & Hy).
  apply list_elem_of_In in Hy.
  apply no_sep_trimEnd, no_sep_trimStart.
  by apply (split_by_go_pieces _ v EmptyString).
Qed.

(** X25.  The configuration read from the environment: a blank
    BETTER_AUTH_URL does not hide AUTH_URL, and a blank TRUSTED_ORIGINS does
    not hide AUTH_TRUSTED_ORIGINS; every trusted origin is a non-empty
    string without whitespace at its ends, comma or line feed;
    requireAuthConfig fails exactly when the secret is missing or blank.
    The allowed origins are the trusted origins and the defaults, each
    once. *)
Theorem X25_auth_config_and_origins (env : gmap string string) :
  let cfg := EnvTs.readAuthConfig env in
  (EnvTs.readEnvValue env "BETTER_AUTH_URL" = None ->
   EnvTs.url cfg = EnvTs.readEnvValue env "AUTH_URL") /\
  (EnvTs.readEnvValue env "TRUSTED_ORIGINS" = None ->
   EnvTs.trustedOrigins cfg
   = EnvTs.parseList (EnvTs.readEnvValue env "AUTH_TRUSTED_ORIGINS")) /\
  Forall (fun o => clean_item o /\ no_sep EnvTs.is_list_sep o)
         (EnvTs.trustedOrigins cfg) /\
  (EnvTs.requireAuthConfig env = inl cfg <->
   EnvTs.readEnvValue env "BETTER_AUTH_SECRET" <> None) /\
  (EnvTs.readEnvValue env "BETTER_AUTH_SECRET" = None ->
   EnvTs.requireAuthConfig env
   = inr "Missing required env variable: BETTER_AUTH_SECRET") /\
  NoDup (CORS_ORIGINS env) /\
  (forall o, o ∈ CORS_ORIGINS env <->
             o ∈ EnvTs.trustedOrigins cfg \/ o ∈ DEFAULT_CORS_ORIGINS).
Proof.
  intros cfg. split; [|split; [|split; [|split; [|split; [|split]]]]].
  - unfold cfg, EnvTs.readAuthConfig. cbn [EnvTs.url]. by intros ->.
  - unfold cfg, EnvTs.readAuthConfig. cbn [EnvTs.trustedOrigins].
    by intros ->.
  - apply Forall_forall. intros o. apply parseList_items.
  - unfold EnvTs.requireAuthConfig. fold cfg.
    assert (EnvTs.secret cfg = EnvTs.readEnvValue env "BETTER_AUTH_SECRET")
      as Hs by done.
    rewrite <- Hs.
    destruct (EnvTs.secret cfg) as [s|] eqn:E.
    + assert (EnvTs.isNonEmpty (Some s) = true) as ->.
      { symmetry in Hs. apply readEnvValue_Some in Hs as [_ Hne].
        by apply isNonEmpty_trim. }
      cbn [negb]. split; [done|]. intros _. f_equal.
      destruct cfg. simpl in *. by subst.
    + cbn [EnvTs.isNonEmpty negb]. split; done.
  - unfold EnvTs.requireAuthConfig. fold cfg.
    change (EnvTs.secret cfg)
      with (EnvTs.readEnvValue env "BETTER_AUTH_SECRET").
    by intros ->.
  - apply dedup_first_NoDup.
  - intros o. unfold CORS_ORIGINS, merge_origins. fold cfg.
    rewrite <- elem_of_app. split.
    + apply dedup_first_elem.
    + intros Hin. apply dedup_first_complete; [done|apply not_elem_of_nil].
Qed.

(** *** toRegex *)

Lemma replace_backslash s :
  head_is_star s = false ->
  replace_escaped_star (String backslash s)
  = String backslash (replace_escaped_star s).
Proof.
  intros H. cbn [replace_escaped_star].
  change (Ascii.eqb backslash backslash) with true. cbn iota.
  destruct s as [|d s]; [done|]. simpl in H. by rewrite H.
Qed.

Lemma replace_other c s :
  Ascii.eqb c backslash = false ->
  replace_escaped_star (String c s) = String c (replace_escaped_star s).
Proof. intros H. cbn [replace_escaped_star]. by rewrite H. Qed.

Lemma special_not_star c : regex_special c = true -> Ascii.eqb c "*" = false.
Proof.
  intros H. destruct (Ascii.eqb_spec c "*"%char) as [->|]; [|done].
  discriminate H.
Qed.

Lemma escape_special_head s :
  head_is_star (escape_special s) = head_is_star s.
Proof.
  destruct s as [|c s]; [done|]. cbn [escape_special].
  destruct (regex_special c) eqn:E; [|done].
  cbn [head_is_star]. rewrite (special_not_star c) by done. reflexivity.
Qed.

Lemma replace_escape_id p :
  has_escaped_star p = false ->
  replace_escaped_star (escape_special p) = escape_special p.
Proof.
  induction p as [|c p IH]; [done|]. cbn [has_escaped_star escape_special].
  intros [Hc Hp]%orb_false_iff. specialize (IH Hp).
  destruct (regex_special c) eqn:Es.
  - rewrite replace_backslash
      by (cbn [head_is_star]; by apply special_not_star).
    destruct (Ascii.eqb c backslash) eqn:Eb.
    + apply Ascii.eqb_eq in Eb as ->. simpl in Hc.
      rewrite replace_backslash by by rewrite escape_special_head.
      by rewrite IH.
    + rewrite replace_other by done. by rewrite IH.
  - assert (Ascii.eqb c backslash = false) as Eb.
    { destruct (Ascii.eqb_spec c backslash) as [->|]; [|done].
      discriminate Es. }
    rewrite replace_other by done. by rewrite IH.
Qed.

(** X26.  toRegex makes no wildcard of a star: for patterns in which no
    backslash stands before a star, the text handed to the RegExp
    constructor is the pattern between the two anchors with a backslash
    before each special character, every star left as it is; so an origin
    is allowed by such patterns exactly when one of them is the single
    star or its escaped text, as a regular expression, matches the
    origin. *)
Theorem X26_toRegex_leaves_stars (test : string -> string -> option bool)
    (origin : string) (patterns : list string)
    (H : Forall (fun p => has_escaped_star p = false) patterns) :
  Forall (fun p => toRegex_source p = ("^" +:+ escape_special p +:+ "$"))
         patterns /\
  isOriginAllowed test origin patterns
  = existsb (fun p =>
               String.eqb p "*"
               || bool_decide (test ("^" +:+ escape_special p +:+ "$") origin
                               = Some true))
            patterns.
Proof.
  split.
  - eapply Forall_impl; [exact H|]. intros p Hp. unfold toRegex_source.
    by rewrite replace_escape_id.
  - unfold isOriginAllowed. induction H as [|p l Hp _ IH]; [done|].
    cbn [existsb]. rewrite IH. f_equal. unfold toRegex_source.
    rewrite replace_escape_id by done.
    destruct (String.eqb p "*"); [done|]. cbn [orb].
    destruct (test _ origin) as [[|]|]; done.
Qed.

(** *** Metadata the parser does not read *)

Lemma yaml_loop_foreign lines :
  Forall (fun line => foreign_line line = true) lines ->
  forall fuel i result, yaml_loop fuel lines i result = result.
Proof.
  intros Hl. induction fuel as [|fuel IH]; intros i result; [done|].
  cbn [yaml_loop]. destruct (lines !! i) as [line|] eqn:E; [|done].
  destruct (_ || _); [apply IH|].
  rewrite Forall_forall in Hl.
  pose proof (Hl line (list_elem_of_lookup_2 _ _ _ E)) as Hf.
  unfold foreign_line in Hf.
  destruct (Regex.exec top_key_re line) as [top|]; [|apply IH].
  apply andb_true_iff in Hf as [H1 H2].
  apply negb_true_iff in H1, H2. rewrite H1, H2. apply IH.
Qed.

(** X28.  Metadata the parser does not read is ignored: a metadata block
    none of whose lines is a top-level visibility or visibility_emails line
    (other keys, comments, nested or free text) parses to no field at
    all. *)
Theorem X28_parseYamlSubset_ignores_other_keys (yaml : string)
    (H : Forall (fun line => foreign_line line = true) (Js.split_lines yaml)) :
  parseYamlSubset (Some yaml) = subset_empty.
Proof.
  unfold parseYamlSubset. destruct (negb _); [done|].
  by apply yaml_loop_foreign.
Qed.

(** *** extractFrontmatter, read back *)

Lemma run_stop d s g caps :
  Regex.run [Regex.Close; Regex.Lit d; Regex.Star true Js.is_space;
             Regex.Opt is_LF] s (Some g) caps
  = match Js.strip_prefix d s with
    | Some after => Some (rev caps ++ [String.rev g], Js.trimStart after)
    | None => None
    end.
Proof.
  cbn [Regex.run Regex.close].
  destruct (Js.strip_prefix d s) as [after|]; [|done].
  change (Regex.run [Regex.Star true Js.is_space; Regex.Opt is_LF] after
            (Regex.push_lit d None) (String.rev g :: caps)
          = Some (rev caps ++ [String.rev g], Js.trimStart after)).
  by rewrite run_gap.
Qed.

Lemma run_star_greedy_cons p r c s open caps :
  p c = true ->
  Regex.run (Regex.Star true p :: r) (String c s) open caps
  = Regex.or_else (Regex.run (Regex.Star true p :: r) s (Regex.push c open) caps)
                  (fun _ => Regex.run r (String c s) open caps).
Proof.
  intros H.
  transitivity
    (if p c
     then Regex.or_else
            (Regex.run (Regex.Star true p :: r) s (Regex.push c open) caps)
            (fun _ => Regex.run r (String c s) open caps)
     else Regex.run r (String c s) open caps); [reflexivity|by rewrite H].
Qed.

Lemma run_star_lazy_cons p r c s open caps :
  p c = true ->
  Regex.run (Regex.Star false p :: r) (String c s) open caps
  = Regex.or_else (Regex.run r (String c s) open caps)
      (fun _ => Regex.run (Regex.Star false p :: r) s (Regex.push c open) caps).
Proof.
  intros H.
  transitivity
    (if p c
     then Regex.or_else (Regex.run r (String c s) open caps)
            (fun _ =>
               Regex.run (Regex.Star false p :: r) s (Regex.push c open) caps)
     else Regex.run r (String c s) open caps); [reflexivity|by rewrite H].
Qed.

Lemma run_star_stop greedy p r c s open caps :
  p c = false ->
  Regex.run (Regex.Star greedy p :: r) (String c s) open caps
  = Regex.run r (String c s) open caps.
Proof.
  intros H.
  transitivity
    (if p c
     then if greedy
          then Regex.or_else
                 (Regex.run (Regex.Star greedy p :: r) s (Regex.push c open)
                            caps)
                 (fun _ => Regex.run r (String c s) open caps)
          else Regex.or_else (Regex.run r (String c s) open caps)
                 (fun _ =>
                    Regex.run (Regex.Star greedy p :: r) s
                              (Regex.push c open) caps)
     else Regex.run r (String c s) open caps).
  - by destruct greedy.
  - by rewrite H.
Qed.

Lemma run_star_nil greedy p r open caps :
  Regex.run (Regex.Star greedy p :: r) EmptyString open caps
  = Regex.run r EmptyString open caps.
Proof. reflexivity. Qed.

Lemma strip_prefix_fence y r :
  Js.startsWith y "---" = false ->
  Js.strip_prefix "---" (y +:+ NL +:+ r) = None.
Proof.
  unfold Js.startsWith.
  destruct y as [|a [|b [|c y]]]; intros H;
    rewrite ?append_cons, ?append_nil; unfold NL; rewrite ?append_cons;
    cbn [Js.strip_prefix] in *.
  - done.
  - by destruct (Ascii.eqb "-" a).
  - by destruct (Ascii.eqb "-" a), (Ascii.eqb "-" b).
  - by destruct (Ascii.eqb "-" a), (Ascii.eqb "-" b), (Ascii.eqb "-" c).
Qed.

Lemma fence_prefix c y r :
  has_fence (String c y) = false ->
  Js.strip_prefix (NL +:+ "---") (String c (y +:+ NL +:+ r)) = None.
Proof.
  cbn [has_fence]. intros [H _]%orb_false_iff.
  change (NL +:+ "---") with (String Js.LF "---").
  cbn [Js.strip_prefix]. rewrite Ascii.eqb_sym.
  destruct (Ascii.eqb c Js.LF); [|done]. simpl in H.
  by apply strip_prefix_fence.
Qed.

(** The lazy group takes the metadata, which holds no fence, and no more. *)
Lemma run_lazy_exact yaml : forall g caps after,
  has_fence yaml = false ->
  Regex.run [Regex.Star false Regex.any; Regex.Close;
             Regex.Lit (NL +:+ "---"); Regex.Star true Js.is_space;
             Regex.Opt is_LF]
            (yaml +:+ NL +:+ "---" +:+ after) (Some g) caps
  = Some (rev caps ++ [String.rev g +:+ yaml], Js.trimStart after).
Proof.
  induction yaml as [|c y IH]; intros g caps after Hf.
  - rewrite append_nil. change (NL +:+ "---" +:+ after)
      with (String Js.LF ("---" +:+ after)).
    rewrite run_star_lazy_cons by done. rewrite run_stop.
    assert (Js.strip_prefix (NL +:+ "---") (String Js.LF ("---" +:+ after))
            = Some after) as ->.
    { apply strip_prefix_Some. by rewrite append_assoc. }
    cbn [Regex.or_else]. by rewrite append_nil_r.
  - rewrite append_cons. rewrite run_star_lazy_cons by done. rewrite run_stop.
    rewrite fence_prefix by done. cbn [Regex.or_else Regex.push].
    rewrite IH.
    + f_equal. f_equal. f_equal.
      change (String.rev (String c g))
        with (String.rev (String.rev_app (String c EmptyString) g)).
      rewrite rev_app_append. by rewrite append_assoc.
    + cbn [has_fence] in Hf. by apply orb_false_iff in Hf as [_ ?].
Qed.

(** X29.  extractFrontmatter splits an assembled document back into its
    parts: for metadata that starts with a character other than whitespace
    and holds no line feed followed by three dashes, the document made of
    the delimiter, a line feed, the metadata, a line feed, the delimiter
    and any text yields that metadata, and as body the text without its
    leading whitespace. *)
Theorem X29_extractFrontmatter_reads_assembled_document (yaml after : string)
    (Hne : yaml <> EmptyString) (Hclean : starts_clean yaml)
    (Hfence : has_fence yaml = false) :
  extractFrontmatter ("---" +:+ NL +:+ yaml +:+ NL +:+ "---" +:+ after)
  = (Some yaml, Js.trimStart after).
Proof.
  unfold extractFrontmatter. rewrite startsWith_app. cbn [negb].
  assert (Regex.exec frontmatter_re
            ("---" +:+ NL +:+ yaml +:+ NL +:+ "---" +:+ after)
          = Some ([yaml], Js.trimStart after)) as ->; [|done].
  unfold Regex.exec, frontmatter_re. rewrite run_Lit.
  assert (Js.strip_prefix "---"
            ("---" +:+ NL +:+ yaml +:+ NL +:+ "---" +:+ after)
          = Some (NL +:+ yaml +:+ NL +:+ "---" +:+ after)) as ->
    by by apply strip_prefix_Some.
  rewrite push_lit_None.
  destruct yaml as [|c y]; [done|]. simpl in Hclean.
  change (NL +:+ String c y +:+ NL +:+ "---" +:+ after)
    with (String Js.LF (String c y +:+ NL +:+ "---" +:+ after)).
  rewrite run_star_greedy_cons by done.
  rewrite (append_cons c y). rewrite run_star_stop by done.
  rewrite run_Lit.
  assert (Js.strip_prefix NL (String c (y +:+ NL +:+ "---" +:+ after)) = None)
    as ->.
  { unfold NL. cbn [Js.strip_prefix].
    destruct (Ascii.eqb_spec Js.LF c) as [<-|]; [done|done]. }
  cbn [Regex.or_else]. rewrite run_Lit.
  assert (Js.strip_prefix NL
            (String Js.LF (String c (y +:+ NL +:+ "---" +:+ after)))
          = Some (String c (y +:+ NL +:+ "---" +:+ after))) as -> by done.
  rewrite push_lit_None, run_Open.
  rewrite <- (append_cons c y).
  rewrite run_lazy_exact by done. done.
Qed.

(** *** A sync and the listing that follows *)


(* ================================================================== *)
(** ** The further properties at concrete inputs *)
(* ================================================================== *)

Lemma X1_witness :
  "b" ∈ parseInlineArray "[a, b]" /\
  ("b" <> EmptyString /\ Js.trim "b" = "b" /\
   Js.includes_char "b" ","%char = false).
Proof.
  assert ("b" ∈ parseInlineArray "[a, b]") as H.
  { assert (parseInlineArray "[a, b]" = ["a"; "b"]) as -> by reflexivity.
    right. left. }
  split; [exact H|]. exact (X1_parseInlineArray_items "[a, b]" "b" H).
Defined.

Lemma X4_witness :
  (1 <= 1)%nat /\
  exists k,
    parseBlockArray demo_lines 1 2
    = (omap (block_item (block_item_re 2)) (take k (drop 1 demo_lines)),
       (1 + k - 1)%nat) /\
    (1 + k <= max 1 (length demo_lines))%nat /\
    (forall j line, (1 <= j < 1 + k)%nat ->
       demo_lines !! j = Some line ->
       Regex.test (block_item_re 2) line = true) /\
    (forall line, demo_lines !! (1 + k)%nat = Some line ->
       Regex.test (block_item_re 2) line = false).
Proof.
  split; [lia|]. apply (X4_parseBlockArray_run demo_lines 1 2). lia.
Defined.

Lemma X6_witness :
  hasSharedAccess listed_note " Alice@X.com" = true /\
  exists m term l entry,
    visibility_emails (metadata listed_note) = Some m /\
    term ∈ toVisibilityArray (visibility (metadata listed_note)) /\
    entry ∈ l /\
    Js.toLowerCase entry = Js.toLowerCase (Js.trim " Alice@X.com") /\
    (Obj.get term m = Some l \/
     exists k, (k, l) ∈ Obj.own m /\
               Js.toLowerCase (Js.trim k) = Js.toLowerCase term).
Proof.
  split; [reflexivity|].
  apply (X6_hasSharedAccess_only_listed listed_note " Alice@X.com").
  reflexivity.
Defined.

Lemma X7_witness : hasSharedAccess listed_note " Alice@X.com" = true.
Proof.
  apply (X7_hasSharedAccess_listed listed_note " Alice@X.com"
           (Obj.mk [("friends", ["alice@x.com"])] None)
           "friends" ["alice@x.com"] "alice@x.com").
  - reflexivity.
  - assert (toVisibilityArray (visibility (metadata listed_note))
            = ["friends"]) as -> by reflexivity.
    left.
  - left.
  - reflexivity.
  - left. reflexivity.
Defined.

Lemma X8_witness :
  extractFrontmatter scenario_A = (Some "visibility: [friends]", "Hello") /\
  exists ws gap,
    scenario_A = ("---" +:+ ws +:+ NL +:+ "visibility: [friends]" +:+ NL +:+
                  "---" +:+ gap +:+ "Hello") /\
    Js.all_chars Js.is_space ws = true /\
    Js.all_chars Js.is_space gap = true /\
    starts_clean "Hello" /\
    forall p q,
      ("visibility: [friends]" +:+ NL +:+ "---" +:+ gap +:+ "Hello")
      = (p +:+ NL +:+ "---" +:+ q) ->
      (String.length "visibility: [friends]" <= String.length p)%nat.
Proof.
  split; [reflexivity|].
  apply (X8_extractFrontmatter_parts scenario_A). reflexivity.
Defined.

Lemma X9_witness :
  Js.startsWith "Hello" "---" = false /\
  body private_note = "Hello" /\
  forall email, hasSharedAccess private_note email = false.
Proof.
  split; [reflexivity|].
  pose proof (X9_plain_document_is_private 0 "id" "Hello" (Some "n1") None
                (or_introl eq_refl)) as H.
  cbv zeta in H. destruct H as (Hb & _ & _ & _ & _ & Hno).
  split; [exact Hb|exact Hno].
Defined.


Lemma X14_witness :
  requester (DeleteNoteById (Some (mkUser "u1" None)) "n1")
  = Some (mkUser "u1" None) /\
  diaryx_note
    (snd (handle demo_env (DeleteNoteById (Some (mkUser "u1" None)) "n1")
            two_user_world)) !! ("u2", "n1")
  = diaryx_note two_user_world !! ("u2", "n1").
Proof.
  split; [reflexivity|].
  apply (X14_requests_keep_other_users_rows demo_env
           (DeleteNoteById (Some (mkUser "u1" None)) "n1")
           (mkUser "u1" None) two_user_world eq_refl "u2" "n1").
  done.
Defined.



Lemma X18_witness :
  filter (fun q => is_ddl q = true)
    (issued (snd (handle open_env (GetNotes (Some (mkUser "u1" None)))
                    initial)))
  ≡ₚ ddl ++ ddl.
Proof.
  pose proof (X18_tables_ensured_per_helper open_env
                (GetNotes (Some (mkUser "u1" None))) initial) as H.
  cbv zeta in H. destruct H as (_ & _ & H).
  destruct (H eq_refl (mkUser "u1" None) eq_refl) as (_ & more & Hi & Hp).
  rewrite Hi. exact Hp.
Defined.

Lemma X19_witness :
  "friends" <> EmptyString /\ Js.trim "friends" = "friends".
Proof.
  apply (X19_stored_term_names_trimmed demo_world
           (reach_step _ _ _ reach_initial) "u1" "friends"
           (mkTermRow ["alice@x.com"] 7)).
  vm_compute. reflexivity.
Defined.

Lemma X22_witness :
  exists notes,
    fst (handle open_env (GetSharedNotes (Some (mkUser "u2" (Some " Alice@X.com "))))
           shared_world) = SharedOk notes /\
    exists n, n ∈ notes /\ id n = "b".
Proof.
  assert (Js.trim " Alice@X.com " <> EmptyString) as Hne by done.
  pose proof (X22_shared_notes_are_stored_and_granted open_env
                (mkUser "u2" (Some " Alice@X.com ")) " Alice@X.com "
                shared_world eq_refl Hne) as H.
  cbv zeta in H. destruct H as (notes & Hr & _ & Hc).
  exists notes. split; [exact Hr|].
  apply (Hc "u1" "b" (mkNoteRow scenario_A_listed None 100 1 1));
    reflexivity.
Defined.

Lemma X23_witness :
  EnvTs.parseList (Some "https://a.example, https://b.example")
  = ["https://a.example"; "https://b.example"].
Proof.
  apply (X23_parseList_reads_joined_list ","%char " "
           ["https://a.example"; "https://b.example"]).
  - reflexivity.
  - reflexivity.
  - repeat (constructor; [repeat split; done|]). constructor.
Defined.

Lemma X25_witness :
  EnvTs.url (EnvTs.readAuthConfig demo_process_env)
  = Some "https://api.example.com" /\
  NoDup (CORS_ORIGINS demo_process_env).
Proof.
  pose proof (X25_auth_config_and_origins demo_process_env) as H.
  cbv zeta in H. destruct H as (Hurl & _ & _ & _ & _ & Hnd & _).
  split; [|exact Hnd]. rewrite Hurl; by vm_compute.
Defined.

Lemma X26_witness :
  toRegex_source "https://*.adammharris-projects.vercel.app"
  = "^https://*\.adammharris-projects\.vercel\.app$" /\
  isOriginAllowed (fun _ _ => None) "https://x.adammharris-projects.vercel.app"
                  DEFAULT_CORS_ORIGINS = false.
Proof.
  assert (Forall (fun p => has_escaped_star p = false) DEFAULT_CORS_ORIGINS)
    as H by (apply (bool_decide_unpack _); by vm_compute).
  destruct (X26_toRegex_leaves_stars (fun _ _ => None)
              "https://x.adammharris-projects.vercel.app"
              DEFAULT_CORS_ORIGINS H) as [HF HE].
  split.
  - rewrite Forall_forall in HF. rewrite HF; [reflexivity|].
    apply (bool_decide_unpack _). by vm_compute.
  - rewrite HE. reflexivity.
Defined.

Lemma X27_witness :
  parseInlineArray "[friends, family]" = ["friends"; "family"].
Proof.
  apply (X27_parseInlineArray_reads_inline_array " " ["friends"; "family"]).
  - reflexivity.
  - repeat (constructor; [repeat split; done|]). constructor.
Defined.

Lemma X28_witness : parseYamlSubset (Some other_metadata) = subset_empty.
Proof.
  apply (X28_parseYamlSubset_ignores_other_keys other_metadata).
  apply (bool_decide_unpack _). by vm_compute.
Defined.

Lemma X29_witness :
  extractFrontmatter scenario_A = (Some "visibility: [friends]", "Hello").
Proof.
  apply (X29_extractFrontmatter_reads_assembled_document
           "visibility: [friends]" (NL +:+ "Hello")).
  - done.
  - reflexivity.
  - reflexivity.
Defined.

